(** * go-idpc-plugin: a shallow embedding of [plugin.go] and its properties

    The development follows the layout of the Go source: numeric
    representations first (machine integers with their wrap-around, IEEE
    binary64 through the Standard Library's [SpecFloat]), then [time.Time],
    the Rate Engine ([calcDiff], [calcDiffUint32], [calcDiffUint64]), the
    Version and Meta models with their parsers, the State Store, the Output
    Formatter and the Runtime Harness with its metadata cycle, its metrics
    cycle and its descriptor mode, and last the example plugin of the
    repository. The name of the state file ([tempFilename], a SHA-1 of the
    command line below the work directory) is not modelled: the world holds
    the one file that a plugin instance uses. *)

From Stdlib Require Import ZArith Lia Bool List Ascii String.
From Stdlib Require Import Floats.SpecFloat.
From stdpp Require Import base option list gmap strings.

Local Open Scope Z_scope.

(* ===================================================================== *)
(** ** Machine integers *)
(* ===================================================================== *)

(** Go's [uint32], [uint64] and [int64] are integers with silent
    wrap-around; they are carried as [Z] and every operation of the source
    is followed by the reduction the hardware performs. *)

Definition wrap_uint32 (z : Z) : Z := z mod 2 ^ 32.
Definition wrap_uint64 (z : Z) : Z := z mod 2 ^ 64.
Definition wrap_int64 (z : Z) : Z := (z + 2 ^ 63) mod 2 ^ 64 - 2 ^ 63.

Definition is_uint32 (z : Z) : Prop := 0 <= z < 2 ^ 32.
Definition is_uint64 (z : Z) : Prop := 0 <= z < 2 ^ 64.
Definition is_int64 (z : Z) : Prop := - 2 ^ 63 <= z < 2 ^ 63.

Definition maxUint32 : Z := 2 ^ 32 - 1.
Definition maxUint64 : Z := 2 ^ 64 - 1.

(* ===================================================================== *)
(** ** float64 *)
(* ===================================================================== *)

(** IEEE 754 binary64 with round-to-nearest-even, as specified by
    [SpecFloat] at precision 53 and maximal exponent 1024. *)

Module F64.

Definition prec : Z := 53.
Definition emax : Z := 1024.

Definition float64 : Type := spec_float.

Definition valid (x : float64) : bool := valid_binary prec emax x.

(** Conversion of an integer ([float64(n)] in Go): the nearest float. *)
Definition of_Z (z : Z) : float64 := binary_normalize prec emax z 0 false.

Definition add (x y : float64) : float64 := SFadd prec emax x y.
Definition sub (x y : float64) : float64 := SFsub prec emax x y.
Definition mul (x y : float64) : float64 := SFmul prec emax x y.
Definition div (x y : float64) : float64 := SFdiv prec emax x y.

Definition eqb (x y : float64) : bool := SFeqb x y.
Definition ltb (x y : float64) : bool := SFltb x y.
Definition leb (x y : float64) : bool := SFleb x y.

Definition zero : float64 := S754_zero false.
Definition pos_inf : float64 := S754_infinity false.
Definition neg_inf : float64 := S754_infinity true.
Definition nan : float64 := S754_nan.

(** [math.IsNaN] and [math.IsInf(f, 0)]. *)
Definition IsNaN (x : float64) : bool :=
  match x with S754_nan => true | _ => false end.
Definition IsInf (x : float64) : bool :=
  match x with S754_infinity _ => true | _ => false end.

(** Truncation toward zero of a finite float, the mathematical part of
    the conversions [int64(f)], [uint32(f)] and [uint64(f)]. *)
Definition trunc (x : float64) : option Z :=
  match x with
  | S754_zero _ => Some 0
  | S754_finite s m e =>
      let a := match e with
               | Zneg p => Z.shiftr (Zpos m) (Zpos p)
               | _ => Z.shiftl (Zpos m) e
               end in
      Some (if s then - a else a)
  | _ => None
  end.

End F64.

Abbreviation float64 := F64.float64.

(* ===================================================================== *)
(** ** Errors *)
(* ===================================================================== *)

(** The error values the source creates or receives from its libraries. *)
Inductive error : Type :=
  | errStateUpdated      (* errors.New("state was recently updated") *)
  | errTooLongDuration   (* errors.New("too long duration") *)
  | errCounterReset      (* errors.New("counter seems to be reset") *)
  | errVersionFormat     (* fmt.Errorf("expected Major.Minor.Patch in %q") *)
  | errSyntax            (* strconv.ErrSyntax *)
  | errRange             (* strconv.ErrRange *)
  | errOpen              (* os.Open failed, the file exists *)
  | errDecode            (* json: the file is not a JSON object *)
  | errEncode.           (* json: unsupported value *)

Global Instance error_eq_dec : EqDecision error.
Proof. solve_decision. Defined.

(* ===================================================================== *)
(** ** time.Time *)
(* ===================================================================== *)

(** A wall-clock instant: whole seconds since the Unix epoch and the
    nanoseconds within that second. *)
Record Time : Type := mkTime { sec : Z; nsec : Z }.

Definition Second : Z := 1000000000.
Definition minDuration : Z := - 2 ^ 63.
Definition maxDuration : Z := 2 ^ 63 - 1.

(** [t.Unix()]. *)
Definition Unix (t : Time) : Z := sec t.

(** [time.Unix(s, 0)]. *)
Definition time_Unix (s : Z) : Time := mkTime s 0.

(** The zero [time.Time]: January 1, year 1, 00:00:00 UTC. *)
Definition zeroTime : Time := mkTime (-62135596800) 0.

(** Nanoseconds since the epoch, unbounded. *)
Definition nanos (t : Time) : Z := sec t * Second + nsec t.

(** [t.Sub(u)]: the difference as a [Duration] (int64 nanoseconds), which
    saturates at the ends of the range. *)
Definition Sub (t u : Time) : Z :=
  let d := nanos t - nanos u in
  if d <? minDuration then minDuration
  else if maxDuration <? d then maxDuration
  else d.

(* ===================================================================== *)
(** ** Rate Engine *)
(* ===================================================================== *)

(** [diffTime := now.Unix() - lastTime.Unix()], an int64 subtraction. *)
Definition diffTime (now lastTime : Time) : Z :=
  wrap_int64 (Unix now - Unix lastTime).

Definition calcDiff (value : float64) (now : Time)
    (lastValue : float64) (lastTime : Time) : float64 * option error :=
  let diffTime := diffTime now lastTime in
  if 600 <? diffTime then (F64.zero, Some errTooLongDuration)
  else
    let diff :=
      F64.div (F64.mul (F64.sub value lastValue) (F64.of_Z 60))
              (F64.of_Z diffTime) in
    if F64.leb lastValue value then (diff, None)
    else (F64.zero, Some errCounterReset).

Definition calcDiffUint32 (value : Z) (now : Time) (lastValue : Z)
    (lastTime : Time) (lastDiff : float64) : float64 * option error :=
  let diffTime := diffTime now lastTime in
  if 600 <? diffTime then (F64.zero, Some errTooLongDuration)
  else
    let diff :=
      F64.div (F64.of_Z (wrap_uint32 (wrap_uint32 (value - lastValue) * 60)))
              (F64.of_Z diffTime) in
    if (lastValue <=? value) || F64.ltb diff (F64.mul lastDiff (F64.of_Z 10))
    then (diff, None)
    else (F64.zero, Some errCounterReset).

Definition calcDiffUint64 (value : Z) (now : Time) (lastValue : Z)
    (lastTime : Time) (lastDiff : float64) : float64 * option error :=
  let diffTime := diffTime now lastTime in
  if 600 <? diffTime then (F64.zero, Some errTooLongDuration)
  else
    let diff :=
      F64.div (F64.of_Z (wrap_uint64 (wrap_uint64 (value - lastValue) * 60)))
              (F64.of_Z diffTime) in
    if (lastValue <=? value) || F64.ltb diff (F64.mul lastDiff (F64.of_Z 10))
    then (diff, None)
    else (F64.zero, Some errCounterReset).

(* ===================================================================== *)
(** ** Strings, [strings] and [strconv] *)
(* ===================================================================== *)

(** Go strings are byte strings; [string] is the list of their bytes. *)

Local Open Scope string_scope.

Definition byte_of (c : ascii) : Z := Z.of_N (N_of_ascii c).

(** [strings.HasPrefix(s, p)] together with the remainder of [s]. *)
Fixpoint strip_prefix (p s : string) : option string :=
  match p, s with
  | EmptyString, _ => Some s
  | String a p', String b s' =>
      if Ascii.eqb a b then strip_prefix p' s' else None
  | String _ _, EmptyString => None
  end.

(** The first occurrence of [sep] in [s] ([strings.Index]): the text
    before it and the text after it. *)
Fixpoint cut (sep s : string) : option (string * string) :=
  match strip_prefix sep s with
  | Some rest => Some (EmptyString, rest)
  | None =>
      match s with
      | EmptyString => None
      | String c s' =>
          match cut sep s' with
          | Some (a, b) => Some (String c a, b)
          | None => None
          end
      end
  end.

(** [strings.SplitN(s, sep, n)] for positive [n] and non-empty [sep]: at
    most [n] pieces, the last one the unsplit remainder. *)
Fixpoint SplitN (s sep : string) (n : nat) : list string :=
  match n with
  | O => []
  | S O => [s]
  | S n' =>
      match cut sep s with
      | Some (a, rest) => a :: SplitN rest sep n'
      | None => [s]
      end
  end.

(** [strings.Replace(s, old, new, -1)] for non-empty [old]: every
    non-overlapping occurrence, scanning from the left. [skip] counts the
    bytes of an occurrence still to be passed over. *)
Fixpoint Replace_from (old new : string) (skip : nat) (s : string) : string :=
  match s with
  | EmptyString => EmptyString
  | String c s' =>
      match skip with
      | S k => Replace_from old new k s'
      | O =>
          match strip_prefix old s with
          | Some _ => new +:+ Replace_from old new (String.length old - 1) s'
          | None => String c (Replace_from old new 0 s')
          end
      end
  end.

Definition ReplaceAll (s old new : string) : string :=
  Replace_from old new 0 s.

(** [strings.Join]. *)
Fixpoint Join (l : list string) (sep : string) : string :=
  match l with
  | [] => EmptyString
  | [a] => a
  | a :: l' => a +:+ sep +:+ Join l' sep
  end.

(** *** Decimal rendering: the verb [%d] on an unsigned integer *)

Definition is_digit (c : ascii) : bool :=
  (48 <=? byte_of c)%Z && (byte_of c <=? 57)%Z.

Definition digit_char (d : Z) : ascii := ascii_of_N (Z.to_N (48 + d)).

(** The digits are produced from the least significant one, as in
    [strconv.formatBits]; twenty rounds cover every uint64. *)
Fixpoint formatBits (fuel : nat) (u : Z) (acc : string) : string :=
  match fuel with
  | O => acc
  | S f =>
      if (u <? 10)%Z then String (digit_char u) acc
      else formatBits f (u / 10) (String (digit_char (u mod 10)) acc)
  end.

Definition FormatUint (u : Z) : string := formatBits 20 u EmptyString.

(** *** [strconv.ParseUint(s, 10, bitSize)] *)

(** The loop over the bytes of [s]: [n] is the value read so far. A byte
    that is not a decimal digit is a syntax error (with an explicit base
    10 neither a sign nor an underscore is accepted); a value beyond
    [maxVal] is a range error, returned together with [maxVal]. *)
Fixpoint parseUint_loop (maxVal : Z) (s : string) (n : Z) : Z * option error :=
  match s with
  | EmptyString => (n, None)
  | String c s' =>
      if is_digit c then
        let d := (byte_of c - 48)%Z in
        if (maxUint64 / 10 + 1 <=? n)%Z then (maxVal, Some errRange)
        else
          let n10 := (n * 10)%Z in
          let n1 := wrap_uint64 (n10 + d) in
          if (n1 <? n10)%Z || (maxVal <? n1)%Z then (maxVal, Some errRange)
          else parseUint_loop maxVal s' n1
      else (0%Z, Some errSyntax)
  end.

Definition ParseUint (s : string) (bitSize : Z) : Z * option error :=
  match s with
  | EmptyString => (0%Z, Some errSyntax)
  | _ => parseUint_loop (2 ^ bitSize - 1) s 0
  end.

(* ===================================================================== *)
(** ** Version Model *)
(* ===================================================================== *)

Record Version : Type := mkVersion { Major : Z; Minor : Z; Patch : Z }.

Definition Version_zero : Version := mkVersion 0 0 0.

(** Every component is a uint32. *)
Definition Version_wf (v : Version) : Prop :=
  is_uint32 (Major v) /\ is_uint32 (Minor v) /\ is_uint32 (Patch v).

(** [fmt.Sprintf("%d.%d.%d", v.Major, v.Minor, v.Patch)]. *)
Definition Version_String (v : Version) : string :=
  FormatUint (Major v) +:+ "." +:+ FormatUint (Minor v) +:+ "." +:+
  FormatUint (Patch v).

(** The loop of [ParseVersion] over the three components, each stored in
    its field after a successful [ParseUint]. *)
Definition ParseVersion (s : string) : Version * option error :=
  let versionSplit := SplitN s "." 3 in
  match versionSplit with
  | [a; b; c] =>
      match ParseUint a 32 with
      | (_, Some err) => (Version_zero, Some err)
      | (n1, None) =>
          match ParseUint b 32 with
          | (_, Some err) => (Version_zero, Some err)
          | (n2, None) =>
              match ParseUint c 32 with
              | (_, Some err) => (Version_zero, Some err)
              | (n3, None) =>
                  (mkVersion (wrap_uint32 n1) (wrap_uint32 n2) (wrap_uint32 n3),
                   None)
              end
          end
      end
  | _ => (Version_zero, Some errVersionFormat)
  end.

(** [v.LessThan(other)]. *)
Definition LessThan (v other : Version) : bool :=
  if (Major v <? Major other)%Z then true
  else if (Major other <? Major v)%Z then false
  else if (Minor v <? Minor other)%Z then true
  else if (Minor other <? Minor v)%Z then false
  else if (Patch v <? Patch other)%Z then true
  else if (Patch other <? Patch v)%Z then false
  else false.

(* ===================================================================== *)
(** ** Regular expressions *)
(* ===================================================================== *)

(** The fragment of the [regexp] package (RE2 syntax, leftmost-first
    submatch semantics) that the two patterns of the source use: literals,
    character classes, greedy repetition of a class, grouping with capture,
    alternation and the beginning-of-text assertion. Matching is on bytes;
    every class of the source is a class of ASCII bytes and [.] excludes
    only the newline, so the spans matched agree with the matching on
    runes. *)

Record cclass : Type := mkClass { cc_neg : bool; cc_ranges : list (Z * Z) }.

Definition in_range (c : ascii) (r : Z * Z) : bool :=
  (fst r <=? byte_of c)%Z && (byte_of c <=? snd r)%Z.

Definition cc_mem (k : cclass) (c : ascii) : bool :=
  xorb (cc_neg k) (existsb (in_range c) (cc_ranges k)).

(** [\s], [\w], [\d] and [.] (without the [s] flag). *)
Definition class_space : cclass := mkClass false [(9, 10); (12, 13); (32, 32)]%Z.
Definition class_word : cclass :=
  mkClass false [(48, 57); (65, 90); (95, 95); (97, 122)]%Z.
Definition class_digit : cclass := mkClass false [(48, 57)]%Z.
Definition class_any : cclass := mkClass true [(10, 10)]%Z.
Definition class_char (c : ascii) : cclass :=
  mkClass false [(byte_of c, byte_of c)].

Inductive regex : Type :=
  | REmpty
  | RBeginText                                   (* ^ and \A *)
  | RChar (c : ascii)
  | RClass (k : cclass)
  | RRepeat (k : cclass) (lo : nat) (hi : option nat)   (* greedy *)
  | RCat (r1 r2 : regex)
  | RAlt (r1 r2 : regex)
  | RGroup (i : nat) (r : regex).

(** *** The parser ([regexp.Compile]) *)

(** One pass over the pattern with an explicit stack of open groups, as in
    [regexp/syntax]. A pattern outside the fragment, or one that
    [regexp.Compile] rejects, yields [None]. *)

Inductive lex_mode : Type :=
  | MNormal
  | MEscape
  | MClass (rs : list (Z * Z)) (pend : option ascii) (dash : bool)
  | MBraceMin (n : option nat)
  | MBraceMax (lo : nat) (n : option nat).

Record frame : Type :=
  mkFrame { f_group : nat; f_alts : list regex; f_seq : list regex }.

Record pstate : Type :=
  mkPstate { ps_mode : lex_mode;
             ps_stack : list frame;
             ps_alts : list regex;     (* finished alternatives, last first *)
             ps_seq : list regex;      (* pieces of the current one, last first *)
             ps_ngroup : nat }.

Fixpoint mk_cat_list (l : list regex) : regex :=
  match l with
  | [] => REmpty
  | [r] => r
  | r :: l' => RCat r (mk_cat_list l')
  end.

Fixpoint mk_alt_list (l : list regex) : regex :=
  match l with
  | [] => REmpty
  | [r] => r
  | r :: l' => RAlt r (mk_alt_list l')
  end.

Definition close_alts (alts seq : list regex) : regex :=
  mk_alt_list (rev (mk_cat_list (rev seq) :: alts)).

Definition push_piece (r : regex) (st : pstate) : pstate :=
  mkPstate MNormal (ps_stack st) (ps_alts st) (r :: ps_seq st) (ps_ngroup st).

Definition apply_repeat (lo : nat) (hi : option nat) (st : pstate)
  : option pstate :=
  match ps_seq st with
  | RChar c :: rest =>
      Some (mkPstate MNormal (ps_stack st) (ps_alts st)
              (RRepeat (class_char c) lo hi :: rest) (ps_ngroup st))
  | RClass k :: rest =>
      Some (mkPstate MNormal (ps_stack st) (ps_alts st)
              (RRepeat k lo hi :: rest) (ps_ngroup st))
  | _ => None
  end.

Definition set_mode (m : lex_mode) (st : pstate) : pstate :=
  mkPstate m (ps_stack st) (ps_alts st) (ps_seq st) (ps_ngroup st).

Definition digit_val (c : ascii) : nat := Z.to_nat (byte_of c - 48).

Definition push_digit (n : option nat) (c : ascii) : option nat :=
  Some (10 * default 0%nat n + digit_val c)%nat.

(** The bytes with a meaning of their own outside a class. *)
Definition is_meta (c : ascii) : bool :=
  existsb (Ascii.eqb c) (list_ascii_of_string "\.+*?()|[{^$").

Definition step_escape (c : ascii) (st : pstate) : option pstate :=
  if Ascii.eqb c "A" then Some (push_piece RBeginText st)
  else if Ascii.eqb c "s" then Some (push_piece (RClass class_space) st)
  else if Ascii.eqb c "w" then Some (push_piece (RClass class_word) st)
  else if Ascii.eqb c "d" then Some (push_piece (RClass class_digit) st)
  else if is_meta c || Ascii.eqb c "]" || Ascii.eqb c "}" || Ascii.eqb c "-"
  then Some (push_piece (RChar c) st)
  else None.

Definition commit_pend (rs : list (Z * Z)) (pend : option ascii)
  : list (Z * Z) :=
  match pend with
  | Some p => (rs ++ [(byte_of p, byte_of p)])%list
  | None => rs
  end.

Definition step_class (rs : list (Z * Z)) (pend : option ascii) (dash : bool)
    (c : ascii) (st : pstate) : option pstate :=
  if Ascii.eqb c "]" then
    let rs1 := commit_pend rs pend in
    let rs2 := if dash then (rs1 ++ [(45, 45)%Z])%list else rs1 in
    match rs2 with
    | [] => None
    | _ => Some (push_piece (RClass (mkClass false rs2)) st)
    end
  else if Ascii.eqb c "\" || Ascii.eqb c "[" || Ascii.eqb c "^" then None
  else
    match pend, dash with
    | Some p, true =>
        if (byte_of p <=? byte_of c)%Z
        then Some (set_mode
                     (MClass (rs ++ [(byte_of p, byte_of c)])%list None false) st)
        else None
    | Some p, false =>
        if Ascii.eqb c "-" then Some (set_mode (MClass rs pend true) st)
        else Some (set_mode (MClass (commit_pend rs pend) (Some c) false) st)
    | None, _ => Some (set_mode (MClass rs (Some c) false) st)
    end.

Definition step_normal (c : ascii) (st : pstate) : option pstate :=
  if Ascii.eqb c "\" then Some (set_mode MEscape st)
  else if Ascii.eqb c "[" then Some (set_mode (MClass [] None false) st)
  else if Ascii.eqb c "." then Some (push_piece (RClass class_any) st)
  else if Ascii.eqb c "^" then Some (push_piece RBeginText st)
  else if Ascii.eqb c "*" then apply_repeat 0 None st
  else if Ascii.eqb c "+" then apply_repeat 1 None st
  else if Ascii.eqb c "{" then
    match ps_seq st with
    | [] => None
    | _ => Some (set_mode (MBraceMin None) st)
    end
  else if Ascii.eqb c "(" then
    Some (mkPstate MNormal
            (mkFrame (S (ps_ngroup st)) (ps_alts st) (ps_seq st) :: ps_stack st)
            [] [] (S (ps_ngroup st)))
  else if Ascii.eqb c ")" then
    match ps_stack st with
    | [] => None
    | f :: stack =>
        Some (mkPstate MNormal stack (f_alts f)
                (RGroup (f_group f) (close_alts (ps_alts st) (ps_seq st))
                 :: f_seq f)
                (ps_ngroup st))
    end
  else if Ascii.eqb c "|" then
    Some (mkPstate MNormal (ps_stack st)
            (mk_cat_list (rev (ps_seq st)) :: ps_alts st) [] (ps_ngroup st))
  else if is_meta c then None
  else Some (push_piece (RChar c) st).

Definition step (st : pstate) (c : ascii) : option pstate :=
  match ps_mode st with
  | MNormal => step_normal c st
  | MEscape => step_escape c st
  | MClass rs pend dash => step_class rs pend dash c st
  | MBraceMin n =>
      if is_digit c then Some (set_mode (MBraceMin (push_digit n c)) st)
      else
        match n with
        | None => None
        | Some lo =>
            if Ascii.eqb c "," then Some (set_mode (MBraceMax lo None) st)
            else if Ascii.eqb c "}" then
              if (lo <=? 1000)%nat then apply_repeat lo (Some lo) st else None
            else None
        end
  | MBraceMax lo n =>
      if is_digit c then Some (set_mode (MBraceMax lo (push_digit n c)) st)
      else if Ascii.eqb c "}" then
        match n with
        | None => if (lo <=? 1000)%nat then apply_repeat lo None st else None
        | Some hi =>
            if (lo <=? hi)%nat && (hi <=? 1000)%nat
            then apply_repeat lo (Some hi) st else None
        end
      else None
  end.

Fixpoint parse_loop (st : pstate) (pat : string) : option pstate :=
  match pat with
  | EmptyString => Some st
  | String c pat' =>
      match step st c with
      | Some st' => parse_loop st' pat'
      | None => None
      end
  end.

(** A compiled expression: its syntax tree and the number of its capture
    groups. *)
Record Regexp : Type := mkRegexp { re_ast : regex; re_ngroups : nat }.

Definition Compile (pat : string) : option Regexp :=
  match parse_loop (mkPstate MNormal [] [] [] 0) pat with
  | Some (mkPstate MNormal [] alts seq n) =>
      Some (mkRegexp (close_alts alts seq) n)
  | _ => None
  end.

(** *** The matcher *)

(** The text of each group that took part in the match so far, the last
    assignment first. *)
Definition captures : Type := list (nat * string).

Fixpoint get_capture (i : nat) (cs : captures) : string :=
  match cs with
  | [] => EmptyString
  | (j, s) :: cs' => if (i =? j)%nat then s else get_capture i cs'
  end.

Definition cont : Type := nat -> string -> captures -> option captures.

(** Greedy repetition of a class: one more byte first, the continuation
    once the lower bound is reached. *)
Fixpoint match_repeat (k : cclass) (lo : nat) (hi : option nat)
    (pos : nat) (s : string) (cs : captures) (kont : cont) {struct s}
  : option captures :=
  let stop := match lo with O => kont pos s cs | S _ => None end in
  match s with
  | String c s' =>
      if cc_mem k c && negb (bool_decide (hi = Some O)) then
        match match_repeat k (Nat.pred lo) (Nat.pred <$> hi) (S pos) s' cs kont
        with
        | Some r => Some r
        | None => stop
        end
      else stop
  | EmptyString => stop
  end.

(** Backtracking in the order of the leftmost-first semantics: the first
    alternative before the second, the longer repetition before the
    shorter. [pos] is the offset of [s] in the text. *)
Fixpoint rmatch (r : regex) (pos : nat) (s : string) (cs : captures)
    (kont : cont) {struct r} : option captures :=
  match r with
  | REmpty => kont pos s cs
  | RBeginText => if (pos =? 0)%nat then kont pos s cs else None
  | RChar c =>
      match s with
      | String c' s' => if Ascii.eqb c c' then kont (S pos) s' cs else None
      | EmptyString => None
      end
  | RClass k =>
      match s with
      | String c' s' => if cc_mem k c' then kont (S pos) s' cs else None
      | EmptyString => None
      end
  | RRepeat k lo hi => match_repeat k lo hi pos s cs kont
  | RCat r1 r2 =>
      rmatch r1 pos s cs (fun pos' s' cs' => rmatch r2 pos' s' cs' kont)
  | RAlt r1 r2 =>
      match rmatch r1 pos s cs kont with
      | Some res => Some res
      | None => rmatch r2 pos s cs kont
      end
  | RGroup i r1 =>
      rmatch r1 pos s cs
        (fun pos' s' cs' => kont pos' s' ((i, substring 0 (pos' - pos) s) :: cs'))
  end.

(** The match that starts at offset [pos], group 0 being the whole match. *)
Definition match_here (r : regex) (pos : nat) (s : string) : option captures :=
  rmatch r pos s []
    (fun pos' _ cs => Some ((O, substring 0 (pos' - pos) s) :: cs)).

(** The leftmost match: every start offset in turn. *)
Fixpoint search (r : regex) (pos : nat) (s : string) : option captures :=
  match match_here r pos s with
  | Some cs => Some cs
  | None =>
      match s with
      | EmptyString => None
      | String _ s' => search r (S pos) s'
      end
  end.

(** The repetition bound [hi] allows [n] bytes. *)
Definition fits (hi : option nat) (n : nat) : Prop :=
  match hi with Some h => (n <= h)%nat | None => True end.

(** [re.MatchString(s)]. *)
Definition MatchString (re : Regexp) (s : string) : bool :=
  match search (re_ast re) 0 s with Some _ => true | None => false end.

(** [re.FindStringSubmatch(s)]: the whole match and the text of every
    group (empty for a group that took no part), or nil. *)
Definition FindStringSubmatch (re : Regexp) (s : string) : list string :=
  match search (re_ast re) 0 s with
  | Some cs => map (fun i => get_capture i cs) (seq 0 (S (re_ngroups re)))
  | None => []
  end.

(* ===================================================================== *)
(** ** Descriptor (Meta) and the version line *)
(* ===================================================================== *)

(** [type Type string] with its three constants. *)
Definition TypeChecker : string := "checker".
Definition TypeMetrics : string := "metrics".
Definition TypeMetadata : string := "metadata".

Definition PLUGIN_PREFIX : string := "idpc-plugin".

Record Meta : Type :=
  mkMeta { Key : string;
           Type_ : string;
           Version_ : Version;
           Revision : string;
           GOOS : string;
           GOARCH : string;
           GOVersion : string }.

(** [Meta{}]. *)
Definition Meta_zero : Meta :=
  mkMeta EmptyString EmptyString Version_zero EmptyString EmptyString
         EmptyString EmptyString.

(** [fmt.Sprintf("%s-%s-%s version %s (rev %s) [%s %s %s]", ...)]. *)
Definition Meta_String (b : Meta) : string :=
  PLUGIN_PREFIX +:+ "-" +:+ Key b +:+ "-" +:+ Type_ b +:+ " version " +:+
  Version_String (Version_ b) +:+ " (rev " +:+ Revision b +:+ ") [" +:+
  GOOS b +:+ " " +:+ GOARCH b +:+ " " +:+ GOVersion b +:+ "]".

Definition Meta_Name (b : Meta) : string :=
  PLUGIN_PREFIX +:+ "-" +:+ Key b +:+ "-" +:+ Type_ b.

Definition PluginVersionRegex_source : string :=
  "^\s*idpc-plugin-(\w+)-(checker|metrics|metadata)\s+version\s+(\d{1,3}\.\d{1,3}\.\d{1,3})\s+\(rev\s+(\w+)\)\s+\[(\w+)\s+(\w+)\s+(.+)]".

(** [regexp.MustCompile] of the pattern, evaluated once. *)
Definition PluginVersionRegex : Regexp :=
  Eval vm_compute in
    match Compile PluginVersionRegex_source with
    | Some re => re
    | None => mkRegexp REmpty 0
    end.

Definition ParseVersionCommand (s : string) : Meta :=
  match FindStringSubmatch PluginVersionRegex s with
  | [_; d1; d2; d3; d4; d5; d6; d7] =>
      match ParseVersion d3 with
      | (_, Some _) => Meta_zero
      | (version, None) => mkMeta d1 d2 version d4 d5 d6 d7
      end
  | _ => Meta_zero
  end.

(** The shape the pattern accepts, field by field. *)
Fixpoint all_in (k : cclass) (s : string) : bool :=
  match s with
  | EmptyString => true
  | String c s' => cc_mem k c && all_in k s'
  end.

Definition nonempty (s : string) : bool :=
  match s with EmptyString => false | _ => true end.

Definition word (s : string) : bool := nonempty s && all_in class_word s.

(** The first byte of [s], if any, is outside [k]. *)
Definition next_not_in (k : cclass) (s : string) : bool :=
  match s with
  | EmptyString => true
  | String c _ => negb (cc_mem k c)
  end.

Definition Meta_parsable (m : Meta) : Prop :=
  word (Key m) = true /\
  (Type_ m = TypeChecker \/ Type_ m = TypeMetrics \/ Type_ m = TypeMetadata) /\
  (0 <= Major (Version_ m) <= 999 /\ 0 <= Minor (Version_ m) <= 999 /\
   0 <= Patch (Version_ m) <= 999)%Z /\
  word (Revision m) = true /\
  word (GOOS m) = true /\
  word (GOARCH m) = true /\
  nonempty (GOVersion m) = true /\ all_in class_any (GOVersion m) = true /\
  next_not_in class_space (GOVersion m) = true.

(** The value of [diff] in the two unsigned variants, named for the
    statements about them. *)
Definition rateUint32 (value : Z) (now : Time) (lastValue : Z) (lastTime : Time)
  : float64 :=
  F64.div (F64.of_Z (wrap_uint32 (wrap_uint32 (value - lastValue) * 60)))
          (F64.of_Z (diffTime now lastTime)).

Definition rateUint64 (value : Z) (now : Time) (lastValue : Z) (lastTime : Time)
  : float64 :=
  F64.div (F64.of_Z (wrap_uint64 (wrap_uint64 (value - lastValue) * 60)))
          (F64.of_Z (diffTime now lastTime)).

(* ===================================================================== *)
(** ** Observed values *)
(* ===================================================================== *)

(** The dynamic types an [interface{}] of the value maps holds in this
    program: nil, the scalars a plugin reports and what the JSON decoder
    produces. *)
Inductive value : Type :=
  | VNil
  | VBool (b : bool)
  | VString (s : string)
  | VUint32 (n : Z)
  | VUint64 (n : Z)
  | VInt64 (n : Z)
  | VFloat64 (f : float64).

(** [type PluginValues struct]. A nil map reads as an empty one, and the
    maps this program writes to are never nil. *)
Record PluginValues : Type :=
  mkPluginValues { Values : gmap string value; Timestamp : Time }.

(** [type Metrics struct]. *)
Record Metrics : Type :=
  mkMetrics { Name : string;
              Label : string;
              Diff : bool;
              MetricType : string;
              Stacked : bool;
              Scale : float64;
              AbsoluteName : bool }.

Definition metricTypeUint32 : string := "uint32".
Definition metricTypeUint64 : string := "uint64".

(** What reaches standard output and the log. A metric line is kept as
    its three fields ([key \t value \t unix \n]), a JSON document as the
    object it encodes. The objects are flat: arrays and nested objects,
    which the program never inspects, are left out, and strings are taken
    to be valid UTF-8, so that they survive the encoding unchanged. *)
Inductive json : Type :=
  | JNull
  | JBool (b : bool)
  | JString (s : string)
  | JInt (n : Z)
  | JFloat (f : float64).

Inductive out_event : Type :=
  | OutLine (key : string) (v : value) (unix : Z)
  | OutJSON (doc : gmap string json).

Inductive log_event : Type :=
  | LogInvalidValue (key : string) (v : float64)
  | LogParsing (e : error)
  | LogOutputValues (e : error)
  | LogNotExist (name : string)
  | LogFatal (e : error).

Record console : Type :=
  mkConsole { stdout : list out_event; logs : list log_event }.

Definition print (e : out_event) (c : console) : console :=
  mkConsole (stdout c ++ [e])%list (logs c).

Definition log (e : log_event) (c : console) : console :=
  mkConsole (stdout c) (logs c ++ [e])%list.

(** [printValue]: a line for an unsigned or a finite floating value, a log
    entry for NaN and the infinities, nothing for any other type. *)
Definition printValue (key : string) (v : value) (now : Time) (c : console)
  : console :=
  match v with
  | VUint32 _ => print (OutLine key v (Unix now)) c
  | VUint64 _ => print (OutLine key v (Unix now)) c
  | VFloat64 f =>
      if F64.IsNaN f || F64.IsInf f then log (LogInvalidValue key f) c
      else print (OutLine key v (Unix now)) c
  | _ => c
  end.

(** *** JSON, as far as the state file and the metadata output need it *)

(** [json.Marshal] of one value; NaN and the infinities are unsupported. *)
Definition encode_value (v : value) : option json :=
  match v with
  | VNil => Some JNull
  | VBool b => Some (JBool b)
  | VString s => Some (JString s)
  | VUint32 n => Some (JInt n)
  | VUint64 n => Some (JInt n)
  | VInt64 n => Some (JInt n)
  | VFloat64 f => if F64.IsNaN f || F64.IsInf f then None else Some (JFloat f)
  end.

(** Decoding into an [interface{}]: every number becomes a float64. *)
Definition decode_value (j : json) : value :=
  match j with
  | JNull => VNil
  | JBool b => VBool b
  | JString s => VString s
  | JInt n => VFloat64 (F64.of_Z n)
  | JFloat f => VFloat64 f
  end.

Definition encode_map (m : gmap string value) : option (gmap string json) :=
  if bool_decide (map_Forall (fun _ v => is_Some (encode_value v)) m)
  then Some (omap encode_value m)
  else None.

Definition decode_map (doc : gmap string json) : gmap string value :=
  decode_value <$> doc.

(** [reflect.DeepEqual] on two value maps: the same number of entries and
    every entry of the first present in the second with an equal value;
    values of different dynamic types differ and floats compare with
    [==]. *)
Definition value_equal (a b : value) : bool :=
  match a, b with
  | VNil, VNil => true
  | VBool x, VBool y => Bool.eqb x y
  | VString x, VString y => String.eqb x y
  | VUint32 x, VUint32 y => (x =? y)%Z
  | VUint64 x, VUint64 y => (x =? y)%Z
  | VInt64 x, VInt64 y => (x =? y)%Z
  | VFloat64 x, VFloat64 y => F64.eqb x y
  | _, _ => false
  end.

Definition DeepEqual (m1 m2 : gmap string value) : bool :=
  (size m1 =? size m2)%nat &&
  forallb (fun kv => match m2 !! fst kv with
                     | Some v' => value_equal (snd kv) v'
                     | None => false
                     end) (map_to_list m1).

(* ===================================================================== *)
(** ** State Store, Output Formatter and the metadata cycle *)
(* ===================================================================== *)

(** The state file as the decoder sees it. *)
Inductive file_state : Type :=
  | FileAbsent                                 (* os.IsNotExist *)
  | FileError                                  (* the path cannot be opened *)
  | FileData (doc : option (gmap string json)). (* None: not a JSON object *)

Record world : Type :=
  mkWorld { w_file : file_state; w_console : console; w_writes : nat }.

Inductive exit_status : Type := ExitOK | ExitFatal.

Section Runtime.

(** [strconv.ParseFloat(s, 64)], a library function taken as given. *)
Variable ParseFloat : string -> float64 * option error.

(** The result of converting to an integer type a float that the type
    cannot represent, which the language leaves to the implementation. *)
Variable conv_overflow : float64 -> Z.

(** The plugin's [Meta()]. *)
Variable meta : Meta.

Definition float_to_int64 (f : float64) : Z :=
  match F64.trunc f with
  | Some z => if (- 2 ^ 63 <=? z)%Z && (z <? 2 ^ 63)%Z then z
              else wrap_int64 (conv_overflow f)
  | None => wrap_int64 (conv_overflow f)
  end.

Definition float_to_uint32 (f : float64) : Z :=
  match F64.trunc f with
  | Some z => if (0 <=? z)%Z && (z <? 2 ^ 32)%Z then z
              else wrap_uint32 (conv_overflow f)
  | None => wrap_uint32 (conv_overflow f)
  end.

Definition float_to_uint64 (f : float64) : Z :=
  match F64.trunc f with
  | Some z => if (0 <=? z)%Z && (z <? 2 ^ 64)%Z then z
              else wrap_uint64 (conv_overflow f)
  | None => wrap_uint64 (conv_overflow f)
  end.

Definition toUint32 (v : value) : Z :=
  match v with
  | VUint32 n => n
  | VUint64 n => wrap_uint32 n
  | VFloat64 f => float_to_uint32 f
  | VString s =>
      match ParseUint s 32 with
      | (_, Some _) => 0%Z
      | (n, None) => wrap_uint32 n
      end
  | _ => 0%Z
  end.

Definition toUint64 (v : value) : Z :=
  match v with
  | VUint32 n => n
  | VUint64 n => n
  | VFloat64 f => float_to_uint64 f
  | VString s =>
      match ParseUint s 64 with
      | (_, Some _) => 0%Z
      | (n, None) => n
      end
  | _ => 0%Z
  end.

Definition toFloat64 (v : value) : float64 :=
  match v with
  | VUint32 n => F64.of_Z n
  | VUint64 n => F64.of_Z n
  | VFloat64 f => f
  | VString s =>
      match ParseFloat s with
      | (_, Some _) => F64.zero
      | (f, None) => f
      end
  | _ => F64.zero
  end.

(** *** State Store *)

Definition LoadLastValues (w : world) : PluginValues * option error :=
  match w_file w with
  | FileAbsent => (mkPluginValues ∅ zeroTime, None)
  | FileError => (mkPluginValues ∅ zeroTime, Some errOpen)
  | FileData None => (mkPluginValues ∅ zeroTime, Some errDecode)
  | FileData (Some doc) =>
      let vals := decode_map doc in
      let ts := match vals !! "_lastTime" with
                | Some (VFloat64 v) => time_Unix (float_to_int64 v)
                | Some (VInt64 v) => time_Unix v
                | _ => zeroTime
                end in
      (mkPluginValues vals ts, None)
  end.

Definition loadLastValuesSafe (now : Time) (w : world)
  : PluginValues * option error :=
  match LoadLastValues w with
  | (m, Some err) => (m, Some err)
  | (m, None) =>
      if (Sub now (Timestamp m) <? Second)%Z then (m, Some errStateUpdated)
      else (m, None)
  end.

(** [SaveValues]: the map gains ["_lastTime"] and replaces the content of
    the file; [os.Create] has already emptied the file when the encoding
    fails. The map is the caller's, so the new entry is visible to it. *)
Definition SaveValues (values : PluginValues) (w : world)
  : gmap string value * world * option error :=
  match w_file w with
  | FileError => (Values values, w, Some errOpen)
  | _ =>
      let vals := <["_lastTime" := VInt64 (Unix (Timestamp values))]>
                    (Values values) in
      match encode_map vals with
      | Some doc =>
          (vals, mkWorld (FileData (Some doc)) (w_console w) (S (w_writes w)),
           None)
      | None =>
          (vals, mkWorld (FileData None) (w_console w) (S (w_writes w)),
           Some errEncode)
      end
  end.

(** *** Output Formatter *)

(** The rate block of [formatValues]: [inl] when the function returns from
    inside it, [inr] with the new value and the updated current map
    otherwise. *)
Definition formatValues_diff (name : string) (metric : Metrics) (v : value)
    (vals : gmap string value) (ts : Time) (lastMetricValues : PluginValues)
    (c : console) : console + (value * gmap string value) :=
  match Values lastMetricValues !! name with
  | Some last =>
      let lastDiff :=
        match Values lastMetricValues !! (".last_diff." +:+ name) with
        | None | Some VNil => F64.zero
        | Some x => toFloat64 x
        end in
      let '(d, err) :=
        if String.eqb (MetricType metric) metricTypeUint32 then
          calcDiffUint32 (toUint32 v) ts (toUint32 last)
                         (Timestamp lastMetricValues) lastDiff
        else if String.eqb (MetricType metric) metricTypeUint64 then
          calcDiffUint64 (toUint64 v) ts (toUint64 last)
                         (Timestamp lastMetricValues) lastDiff
        else
          calcDiff (toFloat64 v) ts (toFloat64 last)
                   (Timestamp lastMetricValues) in
      match err with
      | Some e => inl (log (LogOutputValues e) c)
      | None => inr (VFloat64 d, <[".last_diff." +:+ name := VFloat64 d]> vals)
      end
  | None => inl (log (LogNotExist name) c)
  end.

Definition formatValues_scale (metric : Metrics) (v : value) : value :=
  if negb (F64.eqb (Scale metric) F64.zero) then
    if String.eqb (MetricType metric) metricTypeUint32 then
      VUint32 (wrap_uint32 (toUint32 v * float_to_uint32 (Scale metric)))
    else if String.eqb (MetricType metric) metricTypeUint64 then
      VUint64 (wrap_uint64 (toUint64 v * float_to_uint64 (Scale metric)))
    else VFloat64 (F64.mul (toFloat64 v) (Scale metric))
  else v.

(** [formatValues]: the current map after the call (the function writes
    the [.last_diff.] entry into it) and the console. *)
Definition formatValues (prefix : string) (metric : Metrics)
    (metricValues lastMetricValues : PluginValues) (c : console)
  : gmap string value * console :=
  let vals := Values metricValues in
  let name :=
    if AbsoluteName metric && (0 <? String.length prefix)%nat
    then prefix +:+ "." +:+ Name metric
    else Name metric in
  match vals !! name with
  | None | Some VNil => (vals, c)
  | Some v0 =>
      let '(v1, err) :=
        match v0 with
        | VString s =>
            if String.eqb (MetricType metric) metricTypeUint32 then
              let '(n, e) := ParseUint s 32 in (VUint64 n, e)
            else if String.eqb (MetricType metric) metricTypeUint64 then
              let '(n, e) := ParseUint s 64 in (VUint64 n, e)
            else
              let '(f, e) := ParseFloat s in (VFloat64 f, e)
        | _ => (v0, None)
        end in
      let c1 := match err with
                | Some e => log (LogParsing e) c
                | None => c
                end in
      let after_diff :=
        if Diff metric then
          formatValues_diff name metric v1 vals (Timestamp metricValues)
                            lastMetricValues c1
        else inr (v1, vals) in
      match after_diff with
      | inl c2 => (vals, c2)
      | inr (v2, vals2) =>
          let v3 := formatValues_scale metric v2 in
          let metricNames :=
            ([Key meta] ++
             (if (0 <? String.length prefix)%nat then [prefix] else []) ++
             [Name metric])%list in
          (vals2, printValue (Join metricNames ".") v3
                             (Timestamp metricValues) c1)
      end
  end.

Definition with_name (metric : Metrics) (k : string) : Metrics :=
  mkMetrics k (Label metric) (Diff metric) (MetricType metric)
            (Stacked metric) (Scale metric) (AbsoluteName metric).

(** The pattern string built by [formatValuesWithWildcard]. *)
Definition wildcard_regexpStr (prefix : string) (metric : Metrics) : string :=
  let regexpStr := "\A" +:+ prefix +:+ "." +:+ Name metric in
  let regexpStr := ReplaceAll regexpStr "." "\." in
  let regexpStr := ReplaceAll regexpStr "*" "[-a-zA-Z0-9_]+" in
  ReplaceAll regexpStr "#" "[-a-zA-Z0-9_]+".

(** The loop over the observed keys. The keys are those present when the
    loop starts, in the order of [map_to_list] (Go leaves the order
    open, and an entry created during the loop may be skipped). *)
Definition wildcard_loop (re : Regexp) (metric : Metrics)
    (metricValues lastMetricValues : PluginValues) (c : console)
  : gmap string value * console :=
  foldl (fun st k =>
           if MatchString re k then
             formatValues "" (with_name metric k)
               (mkPluginValues (fst st) (Timestamp metricValues))
               lastMetricValues (snd st)
           else st)
        (Values metricValues, c)
        (fst <$> map_to_list (Values metricValues)).

(** [formatValuesWithWildcard]. [None] stands for the exit through
    [log.Fatal] when the pattern does not compile, and for the patterns
    that [Compile] does not model. *)
Definition formatValuesWithWildcard (prefix : string) (metric : Metrics)
    (metricValues lastMetricValues : PluginValues) (c : console)
  : option (gmap string value * console) :=
  match Compile (wildcard_regexpStr prefix metric) with
  | None => None
  | Some re => Some (wildcard_loop re metric metricValues lastMetricValues c)
  end.

(** The concrete metrics the loop hands to [formatValues]. *)
Definition expandWildcard (prefix : string) (metric : Metrics)
    (vals : gmap string value) : option (list Metrics) :=
  match Compile (wildcard_regexpStr prefix metric) with
  | None => None
  | Some re =>
      Some (with_name metric <$>
              filter (fun k => MatchString re k = true)
                     (fst <$> map_to_list vals))
  end.

(** *** The metadata cycle *)

Definition with_console (c : console) (w : world) : world :=
  mkWorld (w_file w) c (w_writes w).

(** [OutputMetadataValues]. [capability] is [None] when the plugin is not
    a MetadataPlugin, otherwise the result of [mp.Metadata()]. *)
Definition OutputMetadataValues
    (capability : option (gmap string value * option error))
    (now : Time) (w : world) : world * exit_status :=
  match capability with
  | None => (w, ExitOK)
  | Some (metadata, merr) =>
      let '(preMetadata, err) := loadLastValuesSafe now w in
      if bool_decide (err = Some errStateUpdated) then (w, ExitOK)
      else
        match merr with
        | Some e => (with_console (log (LogFatal e) (w_console w)) w, ExitFatal)
        | None =>
            match encode_map metadata with
            | None =>
                (with_console (log (LogFatal errEncode) (w_console w)) w,
                 ExitFatal)
            | Some doc =>
                let w1 := with_console (print (OutJSON doc) (w_console w)) w in
                let metadata1 :=
                  <["_lastTime" :=
                      default VNil (Values preMetadata !! "_lastTime")]>
                    metadata in
                if DeepEqual (Values preMetadata) metadata1 then (w1, ExitOK)
                else (snd (fst (SaveValues (mkPluginValues metadata1 now) w1)),
                      ExitOK)
            end
        end
  end.

End Runtime.

(* ===================================================================== *)
(** ** float64: non-zero results *)
(* ===================================================================== *)

(** The exponent of the smallest subnormal. *)
Definition f64_emin : Z := emin F64.prec F64.emax.

(** A float that is not zero and has the sign [s]: finite with a magnitude
    above the subnormal threshold, or infinite. *)
Definition nonzero_signed (s : bool) (x : float64) : Prop :=
  match x with
  | S754_finite s' m e => s' = s /\ (f64_emin < Zpos (digits2_pos m) + e)%Z
  | S754_infinity s' => s' = s
  | _ => False
  end.

(* ===================================================================== *)
(** ** Wildcard patterns *)
(* ===================================================================== *)

(** The pattern language of graph keys and metric names: [*] and [#] stand
    for one or more bytes of [[-a-zA-Z0-9_]], every other byte for itself.
    The bytes that [regexp] would read as operators are outside it. *)
Definition is_wild (c : ascii) : bool := Ascii.eqb c "*" || Ascii.eqb c "#".

Definition wildcard_byte (c : ascii) : bool :=
  is_wild c || Ascii.eqb c "." || negb (is_meta c).

Fixpoint wildcard_pattern (s : string) : bool :=
  match s with
  | EmptyString => true
  | String c s' => wildcard_byte c && wildcard_pattern s'
  end.

(** The class that [[-a-zA-Z0-9_]] denotes. *)
Definition class_wild : cclass :=
  mkClass false [(45, 45); (97, 122); (65, 90); (48, 57); (95, 95)]%Z.

(** [wild_match pat w]: the text [w] is an instance of the pattern. *)
Inductive wild_match : string -> string -> Prop :=
  | wild_match_nil : wild_match EmptyString EmptyString
  | wild_match_byte (c : ascii) (pat w : string) :
      is_wild c = false -> wild_match pat w ->
      wild_match (String c pat) (String c w)
  | wild_match_wild (c : ascii) (pat u w : string) :
      is_wild c = true -> nonempty u = true -> all_in class_wild u = true ->
      wild_match pat w -> wild_match (String c pat) (u +:+ w).

(** The piece of the expression that one byte of the pattern becomes. *)
Definition wild_piece (c : ascii) : regex :=
  if is_wild c then RRepeat class_wild 1 None else RChar c.

Fixpoint wild_pieces (pat : string) : list regex :=
  match pat with
  | EmptyString => []
  | String c pat' => wild_piece c :: wild_pieces pat'
  end.

(** The text that the three replacements make of one byte. *)
Definition wild_source (c : ascii) : string :=
  if Ascii.eqb c "." then "\."
  else if is_wild c then "[-a-zA-Z0-9_]+"
  else String c EmptyString.

Fixpoint wild_sources (pat : string) : string :=
  match pat with
  | EmptyString => EmptyString
  | String c pat' => wild_source c +:+ wild_sources pat'
  end.

(** Replacement of one byte by a text. *)
Fixpoint subst_byte (a : ascii) (new s : string) : string :=
  match s with
  | EmptyString => EmptyString
  | String c s' =>
      if Ascii.eqb a c then new +:+ subst_byte a new s'
      else String c (subst_byte a new s')
  end.

(** An observed key begins with an instance of the pattern. *)
Definition begins_with_match (pat k : string) : Prop :=
  exists w rest : string, k = w +:+ rest /\ wild_match pat w.

(* ===================================================================== *)
(** ** Decimal texts *)
(* ===================================================================== *)

(** The number that a text of decimal digits denotes, read from the left;
    [n] is the value of the digits already read. *)
Fixpoint decimal_from (n : Z) (s : string) : Z :=
  match s with
  | EmptyString => n
  | String c s' => decimal_from (n * 10 + (byte_of c - 48))%Z s'
  end.

Definition decimal_value (s : string) : Z := decimal_from 0 s.

(** A non-empty text of decimal digits. *)
Definition is_decimal (s : string) : bool :=
  nonempty s && all_in class_digit s.

(** The number of occurrences of a byte. *)
Fixpoint count_byte (a : ascii) (s : string) : nat :=
  match s with
  | EmptyString => O
  | String c s' => ((if Ascii.eqb a c then 1 else 0) + count_byte a s')%nat
  end.

(* ===================================================================== *)
(** ** What a match means *)
(* ===================================================================== *)

(** [matches r pos cs w cs']: at offset [pos] the expression [r] can
    consume the text [w], taking the captures from [cs] to [cs']. This is
    the declarative reading of the syntax tree; the matcher above picks
    one such [w] in the order of the leftmost-first rule. *)
Inductive matches : regex -> nat -> captures -> string -> captures -> Prop :=
  | matches_empty (pos : nat) (cs : captures) :
      matches REmpty pos cs EmptyString cs
  | matches_begin (cs : captures) :
      matches RBeginText O cs EmptyString cs
  | matches_char (c : ascii) (pos : nat) (cs : captures) :
      matches (RChar c) pos cs (String c EmptyString) cs
  | matches_class (k : cclass) (c : ascii) (pos : nat) (cs : captures) :
      cc_mem k c = true ->
      matches (RClass k) pos cs (String c EmptyString) cs
  | matches_repeat (k : cclass) (lo : nat) (hi : option nat) (pos : nat)
      (cs : captures) (w : string) :
      all_in k w = true -> (lo <= String.length w)%nat ->
      fits hi (String.length w) ->
      matches (RRepeat k lo hi) pos cs w cs
  | matches_cat (r1 r2 : regex) (pos : nat) (cs cs1 cs2 : captures)
      (w1 w2 : string) :
      matches r1 pos cs w1 cs1 ->
      matches r2 (pos + String.length w1)%nat cs1 w2 cs2 ->
      matches (RCat r1 r2) pos cs (w1 +:+ w2) cs2
  | matches_alt_l (r1 r2 : regex) (pos : nat) (cs cs' : captures) (w : string) :
      matches r1 pos cs w cs' -> matches (RAlt r1 r2) pos cs w cs'
  | matches_alt_r (r1 r2 : regex) (pos : nat) (cs cs' : captures) (w : string) :
      matches r2 pos cs w cs' -> matches (RAlt r1 r2) pos cs w cs'
  | matches_group (i : nat) (r : regex) (pos : nat) (cs cs' : captures)
      (w : string) :
      matches r pos cs w cs' -> matches (RGroup i r) pos cs w ((i, w) :: cs').

(** The fields of a Meta that the version pattern can deliver: as
    [Meta_parsable], except that the runtime version may begin with white
    space. *)
Definition Meta_matched (m : Meta) : Prop :=
  word (Key m) = true /\
  (Type_ m = TypeChecker \/ Type_ m = TypeMetrics \/ Type_ m = TypeMetadata) /\
  (0 <= Major (Version_ m) <= 999 /\ 0 <= Minor (Version_ m) <= 999 /\
   0 <= Patch (Version_ m) <= 999)%Z /\
  word (Revision m) = true /\
  word (GOOS m) = true /\
  word (GOARCH m) = true /\
  nonempty (GOVersion m) = true /\ all_in class_any (GOVersion m) = true.

(* ===================================================================== *)
(** ** Runtime Harness *)
(* ===================================================================== *)

(** The values [printValue] writes a line for. *)
Definition printable (v : value) : bool :=
  match v with
  | VUint32 _ | VUint64 _ => true
  | VFloat64 f => negb (F64.IsNaN f || F64.IsInf f)
  | _ => false
  end.

(** A line of the metrics output of the plugin [meta] at the instant
    [ts]: a key below the plugin's key, a value that [printValue] writes,
    and the seconds of [ts]. *)
Definition metric_line (meta : Meta) (ts : Time) (e : out_event) : Prop :=
  match e with
  | OutLine key v unix =>
      (exists rest : string, key = Key meta +:+ "." +:+ rest) /\
      printable v = true /\ unix = Unix ts
  | OutJSON _ => False
  end.

(** The name under which [formatValues] looks a metric up, and the key
    under which it prints it. *)
Definition lookup_name (prefix : string) (metric : Metrics) : string :=
  if AbsoluteName metric && (0 <? String.length prefix)%nat
  then prefix +:+ "." +:+ Name metric
  else Name metric.

Definition print_key (meta : Meta) (prefix : string) (metric : Metrics)
  : string :=
  Join ([Key meta] ++
        (if (0 <? String.length prefix)%nat then [prefix] else []) ++
        [Name metric])%list ".".

(** The console [c'] continues [c]: what was written stays, and every
    event added to standard output satisfies [P]. *)
Definition stdout_grows_by (P : out_event -> Prop) (c c' : console) : Prop :=
  exists l : list out_event,
    stdout c' = (stdout c ++ l)%list /\ Forall P l.

Definition logs_grow (c c' : console) : Prop :=
  exists l : list log_event, logs c' = (logs c ++ l)%list.

(** The same for two states of a loop of the metrics cycle, whose
    consoles [console_of] gives. *)
Definition loop_grows {A : Type} (meta : Meta) (console_of : A -> console)
    (ts : Time) (st st' : A) : Prop :=
  stdout_grows_by (metric_line meta ts) (console_of st) (console_of st') /\
  logs_grow (console_of st) (console_of st').

Definition state_console (st : gmap string value * console * bool) : console :=
  snd (fst st).

(** A line printed for an observed key that begins with an instance of
    the wildcard pattern [pat]. *)
Definition wildcard_line (meta : Meta) (pat : string)
    (vals : gmap string value) (ts : Time) (e : out_event) : Prop :=
  match e with
  | OutLine key v unix =>
      exists k : string,
        key = Key meta +:+ "." +:+ k /\ is_Some (vals !! k) /\
        begins_with_match pat k /\ printable v = true /\ unix = Unix ts
  | OutJSON _ => False
  end.

(** The values of an integer type. The JSON decoder never produces one:
    it reads every number as a float64. *)
Definition integer_typed (v : value) : bool :=
  match v with
  | VUint32 _ | VUint64 _ | VInt64 _ => true
  | _ => false
  end.

(** The values that come back from the state file as they went in: nil,
    booleans, strings and finite float64. *)
Definition json_stable (v : value) : bool :=
  match v with
  | VNil | VBool _ | VString _ => true
  | VFloat64 f => negb (F64.IsNaN f || F64.IsInf f)
  | _ => false
  end.

(** [type Graphs struct]. *)
Record Graphs : Type :=
  mkGraphs { Graphs_Label : string;
             Graphs_Unit : string;
             Graphs_Metrics : list Metrics }.

(** [type MetricsPlugin interface]: the result of [Metrics()], whose map
    may be nil, and the entries of the map that [GraphDefinition()] returns
    in the order in which [range] visits them (an order the language leaves
    open; distinct entries have distinct keys). *)
Record MetricsPlugin : Type :=
  mkMetricsPlugin { mp_Metrics : option (gmap string value) * option error;
                    mp_GraphDefinition : list (string * Graphs) }.

(** A plugin as the harness sees it: its [Meta()] and, for each of the
    three interfaces, the results of its methods when the plugin implements
    it (the type assertions of the source). *)
Record Plugin : Type :=
  mkPlugin { plugin_Meta : Meta;
             as_MetricsPlugin : option MetricsPlugin;
             as_CheckerPlugin : option (string * string);
             as_MetadataPlugin : option (gmap string value * option error) }.

(** How a cycle ends: the function returns, the process exits through
    [log.Fatal], or a run-time panic stops it. *)
Inductive cycle_end : Type := Returned | Exited | Panicked.

(** [strings.ContainsAny(s, chars)]. *)
Definition ContainsAny (s chars : string) : bool :=
  existsb (fun c => existsb (Ascii.eqb c) (list_ascii_of_string chars))
          (list_ascii_of_string s).

(** [strings.ToUpper] on a text of ASCII bytes. *)
Definition upper_byte (c : ascii) : ascii :=
  if (97 <=? byte_of c)%Z && (byte_of c <=? 122)%Z
  then ascii_of_N (N_of_ascii c - 32) else c.

Fixpoint ToUpper (s : string) : string :=
  match s with
  | EmptyString => EmptyString
  | String c s' => String (upper_byte c) (ToUpper s')
  end.

Definition PLUGIN_META_ENV_VAR : string :=
  ReplaceAll (ToUpper PLUGIN_PREFIX) "-" "_" +:+ "_META".

(** [strings.NewReplacer(".", " ", "_", " ").Replace(s)]: every old text
    is a single byte, so the replacement is byte by byte. *)
Fixpoint title_Replace (s : string) : string :=
  match s with
  | EmptyString => EmptyString
  | String c s' =>
      String (if Ascii.eqb c "." || Ascii.eqb c "_" then " "%char else c)
             (title_Replace s')
  end.

Definition with_label (metric : Metrics) (l : string) : Metrics :=
  mkMetrics (Name metric) l (Diff metric) (MetricType metric)
            (Stacked metric) (Scale metric) (AbsoluteName metric).

Section Harness.

Variable ParseFloat : string -> float64 * option error.
Variable conv_overflow : float64 -> Z.

(** [strings.Title] and [json.Marshal] of a [GraphDef], library functions
    taken as given. *)
Variable strings_Title : string -> string.
Variable json_Marshal : gmap string Graphs -> string.

Variable plugin : Plugin.

Definition title (s : string) : string := strings_Title (title_Replace s).

(** *** The metrics cycle *)

(** The body of the inner loop of [OutputMetricsValues]. The state is the
    current map, which [formatValues] writes to, the console, and whether
    the process is still running: [log.Fatal] in
    [formatValuesWithWildcard] ends it before anything is printed for the
    metric. *)
Definition format_metric (key : string) (ts : Time)
    (lastMetricValues : PluginValues)
    (st : gmap string value * console * bool) (metric : Metrics)
  : gmap string value * console * bool :=
  let '(vals, c, running) := st in
  if running then
    if ContainsAny (key +:+ Name metric) "*#" then
      match formatValuesWithWildcard ParseFloat conv_overflow
              (plugin_Meta plugin) key metric (mkPluginValues vals ts)
              lastMetricValues c with
      | Some (vals', c') => (vals', c', true)
      | None => (vals, c, false)
      end
    else
      let '(vals', c') :=
        formatValues ParseFloat conv_overflow (plugin_Meta plugin) key metric
                     (mkPluginValues vals ts) lastMetricValues c in
      (vals', c', true)
  else st.

Definition format_graph (ts : Time) (lastMetricValues : PluginValues)
    (st : gmap string value * console * bool) (entry : string * Graphs)
  : gmap string value * console * bool :=
  foldl (format_metric (fst entry) ts lastMetricValues) st
        (Graphs_Metrics (snd entry)).

Definition format_graphs (ts : Time) (lastMetricValues : PluginValues)
    (st : gmap string value * console * bool)
    (graphs : list (string * Graphs))
  : gmap string value * console * bool :=
  foldl (format_graph ts lastMetricValues) st graphs.

(** [OutputMetricsValues] at the instant [now]. The two [log.Debug] lines
    are the entries [LogOutputValues errStateUpdated] (the cycle stops) and
    none (a load error that is ignored: the cycle goes on with the empty
    values that [loadLastValuesSafe] returned). A nil map from [Metrics()]
    reads as an empty one in the loops; the assignment of ["_lastTime"] in
    [SaveValues] panics on it, after [os.Create] has emptied the file. *)
Definition OutputMetricsValues (now : Time) (w : world) : world * cycle_end :=
  match as_MetricsPlugin plugin with
  | None => (w, Returned)
  | Some mp =>
      let '(stat, merr) := mp_Metrics mp in
      match merr with
      | Some e => (with_console (log (LogFatal e) (w_console w)) w, Exited)
      | None =>
          let '(lastMetricValues, err) := loadLastValuesSafe conv_overflow now w in
          if bool_decide (err = Some errStateUpdated) then
            (with_console (log (LogOutputValues errStateUpdated) (w_console w)) w,
             Returned)
          else
            let '(vals, c, running) :=
              format_graphs now lastMetricValues
                            (default ∅ stat, w_console w, true)
                            (mp_GraphDefinition mp) in
            let w1 := with_console c w in
            if running then
              match stat with
              | None =>
                  match w_file w1 with
                  | FileError =>
                      (with_console (log (LogFatal errOpen) c) w1, Exited)
                  | _ => (mkWorld (FileData None) c (S (w_writes w1)), Panicked)
                  end
              | Some _ =>
                  let '(_, w2, serr) := SaveValues (mkPluginValues vals now) w1 in
                  match serr with
                  | Some e =>
                      (with_console (log (LogFatal e) (w_console w2)) w2, Exited)
                  | None => (w2, Returned)
                  end
              end
            else (w1, Exited)
      end
  end.

(** [OutputCheckerValues]: [Checker()] is called and its results are
    dropped. *)
Definition OutputCheckerValues (w : world) : world * cycle_end :=
  match as_CheckerPlugin plugin with
  | Some _ => (w, Returned)
  | None => (w, Returned)
  end.

(** [OutputValues]: the cycle that the declared type selects. *)
Definition OutputValues (now : Time) (w : world) : world * cycle_end :=
  let meta := plugin_Meta plugin in
  if String.eqb (Type_ meta) TypeChecker then OutputCheckerValues w
  else if String.eqb (Type_ meta) TypeMetrics then OutputMetricsValues now w
  else if String.eqb (Type_ meta) TypeMetadata then
    let '(w', status) :=
      OutputMetadataValues conv_overflow (as_MetadataPlugin plugin) now w in
    (w', match status with ExitOK => Returned | ExitFatal => Exited end)
  else (w, Returned).

(** *** Descriptor mode *)

(** One round of the loop of [OutputMeta]: the key under which the graph
    is published and the graph with its labels filled in. *)
Definition OutputMeta_graph (entry : string * Graphs) : string * Graphs :=
  let prefix := Key (plugin_Meta plugin) in
  let k := if String.eqb (fst entry) "" then prefix
           else prefix +:+ "." +:+ fst entry in
  let g := snd entry in
  let label := if String.eqb (Graphs_Label g) "" then title k
               else Graphs_Label g in
  let metrics :=
    map (fun v => if String.eqb (Label v) "" then with_label v (title (Name v))
                  else v)
        (Graphs_Metrics g) in
  (k, mkGraphs label (Graphs_Unit g) metrics).

Definition OutputMeta_graphs (mp : MetricsPlugin) : gmap string Graphs :=
  foldl (fun graphs entry =>
           <[fst (OutputMeta_graph entry) := snd (OutputMeta_graph entry)]>
             graphs)
        ∅ (mp_GraphDefinition mp).

(** [OutputMeta]: the text written to standard output, the version line
    first. Nothing else is read or written. *)
Definition OutputMeta : string :=
  (Meta_String (plugin_Meta plugin) +:+ String "010"%char EmptyString +:+
   match as_MetricsPlugin plugin with
   | Some mp => json_Marshal (OutputMeta_graphs mp)
   | None => EmptyString
   end) +:+ String "010"%char EmptyString.

(** [Run]: descriptor mode when the environment variable is set to a
    non-empty text, a cycle otherwise. *)
Definition Run (getenv : string -> string) (now : Time) (w : world)
  : string + world * cycle_end :=
  if nonempty (getenv PLUGIN_META_ENV_VAR) then inl OutputMeta
  else inr (OutputValues now w).

End Harness.

(* ===================================================================== *)
(** ** The example plugin ([_example/memcached.go]) *)
(* ===================================================================== *)

(** [strings.Split(s, sep)] for a separator of one byte. *)
Fixpoint Split_byte (sep : ascii) (s : string) : list string :=
  match s with
  | EmptyString => [EmptyString]
  | String c s' =>
      if Ascii.eqb c sep then EmptyString :: Split_byte sep s'
      else
        match Split_byte sep s' with
        | piece :: pieces => String c piece :: pieces
        | [] => [String c EmptyString]
        end
  end.

(** What [net.Dial] and the scanner give the plugin: a failure to
    connect, or the lines of the reply in the order in which
    [scanner.Scan] delivers them, and the value of [scanner.Err()] when
    they are used up. *)
Inductive connection : Type :=
  | DialError (e : error)
  | Connected (lines : list string) (scan_err : option error).

(** How [Metrics()] ends: with its two results, the map possibly nil, or
    in a run-time panic (an index out of range). *)
Inductive metrics_result : Type :=
  | MetricsReturn (stat : option (gmap string value)) (err : option error)
  | MetricsPanic.

Section Memcached.

Variable ParseFloat : string -> float64 * option error.

(** The loop over the lines of the reply. [logged] collects the errors
    passed to [log.Error]. *)
Fixpoint memcached_scan (lines : list string) (scan_err : option error)
    (stat : gmap string value) (logged : list error)
  : metrics_result * list error :=
  match lines with
  | [] =>
      match scan_err with
      | Some e => (MetricsReturn (Some stat) (Some e), logged)
      | None => (MetricsReturn None None, logged)
      end
  | s :: rest =>
      if String.eqb s "END" then (MetricsReturn (Some stat) None, logged)
      else
        match Split_byte " " s with
        | res0 :: res_tail =>
            if String.eqb res0 "STAT" then
              match res_tail with
              | res1 :: res2 :: _ =>
                  let '(f, err) := ParseFloat res2 in
                  memcached_scan rest scan_err (<[res1 := VFloat64 f]> stat)
                    (match err with
                     | Some e => (logged ++ [e])%list
                     | None => logged
                     end)
              | _ => (MetricsPanic, logged)
              end
            else memcached_scan rest scan_err stat logged
        | [] => (MetricsPanic, logged)
        end
  end.

(** [MemcachedPlugin.Metrics]. *)
Definition memcached_Metrics (conn : connection)
  : metrics_result * list error :=
  match conn with
  | DialError e => (MetricsReturn None (Some e), [])
  | Connected lines scan_err => memcached_scan lines scan_err ∅ []
  end.

End Memcached.

(** A line of the reply that the loop passes without a panic: not a
    [STAT] line, or one with a name and a value. *)
Definition stat_line_ok (s : string) : bool :=
  match Split_byte " " s with
  | res0 :: res_tail =>
      negb (String.eqb res0 "STAT") ||
      match res_tail with _ :: _ :: _ => true | _ => false end
  | [] => false
  end.

(** The name that a [STAT] line sets, if the line is one. *)
Definition stat_line_name (s : string) : option string :=
  match Split_byte " " s with
  | res0 :: res1 :: _ :: _ => if String.eqb res0 "STAT" then Some res1 else None
  | _ => None
  end.

(** The text of the value that a [STAT] line sets, if the line is one. *)
Definition stat_line_value (s : string) : option string :=
  match Split_byte " " s with
  | res0 :: _ :: res2 :: _ => if String.eqb res0 "STAT" then Some res2 else None
  | _ => None
  end.

(** [last_stat_line pre k v]: the last [STAT] line of [pre] with the name
    [k] has the value text [v]. *)
Definition last_stat_line (pre : list string) (k v : string) : Prop :=
  exists (before : list string) (s : string) (after : list string),
    pre = (before ++ s :: after)%list /\
    stat_line_name s = Some k /\ stat_line_value s = Some v /\
    Forall (fun s' => stat_line_name s' <> Some k) after.

(* ===================================================================== *)
(** * Properties *)
(* ===================================================================== *)

(** ** Strings *)

#[local] Arguments String.append !_ _ / : simpl nomatch.

Lemma string_app_nil_r (s : string) : s +:+ "" = s.
Proof. induction s as [|c s IH]; simpl; [reflexivity | now rewrite IH]. Qed.

Lemma string_app_assoc (a b c : string) : (a +:+ b) +:+ c = a +:+ b +:+ c.
Proof. induction a as [|x a IH]; simpl; [reflexivity | now rewrite IH]. Qed.

Lemma string_length_app (a b : string) :
  String.length (a +:+ b) = (String.length a + String.length b)%nat.
Proof. induction a as [|x a IH]; simpl; [reflexivity | now rewrite IH]. Qed.

Lemma substring_app_exact (a b : string) :
  substring 0 (String.length a) (a +:+ b) = a.
Proof. induction a as [|x a IH]; simpl; [now destruct b | now rewrite IH]. Qed.

Lemma byte_of_range (c : ascii) : (0 <= byte_of c < 256)%Z.
Proof.
  unfold byte_of. pose proof (N_ascii_bounded c). lia.
Qed.

Lemma byte_of_inj (a b : ascii) : byte_of a = byte_of b -> a = b.
Proof.
  unfold byte_of. intros H.
  rewrite <- (ascii_N_embedding a), <- (ascii_N_embedding b).
  f_equal. lia.
Qed.

Lemma ascii_eqb_byte (a b : ascii) :
  Ascii.eqb a b = (byte_of a =? byte_of b)%Z.
Proof.
  destruct (Ascii.eqb_spec a b) as [->|Hne].
  - now rewrite Z.eqb_refl.
  - symmetry. apply Z.eqb_neq. intros H. now apply Hne, byte_of_inj.
Qed.

(** ** Decimal digits *)

Lemma byte_of_digit_char (d : Z) :
  (0 <= d <= 9)%Z -> byte_of (digit_char d) = (48 + d)%Z.
Proof.
  intros Hd. unfold byte_of, digit_char.
  rewrite N_ascii_embedding; lia.
Qed.

Lemma is_digit_digit_char (d : Z) :
  (0 <= d <= 9)%Z -> is_digit (digit_char d) = true.
Proof.
  intros Hd. unfold is_digit. rewrite byte_of_digit_char by assumption.
  apply andb_true_iff. split; apply Z.leb_le; lia.
Qed.

Lemma cc_mem_digit (c : ascii) : cc_mem class_digit c = is_digit c.
Proof.
  unfold cc_mem, class_digit, is_digit, in_range; simpl.
  now rewrite orb_false_r.
Qed.

Lemma all_in_app (k : cclass) (a b : string) :
  all_in k (a +:+ b) = all_in k a && all_in k b.
Proof.
  induction a as [|c a IH]; simpl; [reflexivity|].
  rewrite IH. now rewrite andb_assoc.
Qed.

Lemma formatBits_acc (fuel : nat) (u : Z) (acc : string) :
  formatBits fuel u acc = formatBits fuel u "" +:+ acc.
Proof.
  revert u acc. induction fuel as [|f IH]; intros u acc; simpl.
  - reflexivity.
  - destruct (u <? 10)%Z; [reflexivity|].
    rewrite (IH _ (String _ acc)), (IH _ (String _ "")).
    now rewrite string_app_assoc.
Qed.

Lemma formatBits_nonempty (fuel : nat) (u : Z) :
  nonempty (formatBits (S fuel) u "") = true.
Proof.
  simpl. destruct (u <? 10)%Z; [reflexivity|].
  rewrite formatBits_acc. now destruct (formatBits fuel (u / 10) "").
Qed.

Lemma formatBits_digits (fuel : nat) (u : Z) :
  (0 <= u)%Z -> all_in class_digit (formatBits fuel u "") = true.
Proof.
  revert u. induction fuel as [|f IH]; intros u Hu; simpl; [reflexivity|].
  destruct (Z.ltb_spec u 10) as [Hlt|Hge].
  - simpl. rewrite cc_mem_digit, is_digit_digit_char by lia. reflexivity.
  - rewrite formatBits_acc, all_in_app, IH by (apply Z.div_pos; lia).
    simpl. rewrite cc_mem_digit, is_digit_digit_char; [reflexivity|].
    pose proof (Z.mod_pos_bound u 10). lia.
Qed.

(** The number of decimal digits of [u] is the length of its rendering. *)
Lemma formatBits_length (fuel : nat) (u : Z) :
  (0 <= u < 10 ^ Z.of_nat fuel)%Z ->
  forall n : nat, (u < 10 ^ Z.of_nat n)%Z -> (0 < n)%nat ->
  (String.length (formatBits fuel u "") <= n)%nat.
Proof.
  revert u. induction fuel as [|f IH]; intros u Hu n Hn Hpos; simpl; [lia|].
  destruct (Z.ltb_spec u 10) as [Hlt|Hge]; simpl; [lia|].
  rewrite formatBits_acc, string_length_app. simpl.
  destruct n as [|n]; [lia|].
  destruct n as [|n]; [simpl in Hn; lia|].
  assert (Hdiv : (0 <= u / 10 < 10 ^ Z.of_nat f)%Z).
  { split; [apply Z.div_pos; lia|].
    apply Z.div_lt_upper_bound; [lia|].
    replace (Z.of_nat (S f)) with (Z.succ (Z.of_nat f)) in Hu by lia.
    rewrite Z.pow_succ_r in Hu by lia. lia. }
  assert (Hdivn : (u / 10 < 10 ^ Z.of_nat (S n))%Z).
  { apply Z.div_lt_upper_bound; [lia|].
    replace (Z.of_nat (S (S n))) with (Z.succ (Z.of_nat (S n))) in Hn by lia.
    rewrite Z.pow_succ_r in Hn by lia. lia. }
  specialize (IH (u / 10)%Z Hdiv (S n) Hdivn ltac:(lia)). lia.
Qed.

(** Reading back what [formatBits] wrote. *)
Lemma parseUint_loop_formatBits (maxVal : Z) (fuel : nat) (u : Z) (rest : string) :
  (0 <= u < 10 ^ Z.of_nat fuel)%Z -> (u <= maxVal)%Z -> (maxVal <= maxUint64)%Z ->
  parseUint_loop maxVal (formatBits fuel u "" +:+ rest) 0 =
  parseUint_loop maxVal rest u.
Proof.
  revert u rest. induction fuel as [|f IH]; intros u rest Hu Hmax Hmax64.
  - simpl in *. replace u with 0%Z by lia. reflexivity.
  - cbn [formatBits].
    assert (Hstep : forall n d r, (0 <= d <= 9)%Z -> (0 <= n)%Z ->
              (n * 10 + d <= maxVal)%Z ->
              parseUint_loop maxVal (String (digit_char d) r) n =
              parseUint_loop maxVal r (n * 10 + d)).
    { intros n d r Hd Hn Hle. cbn [parseUint_loop].
      rewrite is_digit_digit_char, byte_of_digit_char by assumption.
      unfold maxUint64 in *.
      destruct (Z.leb_spec (((2 ^ 64 - 1) / 10 + 1)) n) as [Hc|Hc];
        [change ((2 ^ 64 - 1) / 10 + 1)%Z with 1844674407370955162%Z in Hc; lia|].
      replace (48 + d - 48)%Z with d by lia.
      unfold wrap_uint64. rewrite Z.mod_small by lia.
      destruct (Z.ltb_spec (n * 10 + d) (n * 10)); [lia|].
      destruct (Z.ltb_spec maxVal (n * 10 + d)); [lia|]. reflexivity. }
    destruct (Z.ltb_spec u 10) as [Hlt|Hge].
    + simpl String.append. rewrite Hstep by lia. f_equal.
    + rewrite formatBits_acc, string_app_assoc. simpl String.append.
      assert (Hdiv : (0 <= u / 10 < 10 ^ Z.of_nat f)%Z).
      { split; [apply Z.div_pos; lia|].
        apply Z.div_lt_upper_bound; [lia|].
        replace (Z.of_nat (S f)) with (Z.succ (Z.of_nat f)) in Hu by lia.
        rewrite Z.pow_succ_r in Hu by lia. lia. }
      pose proof (Z.mod_pos_bound u 10 ltac:(lia)) as Hmod.
      pose proof (Z.div_mod u 10 ltac:(lia)) as Hdm.
      rewrite IH by lia.
      rewrite Hstep by lia. f_equal. lia.
Qed.

Lemma ParseUint_nonempty (s : string) (bitSize : Z) :
  nonempty s = true -> ParseUint s bitSize = parseUint_loop (2 ^ bitSize - 1) s 0.
Proof. destruct s; [discriminate | reflexivity]. Qed.

Lemma ParseUint_FormatUint (u bitSize : Z) :
  (0 <= u < 2 ^ bitSize)%Z -> (0 <= bitSize <= 64)%Z ->
  ParseUint (FormatUint u) bitSize = (u, None).
Proof.
  intros Hu Hb. unfold FormatUint.
  rewrite ParseUint_nonempty by apply formatBits_nonempty.
  assert (H64 : (2 ^ bitSize <= 2 ^ 64)%Z) by (apply Z.pow_le_mono_r; lia).
  rewrite <- (string_app_nil_r (formatBits 20 u "")).
  rewrite parseUint_loop_formatBits; [reflexivity| | |].
  - change (10 ^ Z.of_nat 20)%Z with 100000000000000000000%Z.
    change (2 ^ 64)%Z with 18446744073709551616%Z in H64. lia.
  - lia.
  - unfold maxUint64. lia.
Qed.

(** ** Splitting at a separator *)

Lemma strip_prefix_dot_digit (c : ascii) (s : string) :
  cc_mem class_digit c = true -> strip_prefix "." (String c s) = None.
Proof.
  intros H. rewrite cc_mem_digit in H. unfold is_digit in H.
  cbn [strip_prefix]. rewrite ascii_eqb_byte.
  change (byte_of ".") with 46%Z.
  destruct (Z.eqb_spec 46 (byte_of c)); [lia | reflexivity].
Qed.

Lemma cut_dot_digits (ds rest : string) :
  all_in class_digit ds = true ->
  cut "." (ds +:+ String "." rest) = Some (ds, rest).
Proof.
  induction ds as [|c ds IH]; intros H.
  - reflexivity.
  - simpl in H. apply andb_true_iff in H. destruct H as [Hc Hds].
    change (String c ds +:+ String "." rest)
      with (String c (ds +:+ String "." rest)).
    cbn [cut]. rewrite strip_prefix_dot_digit by assumption.
    now rewrite IH.
Qed.

Lemma SplitN_three_digits (a b c : string) :
  all_in class_digit a = true -> all_in class_digit b = true ->
  SplitN (a +:+ "." +:+ b +:+ "." +:+ c) "." 3 = [a; b; c].
Proof.
  intros Ha Hb. cbn [SplitN].
  change ("." +:+ b +:+ "." +:+ c) with (String "." (b +:+ String "." c)).
  rewrite cut_dot_digits by assumption.
  now rewrite cut_dot_digits by assumption.
Qed.

(** ** Version Model *)

Lemma ParseVersion_digits (a b c : Z) :
  is_uint32 a -> is_uint32 b -> is_uint32 c ->
  ParseVersion (FormatUint a +:+ "." +:+ FormatUint b +:+ "." +:+ FormatUint c)
  = (mkVersion a b c, None).
Proof.
  unfold is_uint32. intros Ha Hb Hc. unfold ParseVersion.
  rewrite SplitN_three_digits by (apply formatBits_digits; lia).
  rewrite !ParseUint_FormatUint by lia.
  unfold wrap_uint32. now rewrite !Z.mod_small by lia.
Qed.

(** C8. For every Version whose components are uint32 values, parsing the
    dotted-decimal rendering [major.minor.patch] succeeds and returns the
    same Version. *)
Theorem ParseVersion_String_roundtrip (v : Version) :
  Version_wf v -> ParseVersion (Version_String v) = (v, None).
Proof.
  intros (Ha & Hb & Hc). destruct v as [a b c]; simpl in *.
  unfold Version_String; simpl. now apply ParseVersion_digits.
Qed.

Lemma ParseVersion_String_roundtrip_witness :
  Version_wf (mkVersion 1212 34 1212) /\
  ParseVersion (Version_String (mkVersion 1212 34 1212))
  = (mkVersion 1212 34 1212, None).
Proof.
  assert (H : Version_wf (mkVersion 1212 34 1212)).
  { unfold Version_wf, is_uint32; simpl; lia. }
  split; [exact H | exact (ParseVersion_String_roundtrip _ H)].
Defined.

(* ===================================================================== *)
(** ** Rate Engine *)
(* ===================================================================== *)

Lemma wrap_int64_small (z : Z) : is_int64 z -> wrap_int64 z = z.
Proof.
  unfold is_int64, wrap_int64. intros H.
  rewrite Z.mod_small by lia. lia.
Qed.


Section DurationGuard.

Variables now lastTime : Time.
Hypothesis Hlong : (600 < diffTime now lastTime)%Z.




End DurationGuard.



(** C4. With a duration of at most 600 seconds, the unsigned variants
    succeed exactly when [lastValue <= value] or the computed rate is below
    ten times the previously recorded rate; on success they return the
    computed rate, otherwise they fail with the counter-reset error. A
    decrease whose wrapped rate is below ten times the previous rate is
    therefore accepted. *)
Theorem uint_variants_accept_iff (value lastValue : Z) (now lastTime : Time)
    (lastDiff : float64) :
  (diffTime now lastTime <= 600)%Z ->
  let r32 := rateUint32 value now lastValue lastTime in
  let r64 := rateUint64 value now lastValue lastTime in
  let ten := F64.mul lastDiff (F64.of_Z 10) in
  let res32 := calcDiffUint32 value now lastValue lastTime lastDiff in
  let res64 := calcDiffUint64 value now lastValue lastTime lastDiff in
  (snd res32 = None <-> ((lastValue <= value)%Z \/ F64.ltb r32 ten = true)) /\
  (snd res32 = None -> res32 = (r32, None)) /\
  (snd res32 <> None -> res32 = (F64.zero, Some errCounterReset)) /\
  (snd res64 = None <-> ((lastValue <= value)%Z \/ F64.ltb r64 ten = true)) /\
  (snd res64 = None -> res64 = (r64, None)) /\
  (snd res64 <> None -> res64 = (F64.zero, Some errCounterReset)) /\
  ((value < lastValue)%Z -> F64.ltb r32 ten = true -> res32 = (r32, None)) /\
  ((value < lastValue)%Z -> F64.ltb r64 ten = true -> res64 = (r64, None)).
Proof.
  intros Hd r32 r64 ten res32 res64.
  subst res32 res64. unfold calcDiffUint32, calcDiffUint64.
  fold (rateUint32 value now lastValue lastTime).
  fold (rateUint64 value now lastValue lastTime).
  fold r32 r64 ten.
  destruct (Z.ltb_spec 600 (diffTime now lastTime)) as [?|_]; [lia|].
  destruct (Z.leb_spec lastValue value) as [Hle|Hgt];
    destruct (F64.ltb r32 ten) eqn:E32; destruct (F64.ltb r64 ten) eqn:E64;
    simpl; repeat split; intros; try tauto; try congruence; try lia;
    try (destruct H; [lia | congruence]).
Qed.

Lemma uint_variants_accept_iff_witness :
  calcDiffUint32 5 (time_Unix 1060) 10 (time_Unix 1000) (F64.of_Z 10000000)
  = (rateUint32 5 (time_Unix 1060) 10 (time_Unix 1000), None).
Proof.
  refine (proj1 (proj2 (proj2 (proj2 (proj2 (proj2 (proj2
            (uint_variants_accept_iff 5 10 (time_Unix 1060) (time_Unix 1000)
               (F64.of_Z 10000000) _)))))))
            _ _).
  - vm_compute. discriminate.
  - lia.
  - vm_compute. reflexivity.
Defined.

(** Without overflow of the multiplication the rate of the uint32 variant
    is the quotient of the exact product. *)
Lemma calcDiffUint32_exact (value lastValue : Z) (now lastTime : Time)
    (lastDiff : float64) :
  (lastValue <= value)%Z -> (0 <= (value - lastValue) * 60 < 2 ^ 32)%Z ->
  (diffTime now lastTime <= 600)%Z ->
  calcDiffUint32 value now lastValue lastTime lastDiff
  = (F64.div (F64.of_Z ((value - lastValue) * 60))
             (F64.of_Z (diffTime now lastTime)), None).
Proof.
  intros Hle Hsmall Hd. unfold calcDiffUint32.
  destruct (Z.ltb_spec 600 (diffTime now lastTime)) as [?|_]; [lia|].
  rewrite (proj2 (Z.leb_le _ _) Hle). simpl.
  unfold wrap_uint32.
  rewrite (Z.mod_small (value - lastValue)) by lia.
  now rewrite Z.mod_small by lia.
Qed.

Lemma calcDiffUint64_exact (value lastValue : Z) (now lastTime : Time)
    (lastDiff : float64) :
  (lastValue <= value)%Z -> (0 <= (value - lastValue) * 60 < 2 ^ 64)%Z ->
  (diffTime now lastTime <= 600)%Z ->
  calcDiffUint64 value now lastValue lastTime lastDiff
  = (F64.div (F64.of_Z ((value - lastValue) * 60))
             (F64.of_Z (diffTime now lastTime)), None).
Proof.
  intros Hle Hsmall Hd. unfold calcDiffUint64.
  destruct (Z.ltb_spec 600 (diffTime now lastTime)) as [?|_]; [lia|].
  rewrite (proj2 (Z.leb_le _ _) Hle). simpl.
  unfold wrap_uint64.
  rewrite (Z.mod_small (value - lastValue)) by lia.
  now rewrite Z.mod_small by lia.
Qed.

(** C2. The multiplication by 60 is carried out in the unsigned type
    before the conversion to float64, so it wraps: a counter that grew by
    71582789 in 60 seconds is reported at 44/60 per minute by the uint32
    variant, and one that grew by 307445734561825861 at 44/60 by the uint64
    variant, neither being the quotient of the exact product. *)
Theorem calcDiffUint_product_wraps :
  calcDiffUint32 71582789 (time_Unix 1060) 0 (time_Unix 1000) F64.zero
  = (F64.div (F64.of_Z 44) (F64.of_Z 60), None) /\
  calcDiffUint64 307445734561825861 (time_Unix 1060) 0 (time_Unix 1000) F64.zero
  = (F64.div (F64.of_Z 44) (F64.of_Z 60), None) /\
  F64.div (F64.of_Z 44) (F64.of_Z 60)
  <> F64.div (F64.of_Z ((71582789 - 0) * 60)) (F64.of_Z 60) /\
  F64.div (F64.of_Z 44) (F64.of_Z 60)
  <> F64.div (F64.of_Z ((307445734561825861 - 0) * 60)) (F64.of_Z 60).
Proof.
  repeat split; try (vm_compute; reflexivity); vm_compute; discriminate.
Qed.

Local Close Scope string_scope.
(* ===================================================================== *)
(** ** float64: rounding never loses a non-zero value above the subnormal
       threshold *)
(* ===================================================================== *)


Lemma digits2_pos_bounds (p : positive) :
  2 ^ (Zpos (digits2_pos p) - 1) <= Zpos p < 2 ^ Zpos (digits2_pos p).
Proof.
  induction p as [p IH|p IH|]; cbn [digits2_pos].
  - rewrite Pos2Z.inj_succ.
    replace (Z.succ (Zpos (digits2_pos p)) - 1) with (Zpos (digits2_pos p)) by lia.
    rewrite Z.pow_succ_r by lia.
    assert (H : 2 ^ Zpos (digits2_pos p) = 2 * 2 ^ (Zpos (digits2_pos p) - 1)).
    { rewrite <- Z.pow_succ_r by lia. f_equal. lia. }
    lia.
  - rewrite Pos2Z.inj_succ.
    replace (Z.succ (Zpos (digits2_pos p)) - 1) with (Zpos (digits2_pos p)) by lia.
    rewrite Z.pow_succ_r by lia.
    assert (H : 2 ^ Zpos (digits2_pos p) = 2 * 2 ^ (Zpos (digits2_pos p) - 1)).
    { rewrite <- Z.pow_succ_r by lia. f_equal. lia. }
    lia.
  - simpl. lia.
Qed.

Lemma digits2_pos_ge (p : positive) (k : Z) :
  2 ^ (k - 1) <= Zpos p -> k <= Zpos (digits2_pos p).
Proof.
  intros H. destruct (Z.le_gt_cases k (Zpos (digits2_pos p))) as [|Hgt]; [assumption|].
  pose proof (digits2_pos_bounds p) as [_ Hub].
  assert (2 ^ Zpos (digits2_pos p) <= 2 ^ (k - 1)) by (apply Z.pow_le_mono_r; lia).
  lia.
Qed.

Lemma digits2_pos_le (p : positive) (k : Z) :
  0 <= k -> Zpos p < 2 ^ k -> Zpos (digits2_pos p) <= k.
Proof.
  intros Hk H. destruct (Z.le_gt_cases (Zpos (digits2_pos p)) k) as [|Hgt]; [assumption|].
  pose proof (digits2_pos_bounds p) as [Hlb _].
  assert (2 ^ k <= 2 ^ (Zpos (digits2_pos p) - 1)) by (apply Z.pow_le_mono_r; lia).
  lia.
Qed.

Lemma digits2_pos_mono (p q : positive) :
  (p <= q)%positive -> Zpos (digits2_pos p) <= Zpos (digits2_pos q).
Proof.
  intros H. apply digits2_pos_ge.
  pose proof (digits2_pos_bounds p). lia.
Qed.

Lemma Zdigits2_mono (a b : Z) : 0 < a <= b -> Zdigits2 a <= Zdigits2 b.
Proof.
  intros [Ha Hab]. destruct a as [|a|a]; try lia.
  destruct b as [|b|b]; try lia. simpl. now apply digits2_pos_mono.
Qed.

Lemma Zdigits2_pos (a : Z) : 0 < a -> 0 < Zdigits2 a.
Proof. destruct a; simpl; lia. Qed.

Lemma pos_iter_xO (k p : positive) :
  Zpos (Pos.iter xO p k) = Zpos p * 2 ^ Zpos k /\
  Zpos (digits2_pos (Pos.iter xO p k)) = Zpos (digits2_pos p) + Zpos k.
Proof.
  induction k as [|k IH] using Pos.peano_ind.
  - simpl. split; lia.
  - rewrite Pos.iter_succ. destruct IH as [IH1 IH2].
    cbn [digits2_pos]. rewrite Pos2Z.inj_xO, IH1, !Pos2Z.inj_succ, IH2.
    rewrite Z.pow_succ_r by lia. split; lia.
Qed.

Lemma shr_1_digits (s : shr_record) :
  0 <= shr_m s ->
  0 <= shr_m (shr_1 s) /\
  Zdigits2 (shr_m (shr_1 s)) = Z.max 0 (Zdigits2 (shr_m s) - 1).
Proof.
  destruct s as [m r t]. simpl. intros Hm.
  destruct m as [|[p|p|]|p]; simpl; try lia;
    rewrite ?Pos2Z.inj_succ; split; lia.
Qed.

Lemma iter_shr_1_digits (p : positive) :
  forall s : shr_record,
  0 <= shr_m s ->
  0 <= shr_m (SpecFloat.iter_pos shr_1 p s) /\
  Zdigits2 (shr_m (SpecFloat.iter_pos shr_1 p s)) = Z.max 0 (Zdigits2 (shr_m s) - Zpos p).
Proof.
  induction p as [p IH|p IH|]; intros s Hs; cbn [SpecFloat.iter_pos].
  - destruct (shr_1_digits s Hs) as [H1 E1].
    destruct (IH _ H1) as [H2 E2]. destruct (IH _ H2) as [H3 E3].
    split; [assumption|]. rewrite E3, E2, E1. lia.
  - destruct (IH _ Hs) as [H2 E2]. destruct (IH _ H2) as [H3 E3].
    split; [assumption|]. rewrite E3, E2. lia.
  - apply shr_1_digits. assumption.
Qed.

Lemma shr_m_of_loc (m : Z) (l : location) : shr_m (shr_record_of_loc m l) = m.
Proof. destruct l as [|[| |]]; reflexivity. Qed.

(** One rounding shift keeps a positive mantissa positive when the value
    is at least the smallest subnormal, and keeps the magnitude
    [digits + exponent]. *)
Lemma shr_fexp_pos (m e : Z) (l : location) :
  0 < m -> f64_emin < Zdigits2 m + e ->
  let r := shr_fexp F64.prec F64.emax m e l in
  0 < shr_m (fst r) /\ Zdigits2 (shr_m (fst r)) + snd r = Zdigits2 m + e.
Proof.
  intros Hm Hmag. unfold shr_fexp, shr, fexp.
  change (emin F64.prec F64.emax) with f64_emin.
  set (n := Z.max (Zdigits2 m + e - F64.prec) f64_emin - e).
  assert (Hn : n < Zdigits2 m) by (unfold n, F64.prec in *; lia).
  destruct n as [|p|p] eqn:En; cbn [fst snd]; rewrite ?shr_m_of_loc;
    try (split; [assumption | reflexivity]).
  destruct (iter_shr_1_digits p (shr_record_of_loc m l)) as [H1 E1];
    [rewrite shr_m_of_loc; lia|].
  rewrite shr_m_of_loc in E1.
  assert (Hd : 0 < Zdigits2 (shr_m (SpecFloat.iter_pos shr_1 p (shr_record_of_loc m l)))) by lia.
  split; [|lia].
  destruct (shr_m (SpecFloat.iter_pos shr_1 p (shr_record_of_loc m l))); simpl in *; lia.
Qed.

Lemma round_nearest_even_ge (m : Z) (l : location) :
  m <= round_nearest_even m l <= m + 1.
Proof.
  unfold round_nearest_even. destruct l as [|[| |]]; try lia.
  destruct (Z.even m); lia.
Qed.

Lemma binary_round_aux_nonzero (s : bool) (m e : Z) (l : location) :
  0 < m -> f64_emin < Zdigits2 m + e ->
  nonzero_signed s (binary_round_aux F64.prec F64.emax s m e l).
Proof.
  intros Hm Hmag. unfold binary_round_aux.
  pose proof (shr_fexp_pos m e l Hm Hmag) as H1. cbv zeta in H1.
  destruct (shr_fexp F64.prec F64.emax m e l) as [mrs1 e1].
  cbn [fst snd] in H1. destruct H1 as [Hp1 Hs1].
  set (m1 := round_nearest_even (shr_m mrs1) (loc_of_shr_record mrs1)).
  pose proof (round_nearest_even_ge (shr_m mrs1) (loc_of_shr_record mrs1)) as Hr.
  fold m1 in Hr.
  assert (Hm1 : 0 < m1) by lia.
  assert (Hd1 : Zdigits2 (shr_m mrs1) <= Zdigits2 m1) by (apply Zdigits2_mono; lia).
  pose proof (shr_fexp_pos m1 e1 loc_Exact Hm1 ltac:(lia)) as H2. cbv zeta in H2.
  destruct (shr_fexp F64.prec F64.emax m1 e1 loc_Exact) as [mrs2 e2].
  cbn [fst snd] in H2. destruct H2 as [Hp2 Hs2].
  destruct (shr_m mrs2) as [|p|p]; try lia.
  destruct (e2 <=? F64.emax - F64.prec); simpl; [|reflexivity].
  split; [reflexivity|]. simpl in Hs2. lia.
Qed.

Lemma binary_round_nonzero (s : bool) (m : positive) (e : Z) :
  f64_emin < Zpos (digits2_pos m) + e ->
  nonzero_signed s (binary_round F64.prec F64.emax s m e).
Proof.
  intros Hmag. unfold binary_round, shl_align.
  destruct (fexp F64.prec F64.emax (Zpos (digits2_pos m) + e) - e) as [|k|k] eqn:E;
    try (apply binary_round_aux_nonzero; simpl; lia).
  apply binary_round_aux_nonzero; [lia|].
  destruct (pos_iter_xO k m) as [_ Hd]. simpl Zdigits2. rewrite Hd. lia.
Qed.

Lemma of_Z_nonzero (z : Z) : 0 < z -> nonzero_signed false (F64.of_Z z).
Proof.
  intros Hz. destruct z as [|p|p]; try lia.
  unfold F64.of_Z, binary_normalize. apply binary_round_nonzero.
  unfold f64_emin, emin, F64.prec, F64.emax. lia.
Qed.

Lemma bounded_inv (m : positive) (e : Z) :
  bounded F64.prec F64.emax m e = true ->
  f64_emin <= e <= 971 /\ Zpos (digits2_pos m) <= 53 /\
  (e = f64_emin \/ Zpos (digits2_pos m) = 53).
Proof.
  unfold bounded, canonical_mantissa, fexp, f64_emin, emin, F64.prec, F64.emax.
  intros H. apply andb_true_iff in H. destruct H as [H1 H2].
  apply Z.eqb_eq in H1. apply Z.leb_le in H2. lia.
Qed.

(** A float in canonical form is left as it is by the rounding. *)
Lemma binary_round_aux_canonical (s : bool) (m : positive) (e : Z) :
  bounded F64.prec F64.emax m e = true ->
  binary_round_aux F64.prec F64.emax s (Zpos m) e loc_Exact = S754_finite s m e.
Proof.
  intros H. unfold bounded in H. apply andb_true_iff in H. destruct H as [H1 H2].
  unfold canonical_mantissa in H1. apply Z.eqb_eq in H1.
  unfold binary_round_aux, shr_fexp. cbn [Zdigits2 shr_record_of_loc].
  rewrite H1, Z.sub_diag. cbn [shr shr_m loc_of_shr_record round_nearest_even].
  cbn [Zdigits2 shr_record_of_loc]. rewrite H1, Z.sub_diag.
  cbn [shr shr_m]. now rewrite H2.
Qed.

Lemma trunc_binary_round (s : bool) (p : positive) :
  Zpos p < 2 ^ 53 ->
  F64.trunc (binary_round F64.prec F64.emax s p 0)
  = Some (if s then - Zpos p else Zpos p).
Proof.
  intros Hp.
  assert (Hd : Zpos (digits2_pos p) <= 53) by (apply digits2_pos_le; lia).
  assert (Hf : fexp F64.prec F64.emax (Zpos (digits2_pos p) + 0)
               = Zpos (digits2_pos p) - 53).
  { unfold fexp, emin, F64.prec, F64.emax. lia. }
  unfold binary_round, shl_align. rewrite Hf, Z.sub_0_r.
  destruct (Zpos (digits2_pos p) - 53) as [|k|k] eqn:E; try lia.
  - rewrite binary_round_aux_canonical.
    + simpl. reflexivity.
    + unfold bounded, canonical_mantissa, fexp, emin, F64.prec, F64.emax.
      apply andb_true_iff. split; [apply Z.eqb_eq; lia | reflexivity].
  - destruct (pos_iter_xO k p) as [Hv Hdig].
    rewrite binary_round_aux_canonical.
    + cbn [F64.trunc]. rewrite Z.shiftr_div_pow2 by lia.
      rewrite Hv, Z.div_mul by (apply Z.pow_nonzero; lia). reflexivity.
    + unfold bounded, canonical_mantissa, fexp, emin, F64.prec, F64.emax.
      apply andb_true_iff. split; [apply Z.eqb_eq; lia | apply Z.leb_le; lia].
Qed.

(** Integers below [2 ^ 53] in magnitude convert exactly. *)
Lemma trunc_of_Z (z : Z) :
  - 2 ^ 53 < z < 2 ^ 53 -> F64.trunc (F64.of_Z z) = Some z.
Proof.
  intros Hz. unfold F64.of_Z, binary_normalize.
  destruct z as [|p|p]; [reflexivity| |];
    rewrite trunc_binary_round by lia; reflexivity.
Qed.

Lemma shl_align_value (m : positive) (e e' : Z) :
  e' <= e -> Zpos (fst (shl_align m e e')) = Zpos m * 2 ^ (e - e').
Proof.
  intros H. unfold shl_align.
  destruct (e' - e) as [|k|k] eqn:E; try lia; cbn [fst].
  - replace (e - e') with 0 by lia. lia.
  - destruct (pos_iter_xO k m) as [Hv _]. rewrite Hv.
    now replace (e - e') with (Zpos k) by lia.
Qed.

(** Canonical mantissas are ordered by their exponents. *)
Lemma canonical_magnitude_lt (m1 m2 : positive) (e1 e2 : Z) :
  bounded F64.prec F64.emax m1 e1 = true ->
  bounded F64.prec F64.emax m2 e2 = true ->
  e1 < e2 -> Zpos m1 < Zpos m2 * 2 ^ (e2 - e1).
Proof.
  intros H1 H2 Hlt.
  apply bounded_inv in H1, H2.
  destruct H1 as (He1 & Hd1 & _). destruct H2 as (He2 & Hd2 & Hc2).
  assert (Hd : Zpos (digits2_pos m2) = 53) by lia.
  pose proof (digits2_pos_bounds m1) as [_ Hub].
  pose proof (digits2_pos_bounds m2) as [Hlb _].
  rewrite Hd in Hlb.
  assert (Hp1 : 2 ^ Zpos (digits2_pos m1) <= 2 ^ 53)
    by (apply Z.pow_le_mono_r; lia).
  assert (Hp2 : 2 ^ 1 <= 2 ^ (e2 - e1)) by (apply Z.pow_le_mono_r; lia).
  change (2 ^ (53 - 1)) with 4503599627370496 in Hlb.
  change (2 ^ 53) with 9007199254740992 in Hp1.
  change (2 ^ 1) with 2 in Hp2.
  nia.
Qed.

Lemma compare_cont_Eq (a b : positive) :
  Pos.compare_cont Eq a b = (a ?= b)%positive.
Proof. reflexivity. Qed.

(** The difference of two floats is positive when the second is smaller. *)
Lemma sub_nonzero (x y : float64) :
  F64.valid x = true -> F64.valid y = true -> F64.ltb y x = true ->
  nonzero_signed false (F64.sub x y).
Proof.
  unfold F64.valid, F64.ltb, F64.sub, SFltb.
  intros Hx Hy Hlt.
  destruct x as [sx|sx| |sx mx ex], y as [sy|sy| |sy my ey];
    try discriminate Hlt; simpl in Hlt.
  - (* zero - inf *) destruct sy; try discriminate. reflexivity.
  - (* zero - finite *)
    destruct sy; try discriminate. simpl in Hy |- *.
    apply bounded_inv in Hy. split; [reflexivity | lia].
  - (* inf - zero *) destruct sx; try discriminate. reflexivity.
  - (* inf - inf *)
    destruct sx, sy; try discriminate. reflexivity.
  - (* inf - finite *) destruct sx; try discriminate. reflexivity.
  - (* finite - zero *)
    destruct sx; try discriminate. simpl in Hx |- *.
    apply bounded_inv in Hx. split; [reflexivity | lia].
  - (* finite - inf *)
    destruct sy; try discriminate. reflexivity.
  - (* finite - finite *)
    simpl in Hx, Hy. cbn [SFsub].
    pose proof (bounded_inv _ _ Hx) as (Hex & _).
    pose proof (bounded_inv _ _ Hy) as (Hey & _).
    set (ez := Z.min ex ey).
    assert (Hvx := shl_align_value mx ex ez ltac:(unfold ez; lia)).
    assert (Hvy := shl_align_value my ey ez ltac:(unfold ez; lia)).
    rewrite Hvx, Hvy.
    set (X := Zpos mx * 2 ^ (ex - ez)) in *.
    set (Y := Zpos my * 2 ^ (ey - ez)) in *.
    assert (HX : 0 < X) by (unfold X; apply Z.mul_pos_pos; [lia|apply Z.pow_pos_nonneg; unfold ez; lia]).
    assert (HY : 0 < Y) by (unfold Y; apply Z.mul_pos_pos; [lia|apply Z.pow_pos_nonneg; unfold ez; lia]).
    assert (HD : 0 < cond_Zopp sx X - cond_Zopp sy Y).
    { destruct sx, sy; simpl in *; try discriminate; try lia.
      - (* both negative: |y| > |x| *)
        destruct (Z.compare_spec ey ex) as [Heq|Hl|Hg]; try discriminate.
        + subst ey. rewrite compare_cont_Eq in Hlt.
          destruct (Pos.compare_spec my mx); try discriminate.
          unfold X, Y. replace (ex - ez) with 0 by (unfold ez; lia). lia.
        + pose proof (canonical_magnitude_lt _ _ _ _ Hx Hy Hg) as Hm.
          unfold X, Y, ez. rewrite Z.min_l by lia.
          replace (ex - ex) with 0 by lia. lia.
      - (* both positive: y < x *)
        destruct (Z.compare_spec ey ex) as [Heq|Hl|Hg]; try discriminate.
        + subst ey. rewrite compare_cont_Eq in Hlt.
          destruct (Pos.compare_spec my mx); try discriminate.
          unfold X, Y. replace (ex - ez) with 0 by (unfold ez; lia). lia.
        + pose proof (canonical_magnitude_lt _ _ _ _ Hy Hx Hl) as Hm.
          unfold X, Y, ez. rewrite Z.min_r by lia.
          replace (ey - ey) with 0 by lia. lia. }
    destruct (cond_Zopp sx X - cond_Zopp sy Y) as [|d|d]; try lia.
    unfold binary_normalize. apply binary_round_nonzero.
    pose proof (Pos2Z.is_pos (digits2_pos d)). unfold ez. lia.
Qed.

Lemma of_Z_60 : F64.of_Z 60 = S754_finite false 8444249301319680 (-47).
Proof. vm_compute. reflexivity. Qed.

Lemma of_Z_0 : F64.of_Z 0 = S754_zero false.
Proof. reflexivity. Qed.

Lemma mul_60_nonzero (x : float64) :
  nonzero_signed false x -> nonzero_signed false (F64.mul x (F64.of_Z 60)).
Proof.
  rewrite of_Z_60. destruct x as [s|s| |s m e]; simpl; try tauto.
  - intros ->. reflexivity.
  - intros [-> Hmag]. cbn [xorb].
    apply binary_round_aux_nonzero; [lia|].
    cbn [Zdigits2].
    assert (Hd : Zpos (digits2_pos m) + 52
                 <= Zpos (digits2_pos (m * 8444249301319680))).
    { apply digits2_pos_ge.
      pose proof (digits2_pos_bounds m) as [Hlb _].
      replace (Zpos (digits2_pos m) + 52 - 1)
        with ((Zpos (digits2_pos m) - 1) + 52) by lia.
      rewrite Z.pow_add_r by lia.
      change (2 ^ 52) with 4503599627370496.
      rewrite Pos2Z.inj_mul. nia. }
    lia.
Qed.

Lemma div_zero_nonzero (x : float64) :
  nonzero_signed false x -> F64.div x (F64.of_Z 0) = F64.pos_inf.
Proof.
  rewrite of_Z_0. destruct x as [s|s| |s m e]; simpl; try tauto.
  - now intros ->.
  - now intros [-> _].
Qed.

(** Equal floats: the difference is a zero or, for two infinities, NaN,
    and the quotient by zero is NaN in both cases. *)
Lemma rate_of_equal_is_nan (x y : float64) :
  F64.eqb y x = true ->
  F64.div (F64.mul (F64.sub x y) (F64.of_Z 60)) (F64.of_Z 0) = F64.nan.
Proof.
  rewrite of_Z_60, of_Z_0. unfold F64.eqb, SFeqb. intros H.
  destruct x as [sx|sx| |sx mx ex], y as [sy|sy| |sy my ey];
    simpl in H; try discriminate H;
    try (destruct sx; discriminate H); try (destruct sy; discriminate H);
    try (destruct sx, sy; try discriminate H; reflexivity).
  assert (E : sx = sy /\ ex = ey /\ mx = my).
  { destruct sy, sx; try discriminate H;
      destruct (Z.compare_spec ey ex); try discriminate H;
      rewrite compare_cont_Eq in H;
      destruct (Pos.compare_spec my mx); try discriminate H;
      subst; auto. }
  destruct E as (-> & -> & ->).
  unfold F64.sub. cbn [SFsub]. rewrite Z.sub_diag. reflexivity.
Qed.

Local Open Scope string_scope.

(* ===================================================================== *)
(** ** Rate Engine: durations of zero or less *)
(* ===================================================================== *)

Lemma diffTime_same_second (now lastTime : Time) :
  Unix now = Unix lastTime -> diffTime now lastTime = 0%Z.
Proof. intros H. unfold diffTime. rewrite H, Z.sub_diag. reflexivity. Qed.

Lemma leb_of_eqb (x y : float64) : F64.eqb x y = true -> F64.leb x y = true.
Proof.
  unfold F64.eqb, F64.leb, SFeqb, SFleb.
  now destruct (SFcompare x y) as [[| |]|].
Qed.

Lemma leb_of_ltb (x y : float64) : F64.ltb x y = true -> F64.leb x y = true.
Proof.
  unfold F64.ltb, F64.leb, SFltb, SFleb.
  now destruct (SFcompare x y) as [[| |]|].
Qed.

(** The quotient of a converted unsigned integer by zero. *)
Lemma uint_rate_by_zero (x : Z) :
  (0 <= x)%Z ->
  F64.div (F64.of_Z x) (F64.of_Z 0)
  = if (x =? 0)%Z then F64.nan else F64.pos_inf.
Proof.
  intros Hx. destruct (Z.eqb_spec x 0) as [->|Hne]; [reflexivity|].
  apply div_zero_nonzero, of_Z_nonzero. lia.
Qed.

Lemma calcDiff_not_too_long (value lastValue : float64) (now lastTime : Time) :
  (diffTime now lastTime <= 600)%Z ->
  snd (calcDiff value now lastValue lastTime) <> Some errTooLongDuration.
Proof.
  intros H. unfold calcDiff.
  destruct (Z.ltb_spec 600 (diffTime now lastTime)); [lia|].
  destruct (F64.leb lastValue value); simpl; discriminate.
Qed.

Lemma calcDiffUint32_not_too_long (value lastValue : Z) (now lastTime : Time)
    (lastDiff : float64) :
  (diffTime now lastTime <= 600)%Z ->
  snd (calcDiffUint32 value now lastValue lastTime lastDiff)
  <> Some errTooLongDuration.
Proof.
  intros H. unfold calcDiffUint32.
  destruct (Z.ltb_spec 600 (diffTime now lastTime)); [lia|].
  match goal with |- context [if ?b then _ else _] => destruct b end;
    simpl; discriminate.
Qed.

Lemma calcDiffUint64_not_too_long (value lastValue : Z) (now lastTime : Time)
    (lastDiff : float64) :
  (diffTime now lastTime <= 600)%Z ->
  snd (calcDiffUint64 value now lastValue lastTime lastDiff)
  <> Some errTooLongDuration.
Proof.
  intros H. unfold calcDiffUint64.
  destruct (Z.ltb_spec 600 (diffTime now lastTime)); [lia|].
  match goal with |- context [if ?b then _ else _] => destruct b end;
    simpl; discriminate.
Qed.

(** C10. The duration guard rejects only durations above 600 seconds: a
    duration of zero or less never yields the too-long-duration error.
    With equal timestamps and [lastValue <= value], the float64 variant
    succeeds with NaN when the two values are equal and with the positive
    infinity when the value increased, and the unsigned variants succeed
    as well, their rate being the float quotient by zero (NaN or the
    positive infinity). *)
Theorem zero_duration_is_not_rejected (now lastTime : Time) :
  ((diffTime now lastTime <= 0)%Z ->
   (forall value lastValue : float64,
       snd (calcDiff value now lastValue lastTime)
       <> Some errTooLongDuration) /\
   (forall (value lastValue : Z) (lastDiff : float64),
       snd (calcDiffUint32 value now lastValue lastTime lastDiff)
       <> Some errTooLongDuration /\
       snd (calcDiffUint64 value now lastValue lastTime lastDiff)
       <> Some errTooLongDuration)) /\
  (Unix now = Unix lastTime ->
   (forall value lastValue : float64,
       F64.eqb lastValue value = true ->
       calcDiff value now lastValue lastTime = (F64.nan, None)) /\
   (forall value lastValue : float64,
       F64.valid value = true -> F64.valid lastValue = true ->
       F64.ltb lastValue value = true ->
       calcDiff value now lastValue lastTime = (F64.pos_inf, None)) /\
   (forall (value lastValue : Z) (lastDiff : float64),
       (lastValue <= value)%Z ->
       calcDiffUint32 value now lastValue lastTime lastDiff
       = (rateUint32 value now lastValue lastTime, None) /\
       (rateUint32 value now lastValue lastTime = F64.nan \/
        rateUint32 value now lastValue lastTime = F64.pos_inf)) /\
   (forall (value lastValue : Z) (lastDiff : float64),
       (lastValue <= value)%Z ->
       calcDiffUint64 value now lastValue lastTime lastDiff
       = (rateUint64 value now lastValue lastTime, None) /\
       (rateUint64 value now lastValue lastTime = F64.nan \/
        rateUint64 value now lastValue lastTime = F64.pos_inf))).
Proof.
  split.
  - intros Hd. split; [|split].
    + intros. apply calcDiff_not_too_long. lia.
    + apply calcDiffUint32_not_too_long. lia.
    + apply calcDiffUint64_not_too_long. lia.
  - intros Hsame. pose proof (diffTime_same_second _ _ Hsame) as Hz.
    repeat split.
    + intros value lastValue Heq. unfold calcDiff. rewrite Hz.
      change (600 <? 0)%Z with false. cbv beta iota zeta.
      rewrite (leb_of_eqb _ _ Heq).
      now rewrite rate_of_equal_is_nan.
    + intros value lastValue Hv Hl Hlt. unfold calcDiff. rewrite Hz.
      change (600 <? 0)%Z with false. cbv beta iota zeta.
      rewrite (leb_of_ltb _ _ Hlt).
      rewrite (div_zero_nonzero _ (mul_60_nonzero _ (sub_nonzero _ _ Hv Hl Hlt))).
      reflexivity.
    + unfold calcDiffUint32, rateUint32. rewrite Hz.
      change (600 <? 0)%Z with false. cbv beta iota zeta.
      now rewrite (proj2 (Z.leb_le _ _) H).
    + unfold rateUint32. rewrite Hz, uint_rate_by_zero
        by (unfold wrap_uint32; apply Z.mod_pos_bound; lia).
      destruct (_ =? 0)%Z; auto.
    + unfold calcDiffUint64, rateUint64. rewrite Hz.
      change (600 <? 0)%Z with false. cbv beta iota zeta.
      now rewrite (proj2 (Z.leb_le _ _) H).
    + unfold rateUint64. rewrite Hz, uint_rate_by_zero
        by (unfold wrap_uint64; apply Z.mod_pos_bound; lia).
      destruct (_ =? 0)%Z; auto.
Qed.

Lemma zero_duration_is_not_rejected_witness :
  calcDiff (F64.of_Z 160) (mkTime 1700000000 9) (F64.of_Z 100)
           (mkTime 1700000000 2)
  = (F64.pos_inf, None) /\
  calcDiff (F64.of_Z 100) (mkTime 1700000000 9) (F64.of_Z 100)
           (mkTime 1700000000 2)
  = (F64.nan, None) /\
  snd (calcDiffUint32 7 (mkTime 1700000000 0) 7 (mkTime 1700000060 0) F64.zero)
  <> Some errTooLongDuration.
Proof.
  pose proof (zero_duration_is_not_rejected
                (mkTime 1700000000 9) (mkTime 1700000000 2)) as [_ H].
  specialize (H eq_refl). destruct H as (Heq & Hlt & _).
  pose proof (zero_duration_is_not_rejected
                (mkTime 1700000000 0) (mkTime 1700000060 0)) as [Hneg _].
  assert (Hd : (diffTime (mkTime 1700000000 0) (mkTime 1700000060 0) <= 0)%Z)
    by (vm_compute; discriminate).
  specialize (Hneg Hd). destruct Hneg as [_ Hneg].
  split; [|split].
  - apply Hlt; vm_compute; reflexivity.
  - apply Heq. vm_compute. reflexivity.
  - apply (Hneg 7%Z 7%Z F64.zero).
Defined.

(* ===================================================================== *)
(** ** The matcher on texts of a known shape *)
(* ===================================================================== *)

Lemma first_some {A : Type} (x y : option A) (r : A) :
  x = Some r -> match x with Some res => Some res | None => y end = Some r.
Proof. now intros ->. Qed.

Lemma next_some {A : Type} (x y : option A) (r : A) :
  x = None -> y = Some r ->
  match x with Some res => Some res | None => y end = Some r.
Proof. now intros -> ->. Qed.

(** A greedy repetition takes the whole run [w] when the byte after it is
    outside the class, and the continuation decides from there. *)
Lemma match_repeat_max (k : cclass) (w : string) :
  forall (lo : nat) (hi : option nat) (pos : nat) (rest : string)
         (cs : captures) (kont : cont) (r : captures),
  all_in k w = true -> (lo <= String.length w)%nat ->
  fits hi (String.length w) -> next_not_in k rest = true ->
  kont (pos + String.length w)%nat rest cs = Some r ->
  match_repeat k lo hi pos (w +:+ rest) cs kont = Some r.
Proof.
  induction w as [|c w IH]; intros lo hi pos rest cs kont r Hall Hlo Hhi Hnext Hk.
  - simpl in *. assert (lo = 0%nat) as -> by lia.
    rewrite Nat.add_0_r in Hk.
    destruct rest as [|c rest]; simpl; [exact Hk|].
    simpl in Hnext. apply negb_true_iff in Hnext. now rewrite Hnext.
  - simpl in Hall. apply andb_true_iff in Hall. destruct Hall as [Hc Hall].
    change (String c w +:+ rest) with (String c (w +:+ rest)).
    cbn [match_repeat]. rewrite Hc.
    assert (Hne : hi <> Some 0%nat).
    { intros ->. simpl in Hhi. lia. }
    rewrite bool_decide_eq_false_2 by exact Hne. cbn [negb andb].
    apply first_some. apply IH; try assumption.
    + simpl in Hlo. lia.
    + destruct hi as [h|]; simpl in *; [lia | exact I].
    + simpl in Hk. now rewrite Nat.add_succ_r in Hk.
Qed.

(** An unbounded greedy repetition over a text that lies in the class up
    to its last byte gives that byte back when the continuation needs it. *)
Lemma match_repeat_back_one (k : cclass) (w : string) :
  forall (lo : nat) (pos : nat) (c : ascii) (cs : captures) (kont : cont)
         (r : captures),
  all_in k w = true -> cc_mem k c = true -> (lo <= String.length w)%nat ->
  kont (S (pos + String.length w)) "" cs = None ->
  kont (pos + String.length w)%nat (String c "") cs = Some r ->
  match_repeat k lo None pos (w +:+ String c "") cs kont = Some r.
Proof.
  induction w as [|x w IH]; intros lo pos c cs kont r Hall Hc Hlo Hend Hk.
  - simpl in *. assert (lo = 0%nat) as -> by lia.
    rewrite Nat.add_0_r in Hk, Hend.
    rewrite Hc. simpl. now rewrite Hend.
  - simpl in Hall. apply andb_true_iff in Hall. destruct Hall as [Hx Hall].
    change (String x w +:+ String c "") with (String x (w +:+ String c "")).
    cbn [match_repeat]. rewrite Hx. simpl negb. cbn [andb].
    apply first_some. apply IH; try assumption.
    + simpl in Hlo. lia.
    + simpl in Hend. now rewrite Nat.add_succ_r in Hend.
    + simpl in Hk. now rewrite Nat.add_succ_r in Hk.
Qed.

Lemma next_not_in_app (k : cclass) (a b : string) :
  nonempty a = true -> next_not_in k a = true -> next_not_in k (a +:+ b) = true.
Proof. destruct a; [discriminate | trivial]. Qed.

Lemma capture_eq (n : nat) (w rest : string) :
  n = String.length w -> substring 0 n (w +:+ rest) = w.
Proof. intros ->. apply substring_app_exact. Qed.

Lemma nonempty_length (s : string) :
  nonempty s = true -> (1 <= String.length s)%nat.
Proof. destruct s; [discriminate | simpl; lia]. Qed.

Lemma word_inv (s : string) :
  word s = true ->
  nonempty s = true /\ all_in class_word s = true /\
  next_not_in class_space s = true /\ (1 <= String.length s)%nat.
Proof.
  unfold word. intros H. apply andb_true_iff in H. destruct H as [Hne Hall].
  repeat split; try assumption; [|now apply nonempty_length].
  destruct s as [|c s]; [reflexivity|]. simpl in *.
  apply andb_true_iff in Hall. destruct Hall as [Hc _].
  unfold cc_mem, class_word, class_space, in_range in *; simpl in *.
  pose proof (byte_of_range c).
  repeat match goal with
         | |- context [(?a <=? ?b)%Z] => destruct (Z.leb_spec a b)
         end; simpl in *; try reflexivity; try lia; try discriminate.
Qed.

Lemma FormatUint_inv (u : Z) :
  (0 <= u <= 999)%Z ->
  all_in class_digit (FormatUint u) = true /\
  nonempty (FormatUint u) = true /\
  (1 <= String.length (FormatUint u) <= 3)%nat /\
  next_not_in class_space (FormatUint u) = true.
Proof.
  intros Hu. unfold FormatUint.
  assert (Hd : all_in class_digit (formatBits 20 u "") = true)
    by (apply formatBits_digits; lia).
  assert (Hn : nonempty (formatBits 20 u "") = true)
    by apply formatBits_nonempty.
  repeat split; try assumption.
  - now apply nonempty_length.
  - apply formatBits_length; [|simpl; lia|lia].
    change (10 ^ Z.of_nat 20)%Z with 100000000000000000000%Z. lia.
  - destruct (formatBits 20 u "") as [|c s]; [reflexivity|]. simpl in *.
    apply andb_true_iff in Hd. destruct Hd as [Hc _].
    unfold cc_mem, class_digit, class_space, in_range in *; simpl in *.
    repeat match goal with
           | |- context [(?a <=? ?b)%Z] => destruct (Z.leb_spec a b)
           end; simpl in *; try reflexivity; try lia; try discriminate.
Qed.

Ltac step_lit :=
  cbn -[match_repeat String.length Nat.add Nat.sub substring String.append].

Ltac rep_max w :=
  eapply (match_repeat_max _ w);
  [ try assumption; try reflexivity
  | try (simpl; lia)
  | try (simpl; lia); try exact I
  | first [ now (vm_compute; reflexivity) | now (apply next_not_in_app; assumption) ]
  | step_lit ].

Ltac head_line :=
  cbn [re_ast PluginVersionRegex]; cbn [String.append]; step_lit;
  rep_max ""; match goal with H : all_in class_word ?key = true |- context [?key +:+ String "-" _] => rep_max key end.

Ltac tail_line gov Hglen :=
  rep_max " "; rep_max " ";
  repeat match goal with
         | |- match_repeat _ _ _ _ (String " " _) _ _ = _ => rep_max " "
         | |- match_repeat _ _ None _ (gov +:+ _) _ _ = _ => fail 1
         | |- match_repeat _ _ _ _ (?w +:+ _) _ _ = _ => rep_max w
         end;
  eapply (match_repeat_back_one _ gov);
  [ assumption | reflexivity | exact Hglen | reflexivity | ];
  step_lit; reflexivity.

Lemma capture_eq3 (n : nat) (a b c rest : string) :
  n = (String.length a + 1 + String.length b + 1 + String.length c)%nat ->
  substring 0 n (a +:+ String "." (b +:+ String "." (c +:+ rest)))
  = a +:+ "." +:+ b +:+ "." +:+ c.
Proof.
  intros ->.
  replace (a +:+ String "." (b +:+ String "." (c +:+ rest)))
    with ((a +:+ "." +:+ b +:+ "." +:+ c) +:+ rest)
    by (now rewrite !string_app_assoc).
  apply capture_eq. rewrite !string_length_app. simpl. lia.
Qed.

Ltac caps_line :=
  repeat split;
  first [ apply capture_eq3; simpl; lia
        | apply capture_eq; simpl; lia
        | apply (capture_eq _ "checker"); simpl; lia
        | apply (capture_eq _ "metrics"); simpl; lia
        | apply (capture_eq _ "metadata"); simpl; lia ].

Lemma version_line_submatch (m : Meta) :
  Meta_parsable m ->
  exists d0 : string,
    FindStringSubmatch PluginVersionRegex (Meta_String m)
    = [d0; Key m; Type_ m; Version_String (Version_ m); Revision m; GOOS m;
       GOARCH m; GOVersion m].
Proof.
  intros (Hkey & Htype & (Hma & Hmi & Hpa) & Hrev & Hos & Harch & Hgne & Hgall & Hgsp).
  destruct m as [key ty [ma mi pa] rev os arch gov]; simpl in *.
  apply word_inv in Hkey, Hrev, Hos, Harch.
  apply FormatUint_inv in Hma, Hmi, Hpa.
  destruct Hkey as (Hk1 & Hk2 & Hk3 & Hk4).
  destruct Hrev as (Hr1 & Hr2 & Hr3 & Hr4).
  destruct Hos as (Ho1 & Ho2 & Ho3 & Ho4).
  destruct Harch as (Ha1 & Ha2 & Ha3 & Ha4).
  destruct Hma as (Hma1 & Hma2 & Hma3 & Hma4).
  destruct Hmi as (Hmi1 & Hmi2 & Hmi3 & Hmi4).
  destruct Hpa as (Hpa1 & Hpa2 & Hpa3 & Hpa4).
  pose proof (nonempty_length _ Hgne) as Hglen.
  unfold FindStringSubmatch.
  enough (exists cs,
    match_here (re_ast PluginVersionRegex) 0
      (Meta_String (mkMeta key ty (mkVersion ma mi pa) rev os arch gov)) = Some cs /\
    get_capture 1 cs = key /\ get_capture 2 cs = ty /\
    get_capture 3 cs = Version_String (mkVersion ma mi pa) /\
    get_capture 4 cs = rev /\ get_capture 5 cs = os /\
    get_capture 6 cs = arch /\ get_capture 7 cs = gov) as (cs & Hm & H1 & H2 & H3 & H4 & H5 & H6 & H7).
  { destruct (Meta_String _) eqn:E; cbn [search]; rewrite Hm;
      cbn [map seq re_ngroups PluginVersionRegex];
      rewrite H1, H2, H3, H4, H5, H6, H7; eexists; reflexivity. }
  unfold match_here, Meta_String, Version_String, PLUGIN_PREFIX.
  cbn [Key Type_ Version_ Revision GOOS GOARCH GOVersion Major Minor Patch].
  set (fa := FormatUint ma) in *; clearbody fa.
  set (fb := FormatUint mi) in *; clearbody fb.
  set (fc := FormatUint pa) in *; clearbody fc.
  rewrite !string_app_assoc.
  destruct Htype as [-> | [-> | ->]];
    unfold TypeChecker, TypeMetrics, TypeMetadata; eexists; split.
  - head_line. apply first_some. tail_line gov Hglen.
  - cbn [get_capture Nat.eqb]. caps_line.
  - head_line. apply first_some. tail_line gov Hglen.
  - cbn [get_capture Nat.eqb]. caps_line.
  - head_line. tail_line gov Hglen.
  - cbn [get_capture Nat.eqb]. caps_line.
Qed.

(** C3 (as amended). For every Meta whose key, revision, OS and
    architecture are non-empty words over [0-9A-Za-z_], whose type is
    checker, metrics or metadata, whose version components are at most 999
    and whose runtime version is non-empty, has no newline and does not
    start with white space, ParseVersionCommand applied to the canonical
    line returns that Meta. *)
Theorem ParseVersionCommand_roundtrip (m : Meta) :
  Meta_parsable m -> ParseVersionCommand (Meta_String m) = m.
Proof.
  intros H. destruct (version_line_submatch m H) as [d0 E].
  unfold ParseVersionCommand. rewrite E.
  destruct H as (_ & _ & (Ha & Hb & Hc) & _).
  destruct m as [key ty [ma mi pa] rev os arch gov]. cbn in *.
  unfold Version_String. cbn [Major Minor Patch].
  rewrite ParseVersion_digits by (unfold is_uint32; lia).
  reflexivity.
Qed.

Lemma ParseVersionCommand_roundtrip_witness :
  ParseVersionCommand
    (Meta_String (mkMeta "redis" TypeMetrics (mkVersion 0 71 2) "923088e2"
                         "windows" "amd64" "go1.16.5"))
  = mkMeta "redis" TypeMetrics (mkVersion 0 71 2) "923088e2"
           "windows" "amd64" "go1.16.5".
Proof.
  apply ParseVersionCommand_roundtrip.
  unfold Meta_parsable; simpl.
  repeat split; try reflexivity; try lia.
  right; left; reflexivity.
Defined.

(** C3 (as stated) fails: a version component of four digits, which
    ParseVersion itself accepts, and a key with a hyphen are both outside
    the fixed pattern, and the parser answers with the empty Meta. *)
Lemma ParseVersionCommand_not_inverse :
  let m1 := mkMeta "redis" TypeMetrics (mkVersion 1212 34 1212) "dev"
                   "linux" "amd64" "go1.16.5" in
  let m2 := mkMeta "my-app" TypeChecker (mkVersion 0 0 1) "dev"
                   "linux" "amd64" "go1.16.5" in
  Version_wf (Version_ m1) /\
  (ParseVersionCommand (Meta_String m1) = Meta_zero) /\
  (ParseVersionCommand (Meta_String m1) <> m1) /\
  (ParseVersionCommand (Meta_String m2) = Meta_zero) /\
  (ParseVersionCommand (Meta_String m2) <> m2).
Proof.
  simpl. repeat split; try (vm_compute; reflexivity);
    try (unfold is_uint32; simpl; lia);
    vm_compute; discriminate.
Qed.

(* ===================================================================== *)
(** ** State Store *)
(* ===================================================================== *)

Lemma Sub_lt_Second (t u : Time) :
  (Sub t u <? Second)%Z = (nanos t - nanos u <? Second)%Z.
Proof.
  unfold Sub, Second, minDuration, maxDuration.
  change (2 ^ 63)%Z with 9223372036854775808%Z.
  set (d := (nanos t - nanos u)%Z).
  destruct (Z.ltb_spec d (Z.opp 9223372036854775808)) as [H1|H1];
    [|destruct (Z.ltb_spec (9223372036854775808 - 1) d) as [H2|H2]];
    destruct (Z.ltb_spec d 1000000000) as [H3|H3];
    try lia;
    first [ apply Z.ltb_lt; lia | apply Z.ltb_ge; lia ].
Qed.

Section StateStore.

Variable conv_overflow : float64 -> Z.

Lemma loadLastValuesSafe_loaded (now : Time) (w : world) (m : PluginValues) :
  LoadLastValues conv_overflow w = (m, None) ->
  loadLastValuesSafe conv_overflow now w
  = if (nanos now - nanos (Timestamp m) <? Second)%Z
    then (m, Some errStateUpdated) else (m, None).
Proof.
  intros H. unfold loadLastValuesSafe. rewrite H.
  now rewrite Sub_lt_Second.
Qed.

Lemma loadLastValuesSafe_load_error (now : Time) (w : world)
    (m : PluginValues) (e : error) :
  LoadLastValues conv_overflow w = (m, Some e) ->
  loadLastValuesSafe conv_overflow now w = (m, Some e).
Proof. intros H. unfold loadLastValuesSafe. now rewrite H. Qed.

Lemma LoadLastValues_never_stale (w : world) :
  snd (LoadLastValues conv_overflow w) <> Some errStateUpdated.
Proof.
  unfold LoadLastValues.
  destruct (w_file w) as [| |[doc|]]; simpl; discriminate.
Qed.

End StateStore.

(** C6. When the state loads, the guarded load fails with the
    recently-updated error exactly when [now] is less than one second
    after the stored timestamp, and otherwise returns the loaded
    observation set without error. *)
Theorem loadLastValuesSafe_stale_iff (conv_overflow : float64 -> Z)
    (now : Time) (w : world) (m : PluginValues) :
  LoadLastValues conv_overflow w = (m, None) ->
  (snd (loadLastValuesSafe conv_overflow now w) = Some errStateUpdated
   <-> (nanos now - nanos (Timestamp m) < Second)%Z) /\
  ((Second <= nanos now - nanos (Timestamp m))%Z ->
   loadLastValuesSafe conv_overflow now w = (m, None)) /\
  ((nanos now - nanos (Timestamp m) < Second)%Z ->
   loadLastValuesSafe conv_overflow now w = (m, Some errStateUpdated)).
Proof.
  intros H. rewrite (loadLastValuesSafe_loaded _ _ _ _ H).
  destruct (Z.ltb_spec (nanos now - nanos (Timestamp m)) Second) as [Hlt|Hge];
    simpl; repeat split; intros; try reflexivity; try lia; try discriminate.
Qed.

Lemma loadLastValuesSafe_stale_iff_witness :
  let w := mkWorld (FileData (Some {[ "_lastTime" := JInt 1700000000 ]}))
                   (mkConsole [] []) 0 in
  let conv := fun _ : float64 => 0%Z in
  snd (loadLastValuesSafe conv (mkTime 1700000000 500000000) w)
  = Some errStateUpdated /\
  snd (loadLastValuesSafe conv (mkTime 1700000001 500000000) w) = None.
Proof.
  intros w conv.
  assert (Hload : LoadLastValues conv w = (fst (LoadLastValues conv w), None))
    by (vm_compute; reflexivity).
  split.
  - rewrite (proj2 (proj2 (loadLastValuesSafe_stale_iff conv
               (mkTime 1700000000 500000000) w _ Hload))); [reflexivity|].
    vm_compute. reflexivity.
  - rewrite (proj1 (proj2 (loadLastValuesSafe_stale_iff conv
               (mkTime 1700000001 500000000) w _ Hload))); [reflexivity|].
    vm_compute. discriminate.
Defined.

(* ===================================================================== *)
(** ** Output Formatter: textual values *)
(* ===================================================================== *)

(** C7. A textual value that overflows the declared kind is logged, but
    the value that goes on is the maximum of the kind, which
    [strconv.ParseUint] returns together with its range error, and that
    maximum is printed; only a syntax error leaves 0. *)
Theorem formatValues_range_error_keeps_max
    (ParseFloat : string -> float64 * option error)
    (conv_overflow : float64 -> Z) :
  let meta := mkMeta "redis" TypeMetrics (mkVersion 0 0 1) "dev" "linux"
                     "amd64" "go1.16.5" in
  let metric := mkMetrics "conns" "" false metricTypeUint32 false F64.zero
                          false in
  let last := mkPluginValues ∅ zeroTime in
  let run s :=
    snd (formatValues ParseFloat conv_overflow meta "" metric
           (mkPluginValues {[ "conns" := VString s ]} (time_Unix 1700000000))
           last (mkConsole [] [])) in
  run "4294967296"
  = mkConsole [OutLine "redis.conns" (VUint64 4294967295) 1700000000]
              [LogParsing errRange] /\
  run "12x"
  = mkConsole [OutLine "redis.conns" (VUint64 0) 1700000000]
              [LogParsing errSyntax].
Proof. split; vm_compute; reflexivity. Qed.

(* ===================================================================== *)
(** ** The metadata cycle, twice *)
(* ===================================================================== *)

(** C1 (as stated) fails: half a second after a first cycle that wrote the
    state, the second cycle is stopped by the staleness guard before it
    prints, so its standard output is empty and differs from the first. *)
Lemma metadata_twice_second_prints_nothing :
  let conv := fun _ : float64 => 0%Z in
  let md : gmap string value := {[ "name" := VString "x" ]} in
  let w0 := mkWorld FileAbsent (mkConsole [] []) 0 in
  let r1 := OutputMetadataValues conv (Some (md, None))
              (mkTime 1700000000 0) w0 in
  let w1 := with_console (mkConsole [] []) (fst r1) in
  let r2 := OutputMetadataValues conv (Some (md, None))
              (mkTime 1700000000 500000000) w1 in
  w_writes (fst r1) = 1%nat /\ w_writes (fst r2) = 1%nat /\
  (exists doc, stdout (w_console (fst r1)) = [OutJSON doc]) /\
  stdout (w_console (fst r2)) = [] /\
  stdout (w_console (fst r1)) <> stdout (w_console (fst r2)).
Proof.
  repeat split; try (vm_compute; reflexivity).
  - eexists. vm_compute. reflexivity.
  - vm_compute. discriminate.
Qed.

Lemma encode_map_insert (m : gmap string value) (doc : gmap string json)
    (k : string) (v : value) (j : json) :
  encode_map m = Some doc -> encode_value v = Some j ->
  encode_map (<[k := v]> m) = Some (<[k := j]> doc).
Proof.
  unfold encode_map. intros Hm Hv.
  case_bool_decide as Hall; [|discriminate]. inversion Hm; subst doc.
  rewrite bool_decide_eq_true_2.
  - f_equal. now apply omap_insert_Some.
  - apply map_Forall_insert_2; [rewrite Hv; eauto | assumption].
Qed.

Section MetadataCycle.

Variable conv_overflow : float64 -> Z.

Lemma float_to_int64_of_Z (z : Z) :
  (- 2 ^ 53 < z < 2 ^ 53)%Z -> float_to_int64 conv_overflow (F64.of_Z z) = z.
Proof.
  intros Hz. unfold float_to_int64. rewrite trunc_of_Z by assumption.
  destruct (Z.leb_spec (- 2 ^ 63) z); [|lia].
  destruct (Z.ltb_spec z (2 ^ 63)); [reflexivity | lia].
Qed.

(** What a later cycle loads after [SaveValues] has written the file. *)
Lemma LoadLastValues_after_SaveValues (values : PluginValues) (w : world)
    (vals : gmap string value) (w' : world) :
  SaveValues values w = (vals, w', None) ->
  (- 2 ^ 53 < Unix (Timestamp values) < 2 ^ 53)%Z ->
  forall c : console,
  exists m : PluginValues,
    LoadLastValues conv_overflow (with_console c w') = (m, None) /\
    Timestamp m = time_Unix (Unix (Timestamp values)) /\
    w_writes w' = S (w_writes w).
Proof.
  unfold SaveValues. intros Hsave Hts c.
  destruct (w_file w) as [| |fd] eqn:Ef; try discriminate;
    destruct (encode_map _) as [doc|] eqn:Ee; try discriminate;
    inversion Hsave; subst; clear Hsave;
    unfold LoadLastValues; cbn [with_console w_file w_writes];
    eexists; (split; [reflexivity|]); cbn [Timestamp];
    (split; [|reflexivity]).
  all: unfold encode_map in Ee; case_bool_decide; [|discriminate];
    inversion Ee; subst doc; unfold decode_map;
    rewrite lookup_fmap, lookup_omap, lookup_insert_eq; cbn;
    now rewrite float_to_int64_of_Z.
Qed.

End MetadataCycle.

Lemma nanos_time_Unix (z : Z) : nanos (time_Unix z) = (z * Second)%Z.
Proof. unfold nanos, time_Unix; simpl. lia. Qed.

(** C1 (as amended). When the first metadata cycle wrote the state file
    and the second one starts less than one second after the whole-second
    timestamp that was stored, the second cycle is stopped by the staleness
    guard: it prints nothing and writes nothing, so that there is exactly
    one write and the metadata map is printed as JSON by the first cycle
    only. *)
Theorem metadata_twice_one_write (conv_overflow : float64 -> Z)
    (metadata : gmap string value) (now1 now2 : Time) (w0 : world) :
  let r1 := OutputMetadataValues conv_overflow (Some (metadata, None)) now1 w0 in
  let w1 := with_console (mkConsole [] []) (fst r1) in
  let r2 := OutputMetadataValues conv_overflow (Some (metadata, None)) now2 w1 in
  w_writes (fst r1) = S (w_writes w0) ->
  (- 2 ^ 53 < Unix now1 < 2 ^ 53)%Z ->
  (nanos now2 - Unix now1 * Second < Second)%Z ->
  (exists doc, encode_map metadata = Some doc /\
               stdout (w_console (fst r1))
               = (stdout (w_console w0) ++ [OutJSON doc])%list) /\
  r2 = (w1, ExitOK) /\
  stdout (w_console (fst r2)) = [] /\
  w_writes (fst r2) = S (w_writes w0).
Proof.
  intros r1 w1 r2 Hwrite Hts Hsoon.
  assert (Hr1 : exists doc w',
             encode_map metadata = Some doc /\ fst r1 = w' /\
             w_console w' = print (OutJSON doc) (w_console w0) /\
             w_writes w' = S (w_writes w0) /\
             exists m, LoadLastValues conv_overflow
                         (with_console (mkConsole [] []) w') = (m, None) /\
                       Timestamp m = time_Unix (Unix now1)).
  { clear r2 w1. subst r1. unfold OutputMetadataValues in *.
    destruct (loadLastValuesSafe conv_overflow now1 w0) as [pre err].
    case_bool_decide; [simpl in Hwrite; lia|].
    destruct (encode_map metadata) as [doc|] eqn:Ee; [|simpl in Hwrite; lia].
    destruct (DeepEqual _ _); [simpl in Hwrite; lia|].
    cbn [fst snd] in *.
    set (vals := <["_lastTime" := default VNil (Values pre !! "_lastTime")]> metadata) in *.
    set (wp := with_console (print (OutJSON doc) (w_console w0)) w0) in *.
    assert (Henc : encode_map (<["_lastTime" := VInt64 (Unix now1)]> vals)
                   = Some (<["_lastTime" := JInt (Unix now1)]> doc)).
    { unfold vals. rewrite insert_insert_eq. now apply encode_map_insert. }
    destruct (SaveValues (mkPluginValues vals now1) wp) as [[vals' w'] e] eqn:Es.
    cbn [fst snd] in *.
    exists doc, w'. split; [reflexivity|]. split; [reflexivity|].
    assert (He : e = None /\ w_console w' = w_console wp /\
                 w_writes w' = S (w_writes wp)).
    { unfold SaveValues in Es. cbn [Values Timestamp] in Es.
      rewrite Henc in Es.
      destruct (w_file wp) eqn:Ef; inversion Es; subst; cbn;
        try (repeat split; reflexivity).
      subst wp. cbn in Hwrite. lia. }
    destruct He as (-> & Hc & Hn).
    split; [exact Hc|]. split; [rewrite Hn; reflexivity|].
    destruct (LoadLastValues_after_SaveValues conv_overflow _ _ _ _ Es Hts
                (mkConsole [] [])) as (m & Hload & Hstamp & _).
    exists m. split; assumption. }
  destruct Hr1 as (doc & w' & Hdoc & Hw' & Hcons & Hcount & m & Hload & Hstamp).
  assert (Hr2 : r2 = (w1, ExitOK)).
  { subst r2 w1. rewrite Hw'. unfold OutputMetadataValues.
    rewrite (loadLastValuesSafe_loaded _ _ _ _ Hload).
    rewrite Hstamp, nanos_time_Unix.
    rewrite (proj2 (Z.ltb_lt _ _) Hsoon).
    now rewrite bool_decide_eq_true_2. }
  split; [|split; [exact Hr2|]].
  - exists doc. split; [assumption|]. rewrite Hw', Hcons. reflexivity.
  - rewrite Hr2. subst w1. rewrite Hw'.
    cbn [fst with_console w_console stdout w_writes].
    split; [reflexivity | exact Hcount].
Qed.

Lemma metadata_twice_one_write_witness :
  let conv := fun _ : float64 => 0%Z in
  let md : gmap string value := {[ "name" := VString "x" ]} in
  let w0 := mkWorld FileAbsent (mkConsole [] []) 0 in
  let r1 := OutputMetadataValues conv (Some (md, None))
              (mkTime 1700000000 900000000) w0 in
  let w1 := with_console (mkConsole [] []) (fst r1) in
  OutputMetadataValues conv (Some (md, None)) (mkTime 1700000000 950000000) w1
  = (w1, ExitOK).
Proof.
  intros conv md w0 r1 w1.
  refine (proj1 (proj2 (metadata_twice_one_write conv md
            (mkTime 1700000000 900000000) (mkTime 1700000000 950000000)
            w0 _ _ _))).
  - vm_compute. reflexivity.
  - simpl. lia.
  - vm_compute. reflexivity.
Defined.

(* ===================================================================== *)
(** ** Wildcard expansion *)
(* ===================================================================== *)

Lemma ReplaceAll_byte (a : ascii) (new s : string) :
  ReplaceAll s (String a "") new = subst_byte a new s.
Proof.
  unfold ReplaceAll. induction s as [|c s IH]; [reflexivity|].
  cbn [Replace_from strip_prefix subst_byte].
  destruct (Ascii.eqb a c); cbn [String.length Nat.sub]; now rewrite IH.
Qed.

Lemma subst_byte_app (a : ascii) (new x y : string) :
  subst_byte a new (x +:+ y) = subst_byte a new x +:+ subst_byte a new y.
Proof.
  induction x as [|c x IH]; [reflexivity|].
  change (String c x +:+ y) with (String c (x +:+ y)).
  cbn [subst_byte]. rewrite IH.
  destruct (Ascii.eqb a c); [now rewrite string_app_assoc | reflexivity].
Qed.

Lemma is_meta_false (c : ascii) :
  is_meta c = false ->
  Ascii.eqb c "\" = false /\ Ascii.eqb c "." = false /\
  Ascii.eqb c "+" = false /\ Ascii.eqb c "*" = false /\
  Ascii.eqb c "?" = false /\ Ascii.eqb c "(" = false /\
  Ascii.eqb c ")" = false /\ Ascii.eqb c "|" = false /\
  Ascii.eqb c "[" = false /\ Ascii.eqb c "{" = false /\
  Ascii.eqb c "^" = false /\ Ascii.eqb c "$" = false.
Proof.
  unfold is_meta. cbn [list_ascii_of_string existsb].
  intros H. repeat (apply orb_false_iff in H; destruct H as [? H]).
  repeat split; assumption.
Qed.

(** The three cases of a byte of a wildcard pattern. *)
Lemma wildcard_byte_cases (c : ascii) :
  wildcard_byte c = true ->
  c = "."%char \/ is_wild c = true \/
  (is_meta c = false /\ is_wild c = false /\ Ascii.eqb c "." = false).
Proof.
  unfold wildcard_byte. intros H.
  destruct (Ascii.eqb c ".") eqn:Hd; [left; now apply Ascii.eqb_eq|].
  destruct (is_wild c) eqn:Ew; [now right; left|].
  right; right. simpl in H. apply negb_true_iff in H. auto.
Qed.

Lemma is_wild_inv (c : ascii) :
  is_wild c = true -> c = "*"%char \/ c = "#"%char.
Proof.
  unfold is_wild. intros H. apply orb_true_iff in H.
  destruct H as [H|H]; apply Ascii.eqb_eq in H; auto.
Qed.

Lemma eqb_sym_false (a b : ascii) : Ascii.eqb a b = false -> Ascii.eqb b a = false.
Proof. rewrite Ascii.eqb_sym. trivial. Qed.

(** The pattern string after the three replacements. *)
Lemma wildcard_sources (pat : string) :
  wildcard_pattern pat = true ->
  subst_byte "#" "[-a-zA-Z0-9_]+"
    (subst_byte "*" "[-a-zA-Z0-9_]+" (subst_byte "." "\." pat))
  = wild_sources pat.
Proof.
  induction pat as [|c pat IH]; [reflexivity|].
  cbn [wildcard_pattern]. intros H. apply andb_true_iff in H.
  destruct H as [Hc Hp]. specialize (IH Hp).
  cbn [wild_sources]. rewrite <- IH.
  destruct (wildcard_byte_cases c Hc) as [->|[Hw|(Hm & Hw & Hd)]].
  - cbn. reflexivity.
  - destruct (is_wild_inv c Hw) as [->| ->]; cbn;
      rewrite ?subst_byte_app; reflexivity.
  - unfold wild_source. rewrite Hd, Hw.
    unfold is_wild in Hw. apply orb_false_iff in Hw. destruct Hw as [Hs Hh].
    cbn [subst_byte].
    rewrite (eqb_sym_false _ _ Hd). cbn [subst_byte].
    rewrite (eqb_sym_false _ _ Hs). cbn [subst_byte].
    rewrite (eqb_sym_false _ _ Hh). reflexivity.
Qed.

Lemma wildcard_regexpStr_sources (prefix : string) (metric : Metrics) :
  wildcard_pattern (prefix +:+ "." +:+ Name metric) = true ->
  wildcard_regexpStr prefix metric
  = "\A" +:+ wild_sources (prefix +:+ "." +:+ Name metric).
Proof.
  intros H. unfold wildcard_regexpStr. rewrite !ReplaceAll_byte.
  change ("\A" +:+ prefix +:+ "." +:+ Name metric)
    with (String "\" (String "A" (prefix +:+ "." +:+ Name metric))).
  cbn [subst_byte Ascii.eqb Bool.eqb]. cbn.
  now rewrite wildcard_sources.
Qed.

Lemma step_normal_plain (c : ascii) (st : pstate) :
  is_meta c = false -> step_normal c st = Some (push_piece (RChar c) st).
Proof.
  intros H. pose proof (is_meta_false c H) as
    (H1 & H2 & H3 & H4 & H5 & H6 & H7 & H8 & H9 & H10 & H11 & H12).
  unfold step_normal.
  now rewrite H1, H9, H2, H11, H4, H3, H10, H6, H7, H8, H.
Qed.

(** The parser on the text of a wildcard pattern: one piece per byte. *)
Lemma parse_loop_wild_sources (pat : string) :
  wildcard_pattern pat = true ->
  forall (stack : list frame) (alts seq : list regex) (n : nat) (rest : string),
  parse_loop (mkPstate MNormal stack alts seq n) (wild_sources pat +:+ rest)
  = parse_loop (mkPstate MNormal stack alts
                  (rev (wild_pieces pat) ++ seq)%list n) rest.
Proof.
  induction pat as [|c pat IH]; intros H stack alts seq n rest; [reflexivity|].
  cbn [wildcard_pattern] in H. apply andb_true_iff in H. destruct H as [Hc Hp].
  cbn [wild_sources wild_pieces rev]. rewrite string_app_assoc.
  rewrite <- app_assoc. cbn [app].
  destruct (wildcard_byte_cases c Hc) as [->|[Hw|(Hm & Hw & Hd)]].
  - cbn. apply IH. assumption.
  - destruct (is_wild_inv c Hw) as [->| ->]; cbn; apply IH; assumption.
  - unfold wild_source, wild_piece. rewrite Hd, Hw.
    cbn [String.append parse_loop step ps_mode].
    rewrite step_normal_plain by assumption.
    apply IH. assumption.
Qed.

Lemma Compile_wild_sources (pat : string) :
  wildcard_pattern pat = true ->
  Compile ("\A" +:+ wild_sources pat)
  = Some (mkRegexp (mk_cat_list (RBeginText :: wild_pieces pat)) 0).
Proof.
  intros H. unfold Compile.
  change (parse_loop (mkPstate MNormal [] [] [] 0) ("\A" +:+ wild_sources pat))
    with (parse_loop (mkPstate MNormal [] [] [RBeginText] 0) (wild_sources pat)).
  rewrite <- (string_app_nil_r (wild_sources pat)).
  rewrite parse_loop_wild_sources by assumption.
  cbn [parse_loop]. unfold close_alts. cbn [rev app mk_alt_list].
  rewrite rev_app_distr, rev_involutive. reflexivity.
Qed.

Lemma Compile_wildcard (prefix : string) (metric : Metrics) :
  wildcard_pattern (prefix +:+ "." +:+ Name metric) = true ->
  Compile (wildcard_regexpStr prefix metric)
  = Some (mkRegexp
            (mk_cat_list
               (RBeginText :: wild_pieces (prefix +:+ "." +:+ Name metric)))
            0).
Proof.
  intros H. rewrite wildcard_regexpStr_sources by assumption.
  now apply Compile_wild_sources.
Qed.

(** *** The matcher on the pieces of a wildcard pattern *)

Lemma rmatch_cat_cons (r : regex) (l : list regex) (pos : nat) (s : string)
    (cs : captures) (kont : cont) :
  rmatch (mk_cat_list (r :: l)) pos s cs kont
  = rmatch r pos s cs
      (fun pos' s' cs' => rmatch (mk_cat_list l) pos' s' cs' kont).
Proof. destruct l; reflexivity. Qed.

Lemma match_repeat_unbounded (k : cclass) (s : string) :
  forall (lo pos : nat) (cs : captures) (kont : cont),
  is_Some (match_repeat k lo None pos s cs kont) <->
  exists u rest : string,
    s = u +:+ rest /\ (lo <= String.length u)%nat /\ all_in k u = true /\
    is_Some (kont (pos + String.length u)%nat rest cs).
Proof.
  induction s as [|c s IH]; intros lo pos cs kont.
  - cbn [match_repeat]. split.
    + intros H. exists "", "". destruct lo; [|now destruct H].
      rewrite Nat.add_0_r. repeat split; auto.
    + intros (u & rest & Hs & Hlo & _ & Hk).
      destruct u; [|discriminate]. destruct rest; [|discriminate].
      simpl in Hlo. assert (lo = 0%nat) as -> by lia.
      now rewrite Nat.add_0_r in Hk.
  - cbn [match_repeat]. rewrite bool_decide_eq_false_2 by discriminate.
    cbn [negb]. rewrite andb_true_r.
    change (Nat.pred <$> (@None nat)) with (@None nat).
    split.
    + intros H. destruct (cc_mem k c) eqn:Ec.
      * destruct (match_repeat k (Nat.pred lo) None (S pos) s cs kont)
          as [r|] eqn:Er.
        -- assert (Hs : is_Some (match_repeat k (Nat.pred lo) None (S pos) s cs kont))
             by (rewrite Er; eauto).
           apply IH in Hs. destruct Hs as (u & rest & -> & Hlo & Hall & Hk).
           exists (String c u), rest. simpl. rewrite Ec, Hall.
           rewrite Nat.add_succ_r. repeat split; auto. lia.
        -- destruct lo; [|now destruct H].
           exists "", (String c s). rewrite Nat.add_0_r. repeat split; auto.
      * destruct lo; [|now destruct H].
        exists "", (String c s). rewrite Nat.add_0_r. repeat split; auto.
    + intros (u & rest & Hs & Hlo & Hall & Hk).
      destruct u as [|x u].
      * simpl in Hs, Hlo. subst rest. assert (lo = 0%nat) as -> by lia.
        rewrite Nat.add_0_r in Hk.
        destruct (cc_mem k c); [|exact Hk].
        destruct (match_repeat _ _ _ _ _ _ _); [eauto | exact Hk].
      * change (String x u +:+ rest) with (String x (u +:+ rest)) in Hs.
        inversion Hs; subst x s. simpl in Hall.
        apply andb_true_iff in Hall. destruct Hall as [Hc Hall].
        rewrite Hc.
        assert (Hrec : is_Some (match_repeat k (Nat.pred lo) None (S pos)
                                  (u +:+ rest) cs kont)).
        { apply IH. exists u, rest. repeat split; auto.
          - simpl in Hlo. lia.
          - simpl in Hk. now rewrite Nat.add_succ_r in Hk. }
        destruct Hrec as [r Hr]. rewrite Hr. eauto.
Qed.

Lemma wild_match_inv_byte (c : ascii) (pat w : string) :
  is_wild c = false -> wild_match (String c pat) w ->
  exists w', w = String c w' /\ wild_match pat w'.
Proof.
  intros Hc H. inversion H; subst; [eauto | congruence].
Qed.

Lemma wild_match_inv_wild (c : ascii) (pat w : string) :
  is_wild c = true -> wild_match (String c pat) w ->
  exists u w', w = u +:+ w' /\ nonempty u = true /\
               all_in class_wild u = true /\ wild_match pat w'.
Proof.
  intros Hc H. inversion H; subst; [congruence | eauto 7].
Qed.

(** The pieces of a pattern match exactly the texts that begin with an
    instance of it. *)
Lemma rmatch_wild_pieces (pat : string) :
  forall (pos : nat) (s : string) (cs : captures) (kont : cont),
  is_Some (rmatch (mk_cat_list (wild_pieces pat)) pos s cs kont) <->
  exists w rest : string,
    s = w +:+ rest /\ wild_match pat w /\
    is_Some (kont (pos + String.length w)%nat rest cs).
Proof.
  induction pat as [|c pat IH]; intros pos s cs kont.
  - cbn [wild_pieces mk_cat_list rmatch]. split.
    + intros H. exists "", s. rewrite Nat.add_0_r.
      repeat split; [constructor | assumption].
    + intros (w & rest & -> & Hw & Hk). inversion Hw; subst.
      now rewrite Nat.add_0_r in Hk.
  - cbn [wild_pieces]. rewrite rmatch_cat_cons. unfold wild_piece.
    destruct (is_wild c) eqn:Ew.
    + cbn [rmatch]. rewrite match_repeat_unbounded. split.
      * intros (u & rest & -> & Hlo & Hall & Hk).
        apply IH in Hk. destruct Hk as (w & rest' & -> & Hw & Hk).
        exists (u +:+ w), rest'. rewrite string_app_assoc.
        split; [reflexivity|]. split.
        -- apply wild_match_wild; auto. destruct u; [simpl in Hlo; lia | reflexivity].
        -- now rewrite string_length_app, Nat.add_assoc.
      * intros (w & rest & -> & Hw & Hk).
        destruct (wild_match_inv_wild _ _ _ Ew Hw) as (u & w' & -> & Hne & Hall & Hw').
        exists u, (w' +:+ rest). rewrite string_app_assoc.
        split; [reflexivity|]. split; [now apply nonempty_length|].
        split; [assumption|]. apply IH. exists w', rest.
        repeat split; auto.
        now rewrite string_length_app, Nat.add_assoc in Hk.
    + cbn [rmatch]. split.
      * intros H. destruct s as [|x s]; [now destruct H|].
        destruct (Ascii.eqb_spec c x) as [<-|]; [|now destruct H].
        apply IH in H. destruct H as (w & rest & -> & Hw & Hk).
        exists (String c w), rest. simpl. rewrite Nat.add_succ_r.
        repeat split; auto. now constructor.
      * intros (w & rest & -> & Hw & Hk).
        destruct (wild_match_inv_byte _ _ _ Ew Hw) as (w' & -> & Hw').
        change (String c w' +:+ rest) with (String c (w' +:+ rest)).
        cbv beta iota. rewrite Ascii.eqb_refl. apply IH. exists w', rest.
        repeat split; auto. simpl in Hk. now rewrite Nat.add_succ_r in Hk.
Qed.

(** An expression that starts with the beginning-of-text assertion can
    match at offset 0 only. *)
Lemma search_begin_text (ps : list regex) (s : string) :
  forall pos : nat, search (mk_cat_list (RBeginText :: ps)) (S pos) s = None.
Proof.
  induction s as [|c s IH]; intros pos; cbn [search]; unfold match_here;
    rewrite rmatch_cat_cons; cbn [rmatch Nat.eqb]; [reflexivity | apply IH].
Qed.

Lemma MatchString_wildcard (pat k : string) :
  MatchString (mkRegexp (mk_cat_list (RBeginText :: wild_pieces pat)) 0) k = true
  <-> begins_with_match pat k.
Proof.
  unfold MatchString, begins_with_match. cbn [re_ast].
  set (final := fun (pos' : nat) (_ : string) (cs : captures) =>
                  Some ((0%nat, substring 0 (pos' - 0) k) :: cs)).
  assert (Hiff : is_Some (match_here (mk_cat_list (RBeginText :: wild_pieces pat)) 0 k)
                 <-> exists w rest, k = w +:+ rest /\ wild_match pat w).
  { unfold match_here. rewrite rmatch_cat_cons. cbn [rmatch Nat.eqb].
    rewrite rmatch_wild_pieces. split.
    - intros (w & rest & ? & ? & _); eauto.
    - intros (w & rest & ? & ?). exists w, rest. repeat split; eauto. }
  assert (Hs : search (mk_cat_list (RBeginText :: wild_pieces pat)) 0 k
               = match_here (mk_cat_list (RBeginText :: wild_pieces pat)) 0 k).
  { destruct k; cbn [search];
      destruct (match_here _ _ _); try reflexivity.
    apply search_begin_text. }
  rewrite Hs, <- Hiff.
  destruct (match_here _ _ _); split; intros H; try reflexivity;
    try discriminate; eauto. now destruct H.
Qed.

Lemma with_name_inj (metric : Metrics) (a b : string) :
  with_name metric a = with_name metric b -> a = b.
Proof. intros H. now inversion H. Qed.

(** The concrete metrics are the observed keys that the compiled
    expression matches. *)
Lemma expandWildcard_members (prefix : string) (metric : Metrics)
    (vals : gmap string value) :
  wildcard_pattern (prefix +:+ "." +:+ Name metric) = true ->
  exists ms : list Metrics,
    expandWildcard prefix metric vals = Some ms /\
    forall k : string,
      with_name metric k ∈ ms <->
      (is_Some (vals !! k) /\
       MatchString
         (mkRegexp
            (mk_cat_list
               (RBeginText :: wild_pieces (prefix +:+ "." +:+ Name metric)))
            0) k = true).
Proof.
  intros Hpat. unfold expandWildcard.
  rewrite Compile_wildcard by assumption.
  eexists. split; [reflexivity|]. intros k.
  rewrite list_elem_of_fmap. split.
  - intros (k' & Hk & Hin). apply with_name_inj in Hk. subst k'.
    apply list_elem_of_filter in Hin. destruct Hin as [Hm Hin].
    apply list_elem_of_fmap in Hin. destruct Hin as ([k' v] & -> & Hin).
    apply elem_of_map_to_list in Hin. cbn [fst]. split; [eauto | exact Hm].
  - intros ([v Hv] & Hm). exists k. split; [reflexivity|].
    apply list_elem_of_filter. split; [exact Hm|].
    apply list_elem_of_fmap. exists (k, v). split; [reflexivity|].
    now apply elem_of_map_to_list.
Qed.






(** The loop of [formatValuesWithWildcard] is [formatValues] applied in
    turn to the concrete metrics of [expandWildcard]. *)
Lemma formatValuesWithWildcard_expand
    (ParseFloat : string -> float64 * option error)
    (conv_overflow : float64 -> Z) (meta : Meta)
    (prefix : string) (metric : Metrics)
    (metricValues lastMetricValues : PluginValues) (c : console) :
  formatValuesWithWildcard ParseFloat conv_overflow meta prefix metric
    metricValues lastMetricValues c
  = (fun ms =>
       foldl (fun st m =>
                formatValues ParseFloat conv_overflow meta "" m
                  (mkPluginValues (fst st) (Timestamp metricValues))
                  lastMetricValues (snd st))
             (Values metricValues, c) ms)
    <$> expandWildcard prefix metric (Values metricValues).
Proof.
  unfold formatValuesWithWildcard, expandWildcard, wildcard_loop.
  destruct (Compile _) as [re|]; [|reflexivity].
  cbn [fmap option_fmap option_map]. f_equal.
  generalize (Values metricValues, c).
  induction (fst <$> map_to_list (Values metricValues)) as [|k l IH];
    intros st; [reflexivity|].
  cbn [foldl]. rewrite filter_cons.
  destruct (decide (MatchString re k = true)) as [Hm|Hm].
  - rewrite Hm. cbn [fmap list_fmap foldl]. apply IH.
  - apply not_true_is_false in Hm. rewrite Hm. apply IH.
Qed.

(* ===================================================================== *)
(** * Further properties of the code *)
(* ===================================================================== *)

(* ===================================================================== *)
(** ** Version Model: order and parser *)
(* ===================================================================== *)

Lemma Version_eq (a b : Version) :
  Major a = Major b -> Minor a = Minor b -> Patch a = Patch b -> a = b.
Proof. destruct a, b; simpl; congruence. Qed.

(** X1. For any two versions exactly one of the following holds: the
    first is older than the second, they are equal, the second is older
    than the first. In particular LessThan is irreflexive and asymmetric,
    and two versions that are not ordered either way are equal. *)
Theorem LessThan_trichotomy (a b : Version) :
  (LessThan a b = true /\ a <> b /\ LessThan b a = false) \/
  (LessThan a b = false /\ a = b /\ LessThan b a = false) \/
  (LessThan a b = false /\ a <> b /\ LessThan b a = true).
Proof.
  unfold LessThan.
  destruct (Z.ltb_spec (Major a) (Major b));
    destruct (Z.ltb_spec (Major b) (Major a)); try lia;
    try (left; repeat split; [intros ->; lia]);
    try (right; right; repeat split; [intros ->; lia]).
  destruct (Z.ltb_spec (Minor a) (Minor b));
    destruct (Z.ltb_spec (Minor b) (Minor a)); try lia;
    try (left; repeat split; [intros ->; lia]);
    try (right; right; repeat split; [intros ->; lia]).
  destruct (Z.ltb_spec (Patch a) (Patch b));
    destruct (Z.ltb_spec (Patch b) (Patch a)); try lia;
    try (left; repeat split; [intros ->; lia]);
    try (right; right; repeat split; [intros ->; lia]).
  right; left. repeat split. apply Version_eq; lia.
Qed.

(** X2. LessThan is transitive. *)
Theorem LessThan_transitive (a b c : Version) :
  LessThan a b = true -> LessThan b c = true -> LessThan a c = true.
Proof.
  unfold LessThan.
  repeat match goal with
         | |- context [(?x <? ?y)%Z] => destruct (Z.ltb_spec x y)
         end; try discriminate; try reflexivity; try lia.
Qed.

Lemma LessThan_transitive_witness :
  LessThan (mkVersion 1 2 3) (mkVersion 2 0 0) = true.
Proof.
  apply (LessThan_transitive (mkVersion 1 2 3) (mkVersion 1 3 0)
                             (mkVersion 2 0 0)); reflexivity.
Defined.

(** ** Decimal texts and [ParseUint] *)

Lemma is_digit_value (c : ascii) :
  is_digit c = true -> (0 <= byte_of c - 48 <= 9)%Z.
Proof.
  unfold is_digit. intros H. apply andb_true_iff in H.
  destruct H as [H1 H2]. apply Z.leb_le in H1, H2. lia.
Qed.

Lemma decimal_from_ge (s : string) :
  forall n : Z, (0 <= n)%Z -> all_in class_digit s = true ->
                (n <= decimal_from n s)%Z.
Proof.
  induction s as [|c s IH]; intros n Hn Hall; simpl; [lia|].
  simpl in Hall. apply andb_true_iff in Hall. destruct Hall as [Hc Hall].
  rewrite cc_mem_digit in Hc. apply is_digit_value in Hc.
  specialize (IH (n * 10 + (byte_of c - 48))%Z ltac:(lia) Hall). lia.
Qed.

Lemma decimal_from_lt (s : string) :
  forall n : Z, (0 <= n)%Z -> all_in class_digit s = true ->
    (decimal_from n s < (n + 1) * 10 ^ Z.of_nat (String.length s))%Z.
Proof.
  induction s as [|c s IH]; intros n Hn Hall.
  - simpl. lia.
  - simpl in Hall. apply andb_true_iff in Hall. destruct Hall as [Hc Hall].
    rewrite cc_mem_digit in Hc. apply is_digit_value in Hc.
    cbn [decimal_from String.length].
    specialize (IH (n * 10 + (byte_of c - 48))%Z ltac:(lia) Hall).
    replace (Z.of_nat (S (String.length s)))
      with (Z.succ (Z.of_nat (String.length s))) by lia.
    rewrite Z.pow_succ_r by lia.
    assert (0 < 10 ^ Z.of_nat (String.length s))%Z by (apply Z.pow_pos_nonneg; lia).
    nia.
Qed.

(** The loop of [ParseUint] succeeds exactly on digits whose value stays
    within the bound, and then returns that value. *)
Lemma parseUint_loop_spec (maxVal : Z) (s : string) :
  (maxVal <= maxUint64)%Z ->
  forall n r : Z, (0 <= n)%Z ->
    parseUint_loop maxVal s n = (r, None) <->
    all_in class_digit s = true /\ r = decimal_from n s /\
    (decimal_from n s <= maxVal \/ s = "")%Z.
Proof.
  intros Hmax. unfold maxUint64 in Hmax.
  induction s as [|c s IH]; intros n r Hn.
  - simpl. split.
    + intros H. inversion H. auto.
    + intros (_ & -> & _). reflexivity.
  - cbn [parseUint_loop all_in decimal_from]. rewrite cc_mem_digit.
    destruct (is_digit c) eqn:Hd; [|split; [discriminate | intros [H _]; discriminate]].
    apply is_digit_value in Hd. cbn [andb].
    unfold maxUint64.
    change ((2 ^ 64 - 1) / 10 + 1)%Z with 1844674407370955162%Z.
    set (d := (byte_of c - 48)%Z) in *.
    destruct (Z.leb_spec 1844674407370955162 n) as [Hc|Hc].
    { split; [discriminate|]. intros (Hall & _ & [Hle | Hnil]); [|discriminate].
      pose proof (decimal_from_ge s (n * 10 + d)%Z ltac:(lia) Hall). lia. }
    unfold wrap_uint64.
    destruct (Z.lt_ge_cases (n * 10 + d) (2 ^ 64)) as [Hsmall|Hbig].
    + rewrite Z.mod_small by lia.
      destruct (Z.ltb_spec (n * 10 + d) (n * 10)); [lia|]. cbn [orb].
      destruct (Z.ltb_spec maxVal (n * 10 + d)) as [Hgt|Hle].
      * split; [discriminate|]. intros (Hall & _ & [Hle | Hnil]); [|discriminate].
        pose proof (decimal_from_ge s (n * 10 + d)%Z ltac:(lia) Hall). lia.
      * rewrite IH by lia. split.
        -- intros (Hall & -> & [Hle' | ->]); repeat split; auto.
        -- intros (Hall & -> & [Hle' | Hnil]); [|discriminate].
           repeat split; auto.
    + assert (Hmod : ((n * 10 + d) mod 2 ^ 64 = n * 10 + d - 2 ^ 64)%Z).
      { symmetry. apply Z.mod_unique with (q := 1%Z); lia. }
      rewrite Hmod.
      destruct (Z.ltb_spec (n * 10 + d - 2 ^ 64) (n * 10)); [|lia]. cbn [orb].
      split; [discriminate|]. intros (Hall & _ & [Hle | Hnil]); [|discriminate].
      pose proof (decimal_from_ge s (n * 10 + d)%Z ltac:(lia) Hall). lia.
Qed.

Lemma ParseUint_spec (s : string) (bitSize r : Z) :
  (0 <= bitSize <= 64)%Z ->
  ParseUint s bitSize = (r, None) <->
  is_decimal s = true /\ r = decimal_value s /\ (decimal_value s < 2 ^ bitSize)%Z.
Proof.
  intros Hb. unfold is_decimal, decimal_value.
  assert (H64 : (2 ^ bitSize <= 2 ^ 64)%Z) by (apply Z.pow_le_mono_r; lia).
  destruct s as [|c s].
  - simpl. split; [discriminate | intros [H _]; discriminate].
  - unfold ParseUint. rewrite parseUint_loop_spec by (unfold maxUint64; lia).
    cbn [nonempty andb]. split.
    + intros (Hall & -> & [Hle | Hnil]); [|discriminate].
      repeat split; auto. lia.
    + intros (Hall & -> & Hlt). repeat split; auto. left. lia.
Qed.

(** The error of a failed [ParseUint] is one of the two of [strconv]. *)
Lemma parseUint_loop_error (maxVal : Z) (s : string) :
  forall (n r : Z) (e : error),
    parseUint_loop maxVal s n = (r, Some e) -> e = errSyntax \/ e = errRange.
Proof.
  induction s as [|c s IH]; intros n r e; cbn [parseUint_loop].
  - discriminate.
  - destruct (is_digit c); [|intros H; inversion H; auto].
    destruct (_ <=? n)%Z; [intros H; inversion H; auto|].
    destruct (_ || _); [intros H; inversion H; auto|]. apply IH.
Qed.

Lemma ParseUint_error (s : string) (bitSize r : Z) (e : error) :
  ParseUint s bitSize = (r, Some e) -> e = errSyntax \/ e = errRange.
Proof.
  destruct s as [|c s]; [intros H; inversion H; auto|].
  apply parseUint_loop_error.
Qed.

(** ** Cutting at a dot *)

Lemma count_byte_app (a : ascii) (x y : string) :
  count_byte a (x +:+ y) = (count_byte a x + count_byte a y)%nat.
Proof. induction x as [|c x IH]; simpl; [reflexivity|]. rewrite IH. lia. Qed.

Lemma count_dot_digits (s : string) :
  all_in class_digit s = true -> count_byte "." s = 0%nat.
Proof.
  induction s as [|c s IH]; [reflexivity|]. cbn [all_in count_byte]. intros H.
  apply andb_true_iff in H. destruct H as [Hc Hs].
  rewrite IH by assumption. rewrite cc_mem_digit in Hc.
  apply is_digit_value in Hc.
  destruct (Ascii.eqb_spec "." c) as [<-|_]; [|reflexivity].
  change (byte_of ".") with 46%Z in Hc. lia.
Qed.

Lemma cut_dot_spec (s : string) :
  match cut "." s with
  | Some (a, rest) =>
      s = a +:+ "." +:+ rest /\ count_byte "." a = 0%nat
  | None => count_byte "." s = 0%nat
  end.
Proof.
  induction s as [|c s IH]; [reflexivity|].
  cbn [cut strip_prefix count_byte].
  destruct (Ascii.eqb_spec "." c) as [<-|Hne].
  - split; reflexivity.
  - destruct (cut "." s) as [[a rest]|].
    + destruct IH as [-> Ha]. split; [reflexivity|]. cbn [count_byte].
      destruct (Ascii.eqb_spec "." c); [contradiction|]. exact Ha.
    + exact IH.
Qed.

(** [SplitN(s, ".", 3)] gives three pieces exactly when [s] has two dots
    or more, and they are the text before the first dot, the text between
    the first two, and the rest. *)
Lemma SplitN_dot_3 (s : string) :
  match SplitN s "." 3 with
  | [a; b; c] =>
      s = a +:+ "." +:+ b +:+ "." +:+ c /\
      count_byte "." a = 0%nat /\ count_byte "." b = 0%nat
  | l => (length l < 3)%nat /\ (count_byte "." s < 2)%nat
  end.
Proof.
  cbn [SplitN].
  pose proof (cut_dot_spec s) as H1.
  destruct (cut "." s) as [[a r1]|]; [|simpl; lia].
  destruct H1 as [-> Ha].
  pose proof (cut_dot_spec r1) as H2.
  destruct (cut "." r1) as [[b r2]|].
  - destruct H2 as [-> Hb]. auto.
  - split; [simpl; lia|].
    rewrite !count_byte_app, Ha, H2. cbn [count_byte].
    rewrite Ascii.eqb_refl. lia.
Qed.

Lemma app_dot_inj (a a' r r' : string) :
  count_byte "." a = 0%nat -> count_byte "." a' = 0%nat ->
  a +:+ "." +:+ r = a' +:+ "." +:+ r' -> a = a' /\ r = r'.
Proof.
  revert a'. induction a as [|c a IH]; intros [|c' a'] Ha Ha' E;
    cbn [count_byte String.append] in *.
  - inversion E; auto.
  - inversion E; subst c'. rewrite Ascii.eqb_refl in Ha'. discriminate.
  - inversion E; subst c. rewrite Ascii.eqb_refl in Ha. discriminate.
  - inversion E; subst c'.
    destruct (Ascii.eqb "." c); [discriminate|].
    destruct (IH a' Ha Ha' H1) as [-> ->]. auto.
Qed.

(** ** [ParseVersion] *)

Lemma decimal_wrap_uint32 (x : string) :
  is_decimal x = true -> (decimal_value x < 2 ^ 32)%Z ->
  wrap_uint32 (decimal_value x) = decimal_value x.
Proof.
  intros Hx Hlt. unfold wrap_uint32. apply Z.mod_small.
  unfold is_decimal in Hx. apply andb_true_iff in Hx.
  pose proof (decimal_from_ge x 0 ltac:(lia) (proj2 Hx)).
  unfold decimal_value in *. lia.
Qed.

Lemma is_decimal_digits (x : string) :
  is_decimal x = true -> all_in class_digit x = true.
Proof. unfold is_decimal. intros H. apply andb_true_iff in H. apply H. Qed.

Lemma ParseVersion_inv (s : string) (v : Version) :
  ParseVersion s = (v, None) ->
  exists a b c : string,
    s = a +:+ "." +:+ b +:+ "." +:+ c /\
    is_decimal a = true /\ is_decimal b = true /\ is_decimal c = true /\
    (decimal_value a < 2 ^ 32 /\ decimal_value b < 2 ^ 32 /\
     decimal_value c < 2 ^ 32)%Z /\
    v = mkVersion (decimal_value a) (decimal_value b) (decimal_value c).
Proof.
  unfold ParseVersion. pose proof (SplitN_dot_3 s) as Hs.
  destruct (SplitN s "." 3) as [|a [|b [|c [|? ?]]]]; try discriminate.
  destruct Hs as (-> & _ & _).
  destruct (ParseUint a 32) as [n1 [e|]] eqn:E1; [discriminate|].
  destruct (ParseUint b 32) as [n2 [e|]] eqn:E2; [discriminate|].
  destruct (ParseUint c 32) as [n3 [e|]] eqn:E3; [discriminate|].
  apply ParseUint_spec in E1, E2, E3; try lia.
  destruct E1 as (Ha & -> & La), E2 as (Hb & -> & Lb), E3 as (Hc & -> & Lc).
  intros H. inversion H. exists a, b, c.
  rewrite !decimal_wrap_uint32 by assumption. repeat split; auto.
Qed.

Lemma ParseVersion_intro (a b c : string) :
  is_decimal a = true -> is_decimal b = true -> is_decimal c = true ->
  (decimal_value a < 2 ^ 32)%Z -> (decimal_value b < 2 ^ 32)%Z ->
  (decimal_value c < 2 ^ 32)%Z ->
  ParseVersion (a +:+ "." +:+ b +:+ "." +:+ c)
  = (mkVersion (decimal_value a) (decimal_value b) (decimal_value c), None).
Proof.
  intros Ha Hb Hc La Lb Lc. unfold ParseVersion.
  rewrite SplitN_three_digits by now apply is_decimal_digits.
  rewrite (proj2 (ParseUint_spec a 32 (decimal_value a) ltac:(lia))) by auto.
  rewrite (proj2 (ParseUint_spec b 32 (decimal_value b) ltac:(lia))) by auto.
  rewrite (proj2 (ParseUint_spec c 32 (decimal_value c) ltac:(lia))) by auto.
  now rewrite !decimal_wrap_uint32 by assumption.
Qed.

(** X3. ParseVersion succeeds exactly on the texts [a.b.c] whose three
    parts are non-empty runs of decimal digits with values below 2^32
    (leading zeros are allowed; signs, spaces and a fourth component are
    not), and it returns those three values. *)
Theorem ParseVersion_success_iff (s : string) (v : Version) :
  ParseVersion s = (v, None) <->
  exists a b c : string,
    s = a +:+ "." +:+ b +:+ "." +:+ c /\
    is_decimal a = true /\ is_decimal b = true /\ is_decimal c = true /\
    (decimal_value a < 2 ^ 32 /\ decimal_value b < 2 ^ 32 /\
     decimal_value c < 2 ^ 32)%Z /\
    v = mkVersion (decimal_value a) (decimal_value b) (decimal_value c).
Proof.
  split; [apply ParseVersion_inv|].
  intros (a & b & c & -> & Ha & Hb & Hc & (La & Lb & Lc) & ->).
  now apply ParseVersion_intro.
Qed.

(** X4. ParseVersion answers with its own format error exactly when the
    text has fewer than two dots; every other failure is a syntax or a
    range error of the number parser. *)
Theorem ParseVersion_format_error_iff (s : string) :
  (snd (ParseVersion s) = Some errVersionFormat <->
   (count_byte "." s < 2)%nat) /\
  (forall e : error, snd (ParseVersion s) = Some e ->
                     e = errVersionFormat \/ e = errSyntax \/ e = errRange).
Proof.
  unfold ParseVersion. pose proof (SplitN_dot_3 s) as Hs.
  destruct (SplitN s "." 3) as [|a [|b [|c [|? ?]]]];
    try (destruct Hs as [Hl Hs]; simpl in Hl;
         first [ lia | split; [split; [intros _; exact Hs | reflexivity]
                              | intros e H; inversion H; auto] ]).
  destruct Hs as (-> & Ha & Hb).
  assert (Hdots : ~ (count_byte "." (a +:+ "." +:+ b +:+ "." +:+ c) < 2)%nat).
  { rewrite !count_byte_app. cbn [count_byte]. rewrite Ascii.eqb_refl. lia. }
  destruct (ParseUint a 32) as [n1 [e1|]] eqn:E1;
    [apply ParseUint_error in E1|
     destruct (ParseUint b 32) as [n2 [e2|]] eqn:E2;
     [apply ParseUint_error in E2|
      destruct (ParseUint c 32) as [n3 [e3|]] eqn:E3;
      [apply ParseUint_error in E3|]]]; simpl;
    (split; [split; [intros H; inversion H; subst; intuition discriminate
                    | intros H; contradiction]
            | intros e H; inversion H; subst; tauto]).
Qed.

(** X5. Whatever ParseVersion accepts has components in the uint32 range,
    and its canonical rendering parses to the same Version: parsing
    normalises a text (leading zeros disappear) and is stable from then
    on. *)
Theorem ParseVersion_normalises (s : string) (v : Version) :
  ParseVersion s = (v, None) ->
  Version_wf v /\ ParseVersion (Version_String v) = (v, None).
Proof.
  intros H. apply ParseVersion_inv in H.
  destruct H as (a & b & c & -> & Ha & Hb & Hc & (La & Lb & Lc) & ->).
  assert (Hwf : is_uint32 (decimal_value a) /\ is_uint32 (decimal_value b) /\
                is_uint32 (decimal_value c)).
  { unfold is_uint32, decimal_value in *.
    pose proof (decimal_from_ge a 0 ltac:(lia) (is_decimal_digits a Ha)).
    pose proof (decimal_from_ge b 0 ltac:(lia) (is_decimal_digits b Hb)).
    pose proof (decimal_from_ge c 0 ltac:(lia) (is_decimal_digits c Hc)).
    lia. }
  split; [exact Hwf|].
  unfold Version_String. cbn [Major Minor Patch].
  apply ParseVersion_digits; apply Hwf.
Qed.

Lemma ParseVersion_normalises_witness :
  Version_wf (mkVersion 1 20 3) /\
  ParseVersion (Version_String (mkVersion 1 20 3)) = (mkVersion 1 20 3, None).
Proof.
  apply (ParseVersion_normalises "01.020.0003"). reflexivity.
Defined.

(** ** The version line inside a larger text *)

(** As [match_repeat_back_one], with a text after the byte given back. *)
Lemma match_repeat_back_one_rest (k : cclass) (w : string) :
  forall (lo : nat) (pos : nat) (c : ascii) (rest : string) (cs : captures)
         (kont : cont) (r : captures),
  all_in k w = true -> cc_mem k c = true -> (lo <= String.length w)%nat ->
  next_not_in k rest = true ->
  kont (S (pos + String.length w)) rest cs = None ->
  kont (pos + String.length w)%nat (String c rest) cs = Some r ->
  match_repeat k lo None pos (w +:+ String c rest) cs kont = Some r.
Proof.
  induction w as [|x w IH]; intros lo pos c rest cs kont r Hall Hc Hlo Hnext Hend Hk.
  - simpl in Hlo. assert (lo = 0%nat) as -> by lia.
    cbn [String.length] in Hk, Hend. rewrite Nat.add_0_r in Hk, Hend.
    cbn [String.append match_repeat]. rewrite Hc. cbn [negb andb].
    rewrite bool_decide_eq_false_2 by discriminate. cbn [negb].
    destruct rest as [|c' rest]; cbn [match_repeat].
    + now rewrite Hend.
    + cbn [next_not_in] in Hnext. apply negb_true_iff in Hnext.
      rewrite Hnext. cbn [andb]. now rewrite Hend.
  - simpl in Hall. apply andb_true_iff in Hall. destruct Hall as [Hx Hall].
    change (String x w +:+ String c rest) with (String x (w +:+ String c rest)).
    cbn [match_repeat]. rewrite Hx. simpl negb. cbn [andb].
    apply first_some. apply IH; try assumption.
    + simpl in Hlo. lia.
    + simpl in Hend. now rewrite Nat.add_succ_r in Hend.
    + simpl in Hk. now rewrite Nat.add_succ_r in Hk.
Qed.

(** The only byte outside the class of [.] is the newline. *)
Lemma next_not_in_any (s : string) :
  next_not_in class_any s = true ->
  s = "" \/ exists t : string, s = String "010"%char t.
Proof.
  destruct s as [|c t]; [auto|]. intros H. right. exists t. f_equal.
  cbn [next_not_in] in H. apply negb_true_iff in H.
  unfold cc_mem, class_any, in_range in H. simpl in H.
  rewrite orb_false_r in H. apply negb_false_iff in H.
  apply andb_true_iff in H. destruct H as [H1 H2].
  apply Z.leb_le in H1, H2. apply byte_of_inj.
  change (byte_of "010"%char) with 10%Z. lia.
Qed.

Lemma search_here (r : regex) (s : string) (cs : captures) :
  match_here r 0 s = Some cs -> search r 0 s = Some cs.
Proof. intros H. destruct s; cbn [search]; now rewrite H. Qed.

Ltac tail_line_rest gov Hglen :=
  rep_max " "; rep_max " ";
  repeat match goal with
         | |- match_repeat _ _ _ _ (String " " _) _ _ = _ => rep_max " "
         | |- match_repeat _ _ None _ (gov +:+ _) _ _ = _ => fail 1
         | |- match_repeat _ _ _ _ (?w +:+ _) _ _ = _ => rep_max w
         end;
  eapply (match_repeat_back_one_rest _ gov);
  [ assumption | reflexivity | exact Hglen | reflexivity | reflexivity | ];
  step_lit; reflexivity.

Ltac head_line_after ws :=
  cbn [re_ast PluginVersionRegex]; cbn [String.append]; step_lit;
  rep_max ws;
  match goal with
  | H : all_in class_word ?key = true
    |- context [?key +:+ String "-" _] => rep_max key
  end.

Lemma version_line_submatch_within (m : Meta) (ws tail : string) :
  Meta_parsable m -> all_in class_space ws = true ->
  next_not_in class_any tail = true ->
  exists d0 : string,
    FindStringSubmatch PluginVersionRegex (ws +:+ Meta_String m +:+ tail)
    = [d0; Key m; Type_ m; Version_String (Version_ m); Revision m; GOOS m;
       GOARCH m; GOVersion m].
Proof.
  intros (Hkey & Htype & (Hma & Hmi & Hpa) & Hrev & Hos & Harch & Hgne & Hgall & Hgsp)
         Hws Htail.
  destruct m as [key ty [ma mi pa] rev os arch gov]; simpl in *.
  apply word_inv in Hkey, Hrev, Hos, Harch.
  apply FormatUint_inv in Hma, Hmi, Hpa.
  destruct Hkey as (Hk1 & Hk2 & Hk3 & Hk4).
  destruct Hrev as (Hr1 & Hr2 & Hr3 & Hr4).
  destruct Hos as (Ho1 & Ho2 & Ho3 & Ho4).
  destruct Harch as (Ha1 & Ha2 & Ha3 & Ha4).
  destruct Hma as (Hma1 & Hma2 & Hma3 & Hma4).
  destruct Hmi as (Hmi1 & Hmi2 & Hmi3 & Hmi4).
  destruct Hpa as (Hpa1 & Hpa2 & Hpa3 & Hpa4).
  pose proof (nonempty_length _ Hgne) as Hglen.
  unfold FindStringSubmatch.
  enough (exists cs,
    match_here (re_ast PluginVersionRegex) 0
      (ws +:+ Meta_String (mkMeta key ty (mkVersion ma mi pa) rev os arch gov)
          +:+ tail) = Some cs /\
    get_capture 1 cs = key /\ get_capture 2 cs = ty /\
    get_capture 3 cs = Version_String (mkVersion ma mi pa) /\
    get_capture 4 cs = rev /\ get_capture 5 cs = os /\
    get_capture 6 cs = arch /\ get_capture 7 cs = gov)
    as (cs & Hm & H1 & H2 & H3 & H4 & H5 & H6 & H7).
  { erewrite search_here by exact Hm.
    cbn [map seq re_ngroups PluginVersionRegex].
    rewrite H1, H2, H3, H4, H5, H6, H7. eexists; reflexivity. }
  unfold match_here, Meta_String, Version_String, PLUGIN_PREFIX.
  cbn [Key Type_ Version_ Revision GOOS GOARCH GOVersion Major Minor Patch].
  set (fa := FormatUint ma) in *; clearbody fa.
  set (fb := FormatUint mi) in *; clearbody fb.
  set (fc := FormatUint pa) in *; clearbody fc.
  rewrite !string_app_assoc.
  destruct (next_not_in_any tail Htail) as [-> | [t ->]];
  destruct Htype as [-> | [-> | ->]];
    unfold TypeChecker, TypeMetrics, TypeMetadata; eexists; split.
  - head_line_after ws. apply first_some. tail_line_rest gov Hglen.
  - cbn [get_capture Nat.eqb]. caps_line.
  - head_line_after ws. apply first_some. tail_line_rest gov Hglen.
  - cbn [get_capture Nat.eqb]. caps_line.
  - head_line_after ws. tail_line_rest gov Hglen.
  - cbn [get_capture Nat.eqb]. caps_line.
  - head_line_after ws. apply first_some. tail_line_rest gov Hglen.
  - cbn [get_capture Nat.eqb]. caps_line.
  - head_line_after ws. apply first_some. tail_line_rest gov Hglen.
  - cbn [get_capture Nat.eqb]. caps_line.
  - head_line_after ws. tail_line_rest gov Hglen.
  - cbn [get_capture Nat.eqb]. caps_line.
Qed.

(** X6. The version line is found inside a larger text: white space in
    front of it is skipped, and everything from the first newline after
    it is ignored. For a Meta of the shape the pattern accepts,
    ParseVersionCommand returns that Meta. *)
Theorem ParseVersionCommand_embedded_line (m : Meta) (ws tail : string) :
  Meta_parsable m -> all_in class_space ws = true ->
  next_not_in class_any tail = true ->
  ParseVersionCommand (ws +:+ Meta_String m +:+ tail) = m.
Proof.
  intros H Hws Htail.
  destruct (version_line_submatch_within m ws tail H Hws Htail) as [d0 E].
  unfold ParseVersionCommand. rewrite E.
  destruct H as (_ & _ & (Ha & Hb & Hc) & _).
  destruct m as [key ty [ma mi pa] rev os arch gov]. cbn in *.
  unfold Version_String. cbn [Major Minor Patch].
  rewrite ParseVersion_digits by (unfold is_uint32; lia).
  reflexivity.
Qed.

Lemma ParseVersionCommand_embedded_line_witness :
  let m := mkMeta "redis" TypeMetrics (mkVersion 0 71 2) "923088e2"
                  "windows" "amd64" "go1.16.5" in
  ParseVersionCommand
    ("  " +:+ Meta_String m +:+ String "010"%char "{}") = m.
Proof.
  intros m.
  apply (ParseVersionCommand_embedded_line m "  " (String "010"%char "{}")).
  - unfold Meta_parsable; simpl.
    repeat split; try reflexivity; try lia.
    right; left; reflexivity.
  - reflexivity.
  - reflexivity.
Defined.

(** ** What the matcher returns is a match *)

Lemma match_repeat_sound (k : cclass) (s : string) :
  forall (lo : nat) (hi : option nat) (pos : nat) (cs : captures)
         (kont : cont) (res : captures),
    match_repeat k lo hi pos s cs kont = Some res ->
    exists w s' : string,
      s = w +:+ s' /\ all_in k w = true /\ (lo <= String.length w)%nat /\
      fits hi (String.length w) /\
      kont (pos + String.length w)%nat s' cs = Some res.
Proof.
  assert (Hstop : forall lo hi pos s cs (kont : cont) res,
            match lo with O => kont pos s cs | S _ => None end = Some res ->
            exists w s' : string,
              s = w +:+ s' /\ all_in k w = true /\ (lo <= String.length w)%nat /\
              fits hi (String.length w) /\
              kont (pos + String.length w)%nat s' cs = Some res).
  { intros lo hi pos s0 cs kont res H. destruct lo; [|discriminate].
    exists "", s0. cbn [String.length]. rewrite Nat.add_0_r.
    repeat split; auto. destruct hi; simpl; [lia | exact I]. }
  induction s as [|c s IH]; intros lo hi pos cs kont res H.
  - cbn [match_repeat] in H. now apply Hstop.
  - cbn [match_repeat] in H.
    destruct (cc_mem k c) eqn:Hc; [|now apply Hstop].
    destruct (bool_decide (hi = Some 0%nat)) eqn:Hhi; [now apply Hstop|].
    cbn [negb andb] in H. apply bool_decide_eq_false in Hhi.
    destruct (match_repeat k (Nat.pred lo) (Nat.pred <$> hi) (S pos) s cs kont)
      as [r|] eqn:E; [|now apply Hstop].
    inversion H; subst r. apply IH in E.
    destruct E as (w & s' & -> & Hall & Hlo & Hfit & Hk).
    exists (String c w), s'. cbn [String.length all_in].
    rewrite Hc, Hall. repeat split; auto.
    + lia.
    + destruct hi as [h|]; simpl in *; [|exact I].
      destruct h; [congruence | lia].
    + now rewrite Nat.add_succ_r.
Qed.

Lemma rmatch_sound (r : regex) :
  forall (pos : nat) (s : string) (cs : captures) (kont : cont)
         (res : captures),
    rmatch r pos s cs kont = Some res ->
    exists (w s' : string) (cs' : captures),
      s = w +:+ s' /\ matches r pos cs w cs' /\
      kont (pos + String.length w)%nat s' cs' = Some res.
Proof.
  induction r as [| |c|k|k lo hi|r1 IH1 r2 IH2|r1 IH1 r2 IH2|i r IH];
    intros pos s cs kont res H; cbn [rmatch] in H.
  - exists "", s, cs. cbn [String.length]. rewrite Nat.add_0_r.
    repeat split; [constructor | exact H].
  - destruct (Nat.eqb_spec pos 0) as [->|]; [|discriminate].
    exists "", s, cs. repeat split; [constructor | exact H].
  - destruct s as [|c' s]; [discriminate|].
    destruct (Ascii.eqb_spec c c') as [<-|]; [|discriminate].
    exists (String c ""), s, cs. cbn [String.length].
    replace (pos + 1)%nat with (S pos) by lia.
    repeat split; [constructor | exact H].
  - destruct s as [|c' s]; [discriminate|].
    destruct (cc_mem k c') eqn:Hc; [|discriminate].
    exists (String c' ""), s, cs. cbn [String.length].
    replace (pos + 1)%nat with (S pos) by lia.
    repeat split; [now constructor | exact H].
  - apply match_repeat_sound in H.
    destruct H as (w & s' & -> & Hall & Hlo & Hfit & Hk).
    exists w, s', cs. repeat split; [now constructor | exact Hk].
  - apply IH1 in H. destruct H as (w1 & s1 & cs1 & -> & Hm1 & H).
    apply IH2 in H. destruct H as (w2 & s2 & cs2 & -> & Hm2 & H).
    exists (w1 +:+ w2), s2, cs2. rewrite string_length_app, string_app_assoc.
    rewrite Nat.add_assoc. repeat split; [|exact H].
    econstructor; eassumption.
  - destruct (rmatch r1 pos s cs kont) as [res'|] eqn:E.
    + inversion H; subst res'. apply IH1 in E.
      destruct E as (w & s' & cs' & -> & Hm & Hk).
      exists w, s', cs'. repeat split; [now apply matches_alt_l | exact Hk].
    + apply IH2 in H. destruct H as (w & s' & cs' & -> & Hm & Hk).
      exists w, s', cs'. repeat split; [now apply matches_alt_r | exact Hk].
  - apply IH in H. destruct H as (w & s' & cs' & -> & Hm & Hk).
    exists w, s', ((i, w) :: cs'). repeat split; [now constructor|].
    rewrite <- Hk. do 3 f_equal.
    replace (pos + String.length w - pos)%nat with (String.length w) by lia.
    now rewrite substring_app_exact.
Qed.

Lemma search_sound (r : regex) (s : string) :
  forall (pos : nat) (cs : captures),
    search r pos s = Some cs ->
    exists (pos' : nat) (w : string) (cs' : captures),
      matches r pos' [] w cs' /\ exists d0 : string, cs = (O, d0) :: cs'.
Proof.
  assert (Hhere : forall pos s0 cs,
            match_here r pos s0 = Some cs ->
            exists (pos' : nat) (w : string) (cs' : captures),
              matches r pos' [] w cs' /\ exists d0 : string, cs = (O, d0) :: cs').
  { intros pos s0 cs H. unfold match_here in H. apply rmatch_sound in H.
    destruct H as (w & s' & cs' & -> & Hm & Hk). inversion Hk.
    exists pos, w, cs'. split; [exact Hm | eexists; reflexivity]. }
  induction s as [|c s IH]; intros pos cs H; cbn [search] in H.
  - destruct (match_here r pos "") eqn:E; [|discriminate].
    inversion H; subst. eapply Hhere; eassumption.
  - destruct (match_here r pos (String c s)) eqn:E.
    + inversion H; subst. eapply Hhere; eassumption.
    + eapply IH; eassumption.
Qed.

Lemma decimal_short (a : string) :
  all_in class_digit a = true -> (1 <= String.length a <= 3)%nat ->
  is_decimal a = true /\ (0 <= decimal_value a <= 999)%Z.
Proof.
  intros Hall Hlen. unfold is_decimal, decimal_value. rewrite Hall.
  split; [destruct a; [simpl in Hlen; lia | reflexivity]|].
  pose proof (decimal_from_ge a 0 ltac:(lia) Hall).
  pose proof (decimal_from_lt a 0 ltac:(lia) Hall) as Hlt.
  assert (10 ^ Z.of_nat (String.length a) <= 10 ^ 3)%Z
    by (apply Z.pow_le_mono_r; lia).
  change (10 ^ 3)%Z with 1000%Z in *. lia.
Qed.

Ltac inv_matches :=
  repeat match goal with
         | H : matches (RCat _ _) _ _ _ _ |- _ => inversion H; subst; clear H
         | H : matches (RChar _) _ _ _ _ |- _ => inversion H; subst; clear H
         | H : matches RBeginText _ _ _ _ |- _ => inversion H; subst; clear H
         | H : matches (RGroup _ _) _ _ _ _ |- _ => inversion H; subst; clear H
         | H : matches (RAlt _ _) _ _ _ _ |- _ => inversion H; subst; clear H
         | H : matches (RRepeat _ _ _) _ _ _ _ |- _ => inversion H; subst; clear H
         end.

Lemma word_of_run (w : string) :
  all_in class_word w = true -> (1 <= String.length w)%nat -> word w = true.
Proof.
  intros Hall Hlen. unfold word. rewrite Hall.
  destruct w; [simpl in Hlen; lia | reflexivity].
Qed.

(** The fields of a successful submatch of the version pattern. *)
Lemma version_pattern_fields (s : string) (cs : captures) :
  search (re_ast PluginVersionRegex) 0 s = Some cs ->
  exists a b c : string,
    get_capture 3 cs = a +:+ "." +:+ b +:+ "." +:+ c /\
    (all_in class_digit a = true /\ (1 <= String.length a <= 3)%nat) /\
    (all_in class_digit b = true /\ (1 <= String.length b <= 3)%nat) /\
    (all_in class_digit c = true /\ (1 <= String.length c <= 3)%nat) /\
    word (get_capture 1 cs) = true /\
    (get_capture 2 cs = TypeChecker \/ get_capture 2 cs = TypeMetrics \/
     get_capture 2 cs = TypeMetadata) /\
    word (get_capture 4 cs) = true /\ word (get_capture 5 cs) = true /\
    word (get_capture 6 cs) = true /\
    nonempty (get_capture 7 cs) = true /\
    all_in class_any (get_capture 7 cs) = true.
Proof.
  intros H. apply search_sound in H.
  destruct H as (pos & w & cs' & Hm & d0 & ->).
  cbn [re_ast PluginVersionRegex] in Hm.
  inv_matches;
    cbn [get_capture Nat.eqb];
    match goal with
    | |- exists a b c, ?x +:+ _ +:+ ?y +:+ _ +:+ ?z = _ /\ _ =>
        exists x, y, z
    end;
    cbn [fits] in *;
    repeat split; try assumption; try lia;
      try (apply word_of_run; assumption);
      try (unfold TypeChecker, TypeMetrics, TypeMetadata; tauto);
      try (match goal with
           | H : (1 <= String.length ?g)%nat |- nonempty ?g = true =>
               destruct g; [simpl in H; lia | reflexivity]
           end).
Qed.

Lemma FindStringSubmatch_nil (re : Regexp) (s : string) :
  FindStringSubmatch re s = [] <-> search (re_ast re) 0 s = None.
Proof.
  unfold FindStringSubmatch. destruct (search (re_ast re) 0 s).
  - cbn [seq map]. split; discriminate.
  - tauto.
Qed.

(** The Meta that [ParseVersionCommand] builds when the pattern matches. *)
Lemma ParseVersionCommand_matched (s : string) (cs : captures) :
  search (re_ast PluginVersionRegex) 0 s = Some cs ->
  Meta_matched (ParseVersionCommand s).
Proof.
  intros Hs. pose proof (version_pattern_fields s cs Hs) as H.
  destruct H as (a & b & c & H3 & [Ha La] & [Hb Lb] & [Hc Lc] & H1 & H2 & H4 &
                 H5 & H6 & H7 & H7').
  destruct (decimal_short a Ha La) as [Da Va].
  destruct (decimal_short b Hb Lb) as [Db Vb].
  destruct (decimal_short c Hc Lc) as [Dc Vc].
  unfold ParseVersionCommand, FindStringSubmatch. rewrite Hs.
  cbn [seq map re_ngroups PluginVersionRegex]. rewrite H3.
  rewrite ParseVersion_intro by (assumption || lia).
  unfold Meta_matched.
  cbn [Key Type_ Version_ Revision GOOS GOARCH GOVersion Major Minor Patch].
  repeat split; try assumption; lia.
Qed.

(** X7. ParseVersionCommand returns the empty Meta exactly when the
    pattern finds no version line in the text. Otherwise every field of
    the result has the shape of its capture group: key, revision, OS and
    architecture are non-empty words, the type is one of the three
    constants, the version components are at most 999, the runtime version
    is non-empty and has no newline. The ParseVersion error branch of the
    function is never taken. *)
Theorem ParseVersionCommand_shape (s : string) :
  (FindStringSubmatch PluginVersionRegex s = [] /\
   ParseVersionCommand s = Meta_zero) \/
  (FindStringSubmatch PluginVersionRegex s <> [] /\
   ParseVersionCommand s <> Meta_zero /\
   Meta_matched (ParseVersionCommand s)).
Proof.
  destruct (search (re_ast PluginVersionRegex) 0 s) as [cs|] eqn:Hs.
  - right. pose proof (ParseVersionCommand_matched s cs Hs) as Hm.
    split; [|split; [|exact Hm]].
    + rewrite FindStringSubmatch_nil, Hs. discriminate.
    + intros E. rewrite E in Hm. destruct Hm as [Hk _]. discriminate Hk.
  - left. split; [now apply FindStringSubmatch_nil|].
    unfold ParseVersionCommand, FindStringSubmatch. now rewrite Hs.
Qed.

(** X8. Rendering the result of ParseVersionCommand and parsing the line
    again gives the same Meta, provided the runtime version found does not
    begin with white space (the pattern can capture such a text, but the
    line rendered from it reads differently). *)
Theorem ParseVersionCommand_stable (s : string) :
  next_not_in class_space (GOVersion (ParseVersionCommand s)) = true ->
  ParseVersionCommand (Meta_String (ParseVersionCommand s))
  = ParseVersionCommand s.
Proof.
  intros Hsp.
  destruct (search (re_ast PluginVersionRegex) 0 s) as [cs|] eqn:Hs.
  - pose proof (ParseVersionCommand_matched s cs Hs) as Hm.
    set (m := ParseVersionCommand s) in *. clearbody m.
    assert (Hp : Meta_parsable m).
    { destruct Hm as (H1 & H2 & H3 & H4 & H5 & H6 & H7 & H8).
      unfold Meta_parsable. tauto. }
    destruct (version_line_submatch m Hp) as [d0 E].
    unfold ParseVersionCommand. rewrite E.
    destruct Hp as (_ & _ & (Ha & Hb & Hc) & _).
    destruct m as [key ty [ma mi pa] rev os arch gov]. cbn in *.
    unfold Version_String. cbn [Major Minor Patch].
    rewrite ParseVersion_digits by (unfold is_uint32; lia).
    reflexivity.
  - assert (E : ParseVersionCommand s = Meta_zero).
    { unfold ParseVersionCommand, FindStringSubmatch. now rewrite Hs. }
    rewrite E. vm_compute. reflexivity.
Qed.

Lemma ParseVersionCommand_stable_witness :
  let s := "idpc-plugin-db-checker version 01.020.3 (rev dev) [linux amd64 go1.16.5]" in
  ParseVersionCommand (Meta_String (ParseVersionCommand s))
  = ParseVersionCommand s.
Proof.
  intros s. apply (ParseVersionCommand_stable s). vm_compute. reflexivity.
Defined.

(* ===================================================================== *)
(** ** Rate Engine: exact products and NaN *)
(* ===================================================================== *)

(** X9. While the multiplication by 60 stays within the unsigned type,
    the two unsigned variants accept a counter that did not decrease and
    return the quotient of the exact product [(value - lastValue) * 60] by
    the duration, both converted to float64. The bound that suits uint32
    suits uint64 as well. *)
Theorem calcDiffUint_exact_below_overflow (value lastValue : Z)
    (now lastTime : Time) (lastDiff : float64) :
  (lastValue <= value)%Z -> (diffTime now lastTime <= 600)%Z ->
  ((value - lastValue) * 60 < 2 ^ 64 ->
   calcDiffUint64 value now lastValue lastTime lastDiff
   = (F64.div (F64.of_Z ((value - lastValue) * 60))
              (F64.of_Z (diffTime now lastTime)), None))%Z /\
  ((value - lastValue) * 60 < 2 ^ 32 ->
   calcDiffUint32 value now lastValue lastTime lastDiff
   = calcDiffUint64 value now lastValue lastTime lastDiff)%Z.
Proof.
  intros Hle Hd. split.
  - intros Hs. apply calcDiffUint64_exact; lia.
  - intros Hs. rewrite calcDiffUint32_exact, calcDiffUint64_exact by lia.
    reflexivity.
Qed.

Lemma calcDiffUint_exact_below_overflow_witness :
  calcDiffUint32 71582788 (time_Unix 1060) 0 (time_Unix 1000) F64.zero
  = calcDiffUint64 71582788 (time_Unix 1060) 0 (time_Unix 1000) F64.zero.
Proof.
  apply (proj2 (calcDiffUint_exact_below_overflow 71582788 0 (time_Unix 1060)
                  (time_Unix 1000) F64.zero ltac:(lia)
                  ltac:(vm_compute; discriminate))).
  lia.
Defined.

Lemma leb_nan_l (x : float64) : F64.leb F64.nan x = false.
Proof. reflexivity. Qed.

Lemma leb_nan_r (x : float64) : F64.leb x F64.nan = false.
Proof. destruct x; reflexivity. Qed.

(** X10. A NaN never becomes a rate in the float64 variant: when the
    current or the previous value is NaN and the duration is within the
    limit, calcDiff reports a counter reset. *)
Theorem calcDiff_NaN_is_reset (value lastValue : float64)
    (now lastTime : Time) :
  (diffTime now lastTime <= 600)%Z ->
  F64.IsNaN value || F64.IsNaN lastValue = true ->
  calcDiff value now lastValue lastTime = (F64.zero, Some errCounterReset).
Proof.
  intros Hd Hnan. unfold calcDiff.
  destruct (Z.ltb_spec 600 (diffTime now lastTime)) as [Hgt|_]; [lia|].
  apply orb_true_iff in Hnan.
  assert (Hle : F64.leb lastValue value = false).
  { destruct Hnan as [H | H].
    - destruct value; try discriminate. apply leb_nan_r.
    - destruct lastValue; try discriminate. apply leb_nan_l. }
  now rewrite Hle.
Qed.

Lemma calcDiff_NaN_is_reset_witness :
  calcDiff F64.nan (time_Unix 1060) (F64.of_Z 100) (time_Unix 1000)
  = (F64.zero, Some errCounterReset).
Proof.
  apply (calcDiff_NaN_is_reset F64.nan (F64.of_Z 100) (time_Unix 1060)
           (time_Unix 1000)).
  - vm_compute. discriminate.
  - reflexivity.
Defined.

(* ===================================================================== *)
(** ** State Store: what is written and what comes back *)
(* ===================================================================== *)

Lemma with_console_same (w : world) : with_console (w_console w) w = w.
Proof. now destruct w. Qed.

Lemma encode_map_Some (m : gmap string value) :
  map_Forall (fun _ v => is_Some (encode_value v)) m ->
  encode_map m = Some (omap encode_value m).
Proof. intros H. unfold encode_map. now rewrite bool_decide_eq_true_2. Qed.

Lemma encode_map_None (m : gmap string value) (k : string) (f : float64) :
  m !! k = Some (VFloat64 f) -> F64.IsNaN f || F64.IsInf f = true ->
  encode_map m = None.
Proof.
  intros Hk Hf. unfold encode_map. rewrite bool_decide_eq_false_2; [reflexivity|].
  intros Hall. specialize (Hall k _ Hk). cbn [encode_value] in Hall.
  rewrite Hf in Hall. destruct Hall as [? ?]; discriminate.
Qed.

Section StoreRoundTrip.

Variable conv_overflow : float64 -> Z.

(** X11. A state that was saved loads again: the timestamp comes back in
    whole seconds, ["_lastTime"] as the float64 of those seconds, and
    every other entry as the decoder reads its JSON form, so numbers of
    every integer type come back as float64. *)
Theorem SaveValues_then_LoadLastValues (values : PluginValues) (w : world) :
  w_file w <> FileError ->
  map_Forall (fun _ v => is_Some (encode_value v)) (Values values) ->
  (- 2 ^ 53 < Unix (Timestamp values) < 2 ^ 53)%Z ->
  exists (vals : gmap string value) (w' : world) (m : PluginValues),
    SaveValues values w = (vals, w', None) /\
    LoadLastValues conv_overflow w' = (m, None) /\
    Timestamp m = time_Unix (Unix (Timestamp values)) /\
    Values m !! "_lastTime"
    = Some (VFloat64 (F64.of_Z (Unix (Timestamp values)))) /\
    forall k : string, k <> "_lastTime" ->
      Values m !! k
      = Values values !! k ≫= (fun v => decode_value <$> encode_value v).
Proof.
  intros Hfile Hall Hts.
  set (vals := <["_lastTime" := VInt64 (Unix (Timestamp values))]> (Values values)).
  assert (Henc : encode_map vals = Some (omap encode_value vals)).
  { apply encode_map_Some. apply map_Forall_insert_2; [cbn; eauto | exact Hall]. }
  assert (Hsave : SaveValues values w
                  = (vals, mkWorld (FileData (Some (omap encode_value vals)))
                                   (w_console w) (S (w_writes w)), None)).
  { unfold SaveValues. fold vals. rewrite Henc.
    destruct (w_file w); [reflexivity | contradiction | reflexivity]. }
  eexists _, _, _. split; [exact Hsave|].
  unfold LoadLastValues. cbn [w_file]. unfold decode_map.
  assert (Hlast : (decode_value <$> omap encode_value vals) !! "_lastTime"
                  = Some (VFloat64 (F64.of_Z (Unix (Timestamp values))))).
  { rewrite lookup_fmap, lookup_omap. unfold vals.
    now rewrite lookup_insert_eq. }
  rewrite Hlast. split; [reflexivity|]. cbn [Timestamp Values].
  split; [now rewrite float_to_int64_of_Z|]. split; [exact Hlast|].
  intros k Hk. rewrite lookup_fmap, lookup_omap. unfold vals.
  rewrite lookup_insert_ne by congruence.
  destruct (Values values !! k) as [v|]; [|reflexivity]. cbn.
  destruct (encode_value v); reflexivity.
Qed.

(** X12. A NaN or an infinity among the values costs the whole state:
    SaveValues has emptied the file when the encoder refuses the map, it
    returns the encoder's error, and the next load fails to decode and
    yields no values. *)
Theorem SaveValues_unencodable_empties_state (values : PluginValues)
    (w : world) (k : string) (f : float64) :
  w_file w <> FileError ->
  Values values !! k = Some (VFloat64 f) -> k <> "_lastTime" ->
  F64.IsNaN f || F64.IsInf f = true ->
  exists (vals : gmap string value) (w' : world),
    SaveValues values w = (vals, w', Some errEncode) /\
    w_file w' = FileData None /\
    LoadLastValues conv_overflow w'
    = (mkPluginValues ∅ zeroTime, Some errDecode).
Proof.
  intros Hfile Hk Hne Hf.
  assert (Henc : encode_map (<["_lastTime" := VInt64 (Unix (Timestamp values))]>
                               (Values values)) = None).
  { apply (encode_map_None _ k f); [|exact Hf].
    rewrite lookup_insert_ne by congruence. exact Hk. }
  unfold SaveValues. rewrite Henc.
  destruct (w_file w); try contradiction; eexists _, _;
    (split; [reflexivity|]); split; reflexivity.
Qed.

(** X13. The throttle counts from the start of the second in which the
    state was saved: after a successful save at [Timestamp values], the
    guarded load at [now] answers "recently updated" exactly when the
    second of [now] is not later than the second of the save. A load in
    the following second goes through, however few nanoseconds later. *)
Theorem stale_after_save_iff (values : PluginValues) (w : world)
    (vals : gmap string value) (w' : world) (now : Time) :
  SaveValues values w = (vals, w', None) ->
  (- 2 ^ 53 < Unix (Timestamp values) < 2 ^ 53)%Z ->
  (0 <= nsec now < Second)%Z ->
  snd (loadLastValuesSafe conv_overflow now w') = Some errStateUpdated
  <-> (Unix now <= Unix (Timestamp values))%Z.
Proof.
  intros Hsave Hts Hns.
  destruct (LoadLastValues_after_SaveValues conv_overflow _ _ _ _ Hsave Hts
              (w_console w')) as (m & Hload & Hstamp & _).
  rewrite with_console_same in Hload.
  rewrite (loadLastValuesSafe_loaded _ _ _ _ Hload), Hstamp, nanos_time_Unix.
  unfold nanos, Unix, Second in *.
  destruct (Z.ltb_spec (sec now * 1000000000 + nsec now
                        - sec (Timestamp values) * 1000000000) 1000000000);
    cbn [snd]; split; intros H'; try reflexivity; try discriminate; lia.
Qed.

Lemma LoadLastValues_whole_seconds (w : world) :
  nsec (Timestamp (fst (LoadLastValues conv_overflow w))) = 0%Z.
Proof.
  unfold LoadLastValues.
  destruct (w_file w) as [| |[doc|]]; try reflexivity. cbn [fst Timestamp].
  destruct (decode_map doc !! "_lastTime") as [[]|]; reflexivity.
Qed.

(** X14. When the guarded load lets a cycle through, the duration the
    Rate Engine will compute from the loaded timestamp is at least one
    second, so its divisor is a positive float: within a cycle no rate is
    ever a division by zero or by a negative duration. *)
Theorem loadLastValuesSafe_positive_duration (now : Time) (w : world)
    (m : PluginValues) :
  loadLastValuesSafe conv_overflow now w = (m, None) ->
  (0 <= nsec now < Second)%Z ->
  is_int64 (Unix now - Unix (Timestamp m)) ->
  (1 <= diffTime now (Timestamp m))%Z /\
  nonzero_signed false (F64.of_Z (diffTime now (Timestamp m))).
Proof.
  intros Hload Hns Hrange.
  assert (H1 : (1 <= diffTime now (Timestamp m))%Z).
  { unfold diffTime. rewrite wrap_int64_small by exact Hrange.
    pose proof (LoadLastValues_whole_seconds w) as Hz.
    unfold loadLastValuesSafe in Hload.
    destruct (LoadLastValues conv_overflow w) as [m' [e|]]; [discriminate|].
    rewrite Sub_lt_Second in Hload.
    destruct (Z.ltb_spec (nanos now - nanos (Timestamp m')) Second) as [|Hge];
      [discriminate|].
    inversion Hload; subst m'. cbn [fst] in Hz.
    unfold nanos, Unix, Second in *. lia. }
  split; [exact H1|]. apply of_Z_nonzero. lia.
Qed.

End StoreRoundTrip.

Lemma SaveValues_then_LoadLastValues_witness :
  let conv := fun _ : float64 => 0%Z in
  let values := mkPluginValues {[ "conns" := VUint32 7 ]}
                               (mkTime 1700000000 900000000) in
  let w := mkWorld FileAbsent (mkConsole [] []) 0 in
  exists (vals : gmap string value) (w' : world) (m : PluginValues),
    SaveValues values w = (vals, w', None) /\
    LoadLastValues conv w' = (m, None) /\
    Timestamp m = time_Unix 1700000000 /\
    Values m !! "_lastTime" = Some (VFloat64 (F64.of_Z 1700000000)) /\
    forall k : string, k <> "_lastTime" ->
      Values m !! k
      = Values values !! k ≫= (fun v => decode_value <$> encode_value v).
Proof.
  intros conv values w.
  apply (SaveValues_then_LoadLastValues conv values w).
  - discriminate.
  - apply map_Forall_singleton. cbn. eauto.
  - simpl. lia.
Defined.

Lemma SaveValues_unencodable_empties_state_witness :
  let conv := fun _ : float64 => 0%Z in
  let values := mkPluginValues {[ "load" := VFloat64 F64.nan ]}
                               (mkTime 1700000000 0) in
  let w := mkWorld (FileData (Some {[ "load" := JFloat (F64.of_Z 1) ]}))
                   (mkConsole [] []) 3 in
  exists (vals : gmap string value) (w' : world),
    SaveValues values w = (vals, w', Some errEncode) /\
    w_file w' = FileData None /\
    LoadLastValues conv w' = (mkPluginValues ∅ zeroTime, Some errDecode).
Proof.
  intros conv values w.
  apply (SaveValues_unencodable_empties_state conv values w "load" F64.nan).
  - discriminate.
  - apply lookup_singleton_eq.
  - discriminate.
  - reflexivity.
Defined.

Lemma stale_after_save_iff_witness :
  let conv := fun _ : float64 => 0%Z in
  let values := mkPluginValues {[ "conns" := VUint32 7 ]}
                               (mkTime 1700000000 100000000) in
  let w := mkWorld FileAbsent (mkConsole [] []) 0 in
  let w' := snd (fst (SaveValues values w)) in
  snd (loadLastValuesSafe conv (mkTime 1700000000 999999999) w')
  = Some errStateUpdated.
Proof.
  intros conv values w w'.
  apply (proj2 (stale_after_save_iff conv values w
                  (fst (fst (SaveValues values w))) w'
                  (mkTime 1700000000 999999999)
                  ltac:(vm_compute; reflexivity)
                  ltac:(simpl; lia)
                  ltac:(unfold Second; simpl; lia))).
  simpl. lia.
Defined.

Lemma loadLastValuesSafe_positive_duration_witness :
  let conv := fun _ : float64 => 0%Z in
  let w := mkWorld (FileData (Some {[ "_lastTime" := JInt 1700000000 ]}))
                   (mkConsole [] []) 0 in
  let now := mkTime 1700000001 500000000 in
  let m := fst (loadLastValuesSafe conv now w) in
  (1 <= diffTime now (Timestamp m))%Z /\
  nonzero_signed false (F64.of_Z (diffTime now (Timestamp m))).
Proof.
  intros conv w now m.
  apply (loadLastValuesSafe_positive_duration conv now w m).
  - vm_compute. reflexivity.
  - unfold Second. simpl. lia.
  - vm_compute. split; [discriminate | reflexivity].
Defined.

Section Counters.

Variable conv_overflow : float64 -> Z.

Lemma float_to_uint32_of_Z (n : Z) :
  is_uint32 n -> float_to_uint32 conv_overflow (F64.of_Z n) = n.
Proof.
  unfold is_uint32. intros Hn. unfold float_to_uint32.
  rewrite trunc_of_Z by lia.
  destruct (Z.leb_spec 0 n); [|lia].
  destruct (Z.ltb_spec n (2 ^ 32)); [reflexivity | lia].
Qed.

Lemma float_to_uint64_of_Z (n : Z) :
  (0 <= n < 2 ^ 53)%Z -> float_to_uint64 conv_overflow (F64.of_Z n) = n.
Proof.
  intros Hn. unfold float_to_uint64.
  rewrite trunc_of_Z by lia.
  destruct (Z.leb_spec 0 n); [|lia].
  destruct (Z.ltb_spec n (2 ^ 64)); [reflexivity | lia].
Qed.

(** X15. A counter keeps its value through the state file: a uint32, and
    a uint64 below 2^53, that is encoded and decoded comes back as a
    float64 which toUint32, respectively toUint64, turns into the number
    that was stored. This is the previous value the Rate Engine sees. *)
Theorem counter_survives_state_file (n : Z) :
  (0 <= n < 2 ^ 53)%Z ->
  (exists j : json, encode_value (VUint64 n) = Some j /\
                    toUint64 conv_overflow (decode_value j) = n) /\
  (is_uint32 n ->
   exists j : json, encode_value (VUint32 n) = Some j /\
                    toUint32 conv_overflow (decode_value j) = n).
Proof.
  intros Hn. split.
  - eexists. split; [reflexivity|]. cbn [decode_value toUint64].
    now apply float_to_uint64_of_Z.
  - intros H32. eexists. split; [reflexivity|]. cbn [decode_value toUint32].
    now apply float_to_uint32_of_Z.
Qed.

End Counters.

Lemma counter_survives_state_file_witness :
  let conv := fun _ : float64 => 0%Z in
  exists j : json, encode_value (VUint64 4294967296) = Some j /\
                   toUint64 conv (decode_value j) = 4294967296%Z.
Proof.
  intros conv.
  apply (proj1 (counter_survives_state_file conv 4294967296 ltac:(lia))).
Defined.

(** Above 2^53 the float64 of the file no longer holds every integer: the
    counter 2^53 + 1 comes back as 2^53. *)
Example counter_above_2_53_is_rounded :
  toUint64 (fun _ => 0%Z) (decode_value (JInt (2 ^ 53 + 1))) = (2 ^ 53)%Z.
Proof. vm_compute. reflexivity. Qed.

(* ===================================================================== *)
(** ** Output Formatter: what a call can do *)
(* ===================================================================== *)

Lemma printValue_stdout (key : string) (v : value) (now : Time) (c : console) :
  stdout (printValue key v now c)
  = (stdout c ++ if printable v then [OutLine key v (Unix now)] else [])%list.
Proof.
  destruct v; cbn [printValue printable]; try (now rewrite app_nil_r);
    try reflexivity.
  destruct (F64.IsNaN f || F64.IsInf f); cbn [negb]; [|reflexivity].
  cbn. now rewrite app_nil_r.
Qed.

Lemma printValue_logs (key : string) (v : value) (now : Time) (c : console) :
  exists l : list log_event, logs (printValue key v now c) = (logs c ++ l)%list.
Proof.
  destruct v; cbn [printValue]; try (exists []; now rewrite app_nil_r);
    try (exists []; cbn; now rewrite app_nil_r).
  destruct (F64.IsNaN f || F64.IsInf f);
    [eexists; reflexivity | exists []; cbn; now rewrite app_nil_r].
Qed.

Section Formatter.

Variable ParseFloat : string -> float64 * option error.
Variable conv_overflow : float64 -> Z.
Variable meta : Meta.

Lemma formatValues_cases (prefix : string) (metric : Metrics)
    (metricValues lastMetricValues : PluginValues) (c : console) :
  let r := formatValues ParseFloat conv_overflow meta prefix metric
                        metricValues lastMetricValues c in
  exists (l : list log_event),
    logs (snd r) = (logs c ++ l)%list /\
    ((fst r = Values metricValues /\ stdout (snd r) = stdout c /\
      (Diff metric = true \/ l = [])) \/
     exists (v : value) (vals : gmap string value),
       fst r = vals /\
       stdout (snd r)
       = (stdout c ++ if printable v
                      then [OutLine (print_key meta prefix metric) v
                                    (Unix (Timestamp metricValues))]
                      else [])%list /\
       (vals = Values metricValues /\ Diff metric = false \/
        exists d : float64,
          Diff metric = true /\
          is_Some (Values lastMetricValues !! lookup_name prefix metric) /\
          vals = <[".last_diff." +:+ lookup_name prefix metric := VFloat64 d]>
                   (Values metricValues))).
Proof.
  unfold formatValues. fold (lookup_name prefix metric).
  set (name := lookup_name prefix metric).
  fold (print_key meta prefix metric).
  destruct (Values metricValues !! name) as [v0|];
    [|exists []; rewrite app_nil_r; cbn [fst snd];
      split; [reflexivity|]; left; auto].
  assert (Hmain : forall (v1 : value) (c1 : console) (l1 : list log_event),
            logs c1 = (logs c ++ l1)%list -> stdout c1 = stdout c ->
            let r := match
                       (if Diff metric
                        then formatValues_diff ParseFloat conv_overflow name
                               metric v1 (Values metricValues)
                               (Timestamp metricValues) lastMetricValues c1
                        else inr (v1, Values metricValues))
                     with
                     | inl c2 => (Values metricValues, c2)
                     | inr (v2, vals2) =>
                         (vals2,
                          printValue (print_key meta prefix metric)
                            (formatValues_scale ParseFloat conv_overflow metric v2)
                            (Timestamp metricValues) c1)
                     end in
            exists l : list log_event,
              logs (snd r) = (logs c ++ l)%list /\
              ((fst r = Values metricValues /\ stdout (snd r) = stdout c /\
                (Diff metric = true \/ l = [])) \/
               exists (v : value) (vals : gmap string value),
                 fst r = vals /\
                 stdout (snd r)
                 = (stdout c ++ if printable v
                                then [OutLine (print_key meta prefix metric) v
                                              (Unix (Timestamp metricValues))]
                                else [])%list /\
                 (vals = Values metricValues /\ Diff metric = false \/
                  exists d : float64,
                    Diff metric = true /\
                    is_Some (Values lastMetricValues !! name) /\
                    vals = <[".last_diff." +:+ name := VFloat64 d]>
                             (Values metricValues)))).
  { intros v1 c1 l1 Hl1 Hs1.
    destruct (Diff metric) eqn:Hdiff.
    - unfold formatValues_diff.
      destruct (Values lastMetricValues !! name) as [lastv|] eqn:Hlast.
      + match goal with
        | |- context [let '(d, err) := ?X in _] => destruct X as [d [e|]]
        end.
        * cbn. eexists. split; [rewrite Hl1, <- app_assoc; reflexivity|].
          left. auto.
        * cbn [fst snd].
          destruct (printValue_logs (print_key meta prefix metric)
                      (formatValues_scale ParseFloat conv_overflow metric
                         (VFloat64 d))
                      (Timestamp metricValues) c1) as [l2 Hl2].
          eexists. split; [rewrite Hl2, Hl1, <- app_assoc; reflexivity|].
          right. eexists _, _. split; [reflexivity|].
          rewrite printValue_stdout, Hs1. split; [reflexivity|].
          right. exists d. eauto.
      + cbn. eexists. split; [rewrite Hl1, <- app_assoc; reflexivity|].
        left. auto.
    - cbn [fst snd].
      destruct (printValue_logs (print_key meta prefix metric)
                  (formatValues_scale ParseFloat conv_overflow metric v1)
                  (Timestamp metricValues) c1) as [l2 Hl2].
      eexists. split; [rewrite Hl2, Hl1, <- app_assoc; reflexivity|].
      right. eexists _, _. split; [reflexivity|].
      rewrite printValue_stdout, Hs1. split; [reflexivity|]. left. auto. }
  destruct v0 as [|b|s|n|n|n|f];
    try (apply (Hmain _ c []); [now rewrite app_nil_r | reflexivity]).
  - exists []. rewrite app_nil_r. cbn [fst snd].
    split; [reflexivity|]. left. auto.
  - destruct (String.eqb (MetricType metric) metricTypeUint32);
      [|destruct (String.eqb (MetricType metric) metricTypeUint64)].
    + destruct (ParseUint s 32) as [n [e|]];
        [apply (Hmain _ _ [LogParsing e]); reflexivity
        |apply (Hmain _ c []); [now rewrite app_nil_r | reflexivity]].
    + destruct (ParseUint s 64) as [n [e|]];
        [apply (Hmain _ _ [LogParsing e]); reflexivity
        |apply (Hmain _ c []); [now rewrite app_nil_r | reflexivity]].
    + destruct (ParseFloat s) as [n [e|]];
        [apply (Hmain _ _ [LogParsing e]); reflexivity
        |apply (Hmain _ c []); [now rewrite app_nil_r | reflexivity]].
Qed.

(** X16. One call of formatValues writes at most one line; the line has
    the key [Key.prefix.Name] (without the prefix when it is empty), the
    seconds of the observation's timestamp, and a value that is an
    unsigned integer or a finite float64: NaN and the infinities never
    reach standard output. *)
Theorem formatValues_prints_at_most_one_line (prefix : string)
    (metric : Metrics) (metricValues lastMetricValues : PluginValues)
    (c : console) :
  let r := formatValues ParseFloat conv_overflow meta prefix metric
                        metricValues lastMetricValues c in
  stdout (snd r) = stdout c \/
  exists v : value,
    printable v = true /\
    stdout (snd r)
    = (stdout c ++ [OutLine (print_key meta prefix metric) v
                            (Unix (Timestamp metricValues))])%list.
Proof.
  intros r.
  destruct (formatValues_cases prefix metric metricValues lastMetricValues c)
    as (l & _ & [(_ & Hs & _) | (v & vals & _ & Hs & _)]); fold r in Hs.
  - now left.
  - destruct (printable v) eqn:Hp.
    + right. exists v. auto.
    + left. now rewrite app_nil_r in Hs.
Qed.

(** X17. formatValues never changes an observed value: the current map
    comes back as it was, or, for a metric with Diff whose name was
    present in the previous observation, with the single entry
    [.last_diff.<name>] set to a float64. *)
Theorem formatValues_current_map (prefix : string) (metric : Metrics)
    (metricValues lastMetricValues : PluginValues) (c : console) :
  let r := formatValues ParseFloat conv_overflow meta prefix metric
                        metricValues lastMetricValues c in
  fst r = Values metricValues \/
  (Diff metric = true /\
   is_Some (Values lastMetricValues !! lookup_name prefix metric) /\
   exists d : float64,
     fst r = <[".last_diff." +:+ lookup_name prefix metric := VFloat64 d]>
               (Values metricValues)).
Proof.
  intros r.
  destruct (formatValues_cases prefix metric metricValues lastMetricValues c)
    as (l & _ & [(Hv & _) | (v & vals & Hv & _ & [[-> _] | (d & Hd & Hl & ->)])]);
    fold r in Hv; auto.
  right. eauto.
Qed.

Lemma print_key_below (prefix : string) (metric : Metrics) :
  exists rest : string, print_key meta prefix metric = Key meta +:+ "." +:+ rest.
Proof.
  unfold print_key. destruct (0 <? String.length prefix)%nat;
    eexists; cbn [app Join]; reflexivity.
Qed.

Lemma formatValues_grows (prefix : string) (metric : Metrics)
    (metricValues lastMetricValues : PluginValues) (c : console) :
  let r := formatValues ParseFloat conv_overflow meta prefix metric
                        metricValues lastMetricValues c in
  stdout_grows_by (metric_line meta (Timestamp metricValues)) c (snd r) /\
  logs_grow c (snd r).
Proof.
  intros r.
  destruct (formatValues_cases prefix metric metricValues lastMetricValues c)
    as (l & Hl & H); fold r in Hl, H.
  split; [|now exists l].
  destruct H as [(_ & Hs & _) | (v & vals & _ & Hs & _)].
  - exists []. rewrite app_nil_r. split; [exact Hs | constructor].
  - eexists. split; [exact Hs|].
    destruct (printable v) eqn:Hp; [|constructor].
    constructor; [|constructor]. cbn [metric_line].
    split; [apply print_key_below | split; [exact Hp | reflexivity]].
Qed.

End Formatter.

Lemma stdout_grows_by_refl (P : out_event -> Prop) (c : console) :
  stdout_grows_by P c c.
Proof. exists []. rewrite app_nil_r. split; [reflexivity | constructor]. Qed.

Lemma stdout_grows_by_trans (P : out_event -> Prop) (c1 c2 c3 : console) :
  stdout_grows_by P c1 c2 -> stdout_grows_by P c2 c3 -> stdout_grows_by P c1 c3.
Proof.
  intros (l1 & H1 & F1) (l2 & H2 & F2). exists (l1 ++ l2)%list.
  split; [rewrite H2, H1; now rewrite app_assoc | now apply Forall_app].
Qed.

Lemma stdout_grows_by_weaken (P Q : out_event -> Prop) (c1 c2 : console) :
  (forall e, P e -> Q e) -> stdout_grows_by P c1 c2 -> stdout_grows_by Q c1 c2.
Proof.
  intros HPQ (l & H & F). exists l. split; [exact H|].
  eapply Forall_impl; eassumption.
Qed.

Lemma logs_grow_refl (c : console) : logs_grow c c.
Proof. exists []. now rewrite app_nil_r. Qed.

Lemma logs_grow_trans (c1 c2 c3 : console) :
  logs_grow c1 c2 -> logs_grow c2 c3 -> logs_grow c1 c3.
Proof.
  intros (l1 & H1) (l2 & H2). exists (l1 ++ l2)%list.
  rewrite H2, H1. now rewrite app_assoc.
Qed.

Lemma log_logs_grow (e : log_event) (c : console) : logs_grow c (log e c).
Proof. eexists; reflexivity. Qed.

Lemma log_grows (P : out_event -> Prop) (e : log_event) (c : console) :
  stdout_grows_by P c (log e c) /\ logs_grow c (log e c).
Proof.
  split; [|eexists; reflexivity].
  exists []. cbn. rewrite app_nil_r. split; [reflexivity | constructor].
Qed.

(** A fold whose every step is within a preorder stays within it. *)
Lemma foldl_preorder {A B : Type} (R : A -> A -> Prop) (f : A -> B -> A) :
  (forall a, R a a) -> (forall a b c, R a b -> R b c -> R a c) ->
  (forall a x, R a (f a x)) ->
  forall (l : list B) (a : A), R a (foldl f a l).
Proof.
  intros Hrefl Htrans Hstep l. induction l as [|x l IH]; intros a; simpl.
  - apply Hrefl.
  - eapply Htrans; [apply Hstep | apply IH].
Qed.

(* ===================================================================== *)
(** ** Wildcards: segments and printed keys *)
(* ===================================================================== *)




Section WildcardLines.

Variable ParseFloat : string -> float64 * option error.
Variable conv_overflow : float64 -> Z.
Variable meta : Meta.

Lemma print_key_wildcard (metric : Metrics) (k : string) :
  print_key meta "" (with_name metric k) = Key meta +:+ "." +:+ k.
Proof. reflexivity. Qed.

(** X19. With a graph key and a metric name free of regexp operators,
    formatValuesWithWildcard comes back, and every line it printed is for
    an observed key [k] that begins with an instance of the pattern; the
    line's key is [<plugin key>.k], the graph key not being repeated in
    front of [k], its value an unsigned integer or a finite float64. *)
Theorem formatValuesWithWildcard_lines (prefix : string) (metric : Metrics)
    (metricValues lastMetricValues : PluginValues) (c : console) :
  wildcard_pattern (prefix +:+ "." +:+ Name metric) = true ->
  exists (vals' : gmap string value) (c' : console),
    formatValuesWithWildcard ParseFloat conv_overflow meta prefix metric
      metricValues lastMetricValues c = Some (vals', c') /\
    stdout_grows_by
      (wildcard_line meta (prefix +:+ "." +:+ Name metric)
                     (Values metricValues) (Timestamp metricValues))
      c c'.
Proof.
  intros Hpat. unfold formatValuesWithWildcard.
  rewrite Compile_wildcard by assumption. unfold wildcard_loop.
  set (re := mkRegexp _ 0).
  set (P := wildcard_line meta (prefix +:+ "." +:+ Name metric)
                          (Values metricValues) (Timestamp metricValues)).
  assert (Hkeys : Forall (fun k => is_Some (Values metricValues !! k))
                         (fst <$> map_to_list (Values metricValues))).
  { apply Forall_forall. intros k Hk. apply list_elem_of_fmap in Hk.
    destruct Hk as ([k' v] & -> & Hk). apply elem_of_map_to_list in Hk. eauto. }
  revert Hkeys. generalize (fst <$> map_to_list (Values metricValues)).
  intros keys.
  enough (Hgen : forall st : gmap string value * console,
            Forall (fun k => is_Some (Values metricValues !! k)) keys ->
            stdout_grows_by P (snd st)
              (snd (foldl (fun st k =>
                             if MatchString re k
                             then formatValues ParseFloat conv_overflow meta ""
                                    (with_name metric k)
                                    (mkPluginValues (fst st)
                                                    (Timestamp metricValues))
                                    lastMetricValues (snd st)
                             else st) st keys))).
  { intros Hkeys. specialize (Hgen (Values metricValues, c) Hkeys).
    destruct (foldl _ _ _) as [vals' c']. eauto. }
  induction keys as [|k keys IH]; intros st Hkeys;
    [apply stdout_grows_by_refl|].
  apply Forall_cons in Hkeys. destruct Hkeys as [Hk Hkeys].
  cbn [foldl]. eapply stdout_grows_by_trans; [|apply IH; exact Hkeys].
  destruct (MatchString re k) eqn:Hm; [|apply stdout_grows_by_refl].
  apply MatchString_wildcard in Hm.
  destruct (formatValues_cases ParseFloat conv_overflow meta "" (with_name metric k)
              (mkPluginValues (fst st) (Timestamp metricValues))
              lastMetricValues (snd st))
    as (l & _ & [(_ & Hs & _) | (v & vals & _ & Hs & _)]).
  - exists []. rewrite app_nil_r. split; [exact Hs | constructor].
  - eexists. split; [exact Hs|].
    destruct (printable v) eqn:Hp; [|constructor].
    constructor; [|constructor]. unfold P. cbn [wildcard_line].
    exists k. rewrite print_key_wildcard. cbn [Timestamp]. auto.
Qed.

End WildcardLines.



Lemma formatValuesWithWildcard_lines_witness :
  let conv := fun _ : float64 => 0%Z in
  let parse := fun _ : string => (F64.zero, @None error) in
  let meta := mkMeta "host" TypeMetrics (mkVersion 0 0 1) "dev" "linux"
                     "amd64" "go1.16.5" in
  let metric := mkMetrics "*" "" false metricTypeUint32 false F64.zero false in
  let mv := mkPluginValues {[ "cpu.user" := VUint32 2 ]} (time_Unix 1700000000) in
  let last := mkPluginValues ∅ zeroTime in
  exists (vals' : gmap string value) (c' : console),
    formatValuesWithWildcard parse conv meta "cpu" metric mv last
                             (mkConsole [] []) = Some (vals', c') /\
    stdout_grows_by (wildcard_line meta "cpu.*" (Values mv) (Timestamp mv))
                    (mkConsole [] []) c'.
Proof.
  intros conv parse meta metric mv last.
  apply (formatValuesWithWildcard_lines parse conv meta "cpu" metric mv last
           (mkConsole [] [])).
  reflexivity.
Defined.

(* ===================================================================== *)
(** ** Runtime Harness: the metrics cycle *)
(* ===================================================================== *)

Section HarnessProperties.

Variable ParseFloat : string -> float64 * option error.
Variable conv_overflow : float64 -> Z.
Variable plugin : Plugin.

Lemma loop_grows_same {A : Type} (console_of : A -> console) (ts : Time)
    (st st' : A) :
  console_of st' = console_of st ->
  loop_grows (plugin_Meta plugin) console_of ts st st'.
Proof.
  intros E. unfold loop_grows. rewrite E.
  split; [apply stdout_grows_by_refl | apply logs_grow_refl].
Qed.

Lemma loop_grows_trans {A : Type} (console_of : A -> console) (ts : Time)
    (a b c : A) :
  loop_grows (plugin_Meta plugin) console_of ts a b ->
  loop_grows (plugin_Meta plugin) console_of ts b c ->
  loop_grows (plugin_Meta plugin) console_of ts a c.
Proof.
  intros [H1 L1] [H2 L2].
  split; [eapply stdout_grows_by_trans | eapply logs_grow_trans]; eassumption.
Qed.

Lemma wildcard_loop_grows (re : Regexp) (metric : Metrics)
    (metricValues lastMetricValues : PluginValues) (c : console) :
  let r := wildcard_loop ParseFloat conv_overflow (plugin_Meta plugin) re
                         metric metricValues lastMetricValues c in
  stdout_grows_by (metric_line (plugin_Meta plugin) (Timestamp metricValues))
                  c (snd r) /\
  logs_grow c (snd r).
Proof.
  unfold wildcard_loop.
  apply (foldl_preorder
           (loop_grows (plugin_Meta plugin)
                       (snd : gmap string value * console -> console)
                       (Timestamp metricValues))).
  - intros a. now apply loop_grows_same.
  - intros a b d. apply loop_grows_trans.
  - intros [vals c0] k.
    destruct (MatchString re k); [|now apply loop_grows_same].
    apply (formatValues_grows ParseFloat conv_overflow (plugin_Meta plugin) ""
             (with_name metric k)
             (mkPluginValues vals (Timestamp metricValues))).
Qed.

Lemma format_metric_grows (key : string) (ts : Time) (last : PluginValues)
    (st : gmap string value * console * bool) (metric : Metrics) :
  loop_grows (plugin_Meta plugin) state_console ts st
    (format_metric ParseFloat conv_overflow plugin key ts last st metric).
Proof.
  destruct st as [[vals c] running]. unfold format_metric.
  destruct running; [|now apply loop_grows_same].
  destruct (ContainsAny (key +:+ Name metric) "*#").
  - unfold formatValuesWithWildcard.
    destruct (Compile (wildcard_regexpStr key metric)) as [re|];
      [|now apply loop_grows_same].
    pose proof (wildcard_loop_grows re metric (mkPluginValues vals ts) last c)
      as H.
    destruct (wildcard_loop _ _ _ _ _ _ _ _) as [vals' c']. exact H.
  - pose proof (formatValues_grows ParseFloat conv_overflow
                  (plugin_Meta plugin) key metric
                  (mkPluginValues vals ts) last c) as H.
    destruct (formatValues _ _ _ _ _ _ _ _) as [vals' c']. exact H.
Qed.

Lemma format_graphs_grows (ts : Time) (last : PluginValues)
    (graphs : list (string * Graphs))
    (st : gmap string value * console * bool) :
  loop_grows (plugin_Meta plugin) state_console ts st
    (format_graphs ParseFloat conv_overflow plugin ts last st graphs).
Proof.
  revert st. unfold format_graphs.
  apply (foldl_preorder (loop_grows (plugin_Meta plugin) state_console ts)).
  - intros a. now apply loop_grows_same.
  - intros a b d. apply loop_grows_trans.
  - intros a entry. unfold format_graph. revert a.
    apply (foldl_preorder (loop_grows (plugin_Meta plugin) state_console ts)).
    + intros a. now apply loop_grows_same.
    + intros a b d. apply loop_grows_trans.
    + intros a metric. apply format_metric_grows.
Qed.

Lemma SaveValues_effects (values : PluginValues) (w : world) :
  let r := SaveValues values w in
  w_console (snd (fst r)) = w_console w /\
  (w_writes w <= w_writes (snd (fst r)) <= S (w_writes w))%nat /\
  (snd r = None -> w_writes (snd (fst r)) = S (w_writes w)).
Proof.
  unfold SaveValues.
  destruct (w_file w); [|cbn; repeat split; (lia || discriminate)|];
    destruct (encode_map _); cbn; repeat split; lia.
Qed.

(** X20. Every line that a metrics cycle adds to standard output has a
    key below the plugin's key, carries the seconds of the cycle's own
    instant, and holds an unsigned integer or a finite float64; what was
    on standard output before stays in front of it. This holds however the
    cycle ends. *)
Theorem OutputMetricsValues_lines (now : Time) (w : world) :
  let w' := fst (OutputMetricsValues ParseFloat conv_overflow plugin now w) in
  stdout_grows_by (metric_line (plugin_Meta plugin) now)
                  (w_console w) (w_console w').
Proof.
  unfold OutputMetricsValues.
  destruct (as_MetricsPlugin plugin) as [mp|]; [|apply stdout_grows_by_refl].
  destruct (mp_Metrics mp) as [stat [e|]]; [apply log_grows|].
  destruct (loadLastValuesSafe conv_overflow now w) as [last err].
  case_bool_decide; [apply log_grows|].
  pose proof (format_graphs_grows now last (mp_GraphDefinition mp)
                (default ∅ stat, w_console w, true)) as [Hg _].
  destruct (format_graphs _ _ _ _ _ _ _) as [[vals c] running].
  unfold state_console in Hg. cbn [fst snd] in Hg.
  destruct running; [|exact Hg].
  destruct stat as [stat|].
  - pose proof (SaveValues_effects (mkPluginValues vals now) (with_console c w))
      as (Hc & _).
    destruct (SaveValues _ _) as [[vals' w2] [e|]]; cbn [fst snd] in *;
      rewrite Hc; exact Hg.
  - cbn [with_console w_file]. destruct (w_file w); exact Hg.
Qed.

(** X21. A metrics cycle whose plugin returned its values finds a state
    file whose ["_lastTime"] is less than a second old, or lies in the
    future: it stops there. Nothing is printed, the file is not touched,
    and the only trace is the log entry. *)
Theorem OutputMetricsValues_recent_state (mp : MetricsPlugin)
    (doc : gmap string json) (T : Z) (now : Time) (w : world) :
  as_MetricsPlugin plugin = Some mp -> snd (mp_Metrics mp) = None ->
  w_file w = FileData (Some doc) -> doc !! "_lastTime" = Some (JInt T) ->
  (- 2 ^ 53 < T < 2 ^ 53)%Z ->
  (nanos now - T * Second < Second)%Z ->
  OutputMetricsValues ParseFloat conv_overflow plugin now w
  = (with_console (log (LogOutputValues errStateUpdated) (w_console w)) w,
     Returned).
Proof.
  intros Hmp Herr Hfile Hdoc HT Hsoon. unfold OutputMetricsValues.
  rewrite Hmp. destruct (mp_Metrics mp) as [stat merr]. cbn [snd] in Herr.
  subst merr.
  assert (Hload : exists m, LoadLastValues conv_overflow w = (m, None) /\
                            Timestamp m = time_Unix T).
  { unfold LoadLastValues. rewrite Hfile. eexists. split; [reflexivity|].
    cbn [Timestamp]. unfold decode_map. rewrite lookup_fmap, Hdoc. cbn.
    now rewrite float_to_int64_of_Z. }
  destruct Hload as (m & Hload & Hstamp).
  rewrite (loadLastValuesSafe_loaded _ _ _ _ Hload), Hstamp, nanos_time_Unix.
  rewrite (proj2 (Z.ltb_lt _ _) Hsoon).
  now rewrite bool_decide_eq_true_2.
Qed.

Lemma formatValues_empty (prefix : string) (metric : Metrics) (ts : Time)
    (last : PluginValues) (c : console) :
  formatValues ParseFloat conv_overflow (plugin_Meta plugin) prefix metric
               (mkPluginValues ∅ ts) last c = (∅, c).
Proof. unfold formatValues. cbn [Values]. now rewrite lookup_empty. Qed.

Lemma format_graphs_empty (ts : Time) (last : PluginValues) (c : console)
    (graphs : list (string * Graphs)) (running : bool) :
  exists running' : bool,
    format_graphs ParseFloat conv_overflow plugin ts last (∅, c, running) graphs
    = (∅, c, running').
Proof.
  revert running. unfold format_graphs.
  induction graphs as [|[key g] graphs IH]; intros running;
    [eexists; reflexivity|].
  cbn [foldl].
  assert (Hg : exists running' : bool,
             format_graph ParseFloat conv_overflow plugin ts last
                          (∅, c, running) (key, g) = (∅, c, running')).
  { unfold format_graph. cbn [fst snd]. generalize (Graphs_Metrics g).
    intros ms. revert running.
    induction ms as [|metric ms IHm]; intros running; [eexists; reflexivity|].
    cbn [foldl].
    assert (Hm : exists running' : bool,
               format_metric ParseFloat conv_overflow plugin key ts last
                             (∅, c, running) metric = (∅, c, running')).
    { unfold format_metric. destruct running; [|eexists; reflexivity].
      destruct (ContainsAny _ _).
      - unfold formatValuesWithWildcard.
        destruct (Compile _); [|eexists; reflexivity].
        unfold wildcard_loop. cbn [Values]. rewrite map_to_list_empty.
        eexists; reflexivity.
      - rewrite formatValues_empty. eexists; reflexivity. }
    destruct Hm as [r' ->]. apply IHm. }
  destruct Hg as [r' ->]. apply IH.
Qed.

(** X22. A metrics plugin that returns a nil map without an error brings
    the cycle down: unless the cycle is stopped by the throttle, it never
    returns. It prints nothing, and either a wildcard pattern fails to
    compile and the process exits, or the assignment in SaveValues panics
    after the state file has been emptied. *)
Theorem OutputMetricsValues_nil_map (mp : MetricsPlugin) (now : Time)
    (w : world) :
  as_MetricsPlugin plugin = Some mp -> mp_Metrics mp = (None, None) ->
  snd (loadLastValuesSafe conv_overflow now w) <> Some errStateUpdated ->
  w_file w <> FileError ->
  OutputMetricsValues ParseFloat conv_overflow plugin now w = (w, Exited) \/
  OutputMetricsValues ParseFloat conv_overflow plugin now w
  = (mkWorld (FileData None) (w_console w) (S (w_writes w)), Panicked).
Proof.
  intros Hmp Hnil Hstale Hfile. unfold OutputMetricsValues.
  rewrite Hmp, Hnil.
  destruct (loadLastValuesSafe conv_overflow now w) as [last err].
  cbn [snd] in Hstale. rewrite bool_decide_eq_false_2 by exact Hstale.
  cbn [default].
  destruct (format_graphs_empty now last (w_console w) (mp_GraphDefinition mp)
              true) as [running ->].
  rewrite with_console_same.
  destruct running; [|now left]. right.
  destruct (w_file w); [reflexivity | contradiction | reflexivity].
Qed.

Lemma OutputMetricsValues_effects (now : Time) (w : world) :
  let w' := fst (OutputMetricsValues ParseFloat conv_overflow plugin now w) in
  (w_writes w <= w_writes w' <= S (w_writes w))%nat /\
  logs_grow (w_console w) (w_console w') /\
  stdout_grows_by (fun _ => True) (w_console w) (w_console w').
Proof.
  assert (Hlog : forall e,
            (w_writes w <= w_writes w <= S (w_writes w))%nat /\
            logs_grow (w_console w) (log e (w_console w)) /\
            stdout_grows_by (fun _ => True) (w_console w) (log e (w_console w))).
  { intros e. split; [lia|]. split; [apply log_logs_grow | apply log_grows]. }
  unfold OutputMetricsValues.
  destruct (as_MetricsPlugin plugin) as [mp|];
    [|cbn; split; [lia|]; split;
      [apply logs_grow_refl | apply stdout_grows_by_refl]].
  destruct (mp_Metrics mp) as [stat [e|]]; [apply Hlog|].
  destruct (loadLastValuesSafe conv_overflow now w) as [last err].
  case_bool_decide; [apply Hlog|].
  pose proof (format_graphs_grows now last (mp_GraphDefinition mp)
                (default ∅ stat, w_console w, true)) as [Hg Hl].
  destruct (format_graphs _ _ _ _ _ _ _) as [[vals c] running].
  unfold state_console in Hg, Hl. cbn [fst snd] in Hg, Hl.
  apply (stdout_grows_by_weaken _ (fun _ => True)) in Hg; [|trivial].
  destruct running; [|cbn; split; [lia | split; assumption]].
  destruct stat as [stat|].
  - pose proof (SaveValues_effects (mkPluginValues vals now) (with_console c w))
      as (Hc & Hw & _).
    destruct (SaveValues _ _) as [[vals' w2] [e|]]; cbn [fst snd] in *;
      cbn [with_console w_console w_writes] in *; rewrite ?Hc.
    + split; [exact Hw|]. split.
      * eapply logs_grow_trans; [exact Hl | apply log_logs_grow].
      * eapply stdout_grows_by_trans; [exact Hg | apply log_grows].
    + split; [exact Hw|]. split; assumption.
  - cbn [with_console w_file w_writes w_console].
    destruct (w_file w); cbn [fst w_writes w_console with_console].
    + split; [lia|]. split; assumption.
    + split; [lia|]. split.
      * eapply logs_grow_trans; [exact Hl | apply log_logs_grow].
      * eapply stdout_grows_by_trans; [exact Hg | apply log_grows].
    + split; [lia|]. split; assumption.
Qed.

Lemma OutputMetadataValues_effects
    (capability : option (gmap string value * option error)) (now : Time)
    (w : world) :
  let w' := fst (OutputMetadataValues conv_overflow capability now w) in
  (w_writes w <= w_writes w' <= S (w_writes w))%nat /\
  logs_grow (w_console w) (w_console w') /\
  stdout_grows_by (fun _ => True) (w_console w) (w_console w').
Proof.
  assert (Hsame : (w_writes w <= w_writes w <= S (w_writes w))%nat /\
                  logs_grow (w_console w) (w_console w) /\
                  stdout_grows_by (fun _ => True) (w_console w) (w_console w)).
  { split; [lia|]. split; [apply logs_grow_refl | apply stdout_grows_by_refl]. }
  assert (Hlog : forall e,
            (w_writes w <= w_writes w <= S (w_writes w))%nat /\
            logs_grow (w_console w) (log e (w_console w)) /\
            stdout_grows_by (fun _ => True) (w_console w) (log e (w_console w))).
  { intros e. split; [lia|]. split; [apply log_logs_grow | apply log_grows]. }
  unfold OutputMetadataValues.
  destruct capability as [[metadata merr]|]; [|exact Hsame].
  destruct (loadLastValuesSafe conv_overflow now w) as [pre err].
  case_bool_decide; [exact Hsame|].
  destruct merr as [e|]; [apply Hlog|].
  destruct (encode_map metadata) as [doc|]; [|apply Hlog].
  assert (Hprint : logs_grow (w_console w) (print (OutJSON doc) (w_console w)) /\
                   stdout_grows_by (fun _ => True) (w_console w)
                                   (print (OutJSON doc) (w_console w))).
  { split; [exists []; cbn; now rewrite app_nil_r|].
    eexists. split; [reflexivity|]. constructor; [exact I | constructor]. }
  destruct (DeepEqual _ _); cbn [fst].
  - cbn [with_console w_writes w_console]. split; [lia|]. exact Hprint.
  - match goal with
    | |- context [SaveValues ?v ?w1] =>
        pose proof (SaveValues_effects v w1) as (Hc & Hw & _)
    end.
    cbn [with_console w_writes w_console] in *. rewrite Hc.
    split; [exact Hw | exact Hprint].
Qed.

(** X23. Whatever the plugin's type and capabilities, one call of
    OutputValues creates the state file at most once, and leaves what was
    already on standard output and in the log in front of what it adds. *)
Theorem OutputValues_effects (now : Time) (w : world) :
  let w' := fst (OutputValues ParseFloat conv_overflow plugin now w) in
  (w_writes w <= w_writes w' <= S (w_writes w))%nat /\
  logs_grow (w_console w) (w_console w') /\
  stdout_grows_by (fun _ => True) (w_console w) (w_console w').
Proof.
  unfold OutputValues.
  destruct (String.eqb _ TypeChecker).
  { unfold OutputCheckerValues. destruct (as_CheckerPlugin plugin); cbn;
      (split; [lia|]; split;
       [apply logs_grow_refl | apply stdout_grows_by_refl]). }
  destruct (String.eqb _ TypeMetrics); [apply OutputMetricsValues_effects|].
  destruct (String.eqb _ TypeMetadata).
  - pose proof (OutputMetadataValues_effects (as_MetadataPlugin plugin) now w)
      as H.
    destruct (OutputMetadataValues _ _ _ _) as [w' status]. exact H.
  - cbn. split; [lia|]. split;
      [apply logs_grow_refl | apply stdout_grows_by_refl].
Qed.

End HarnessProperties.

(** X24. Two metrics cycles in a row. When the first one has saved its
    state, the second one (the plugin having returned its values) is
    stopped by the throttle exactly when its instant lies in the same
    second as the first, or earlier; an instant in a later second lets it
    through, even if less than a second has passed, and if it returns it
    has saved the state again. *)
Theorem metrics_cycle_throttle (ParseFloat : string -> float64 * option error)
    (conv_overflow : float64 -> Z) (p1 p2 : Plugin) (mp2 : MetricsPlugin)
    (now1 now2 : Time) (w0 : world) :
  let r1 := OutputMetricsValues ParseFloat conv_overflow p1 now1 w0 in
  let r2 := OutputMetricsValues ParseFloat conv_overflow p2 now2 (fst r1) in
  snd r1 = Returned -> w_writes (fst r1) = S (w_writes w0) ->
  as_MetricsPlugin p2 = Some mp2 -> snd (mp_Metrics mp2) = None ->
  (- 2 ^ 53 < Unix now1 < 2 ^ 53)%Z -> (0 <= nsec now2 < Second)%Z ->
  ((Unix now2 <= Unix now1)%Z ->
   r2 = (with_console (log (LogOutputValues errStateUpdated)
                           (w_console (fst r1))) (fst r1), Returned)) /\
  ((Unix now1 < Unix now2)%Z -> snd r2 = Returned ->
   w_writes (fst r2) = S (S (w_writes w0))).
Proof.
  intros r1 r2 Hret Hwr Hmp2 Herr2 Hts Hns.
  assert (Hsaved : exists values w vals,
             SaveValues values w = (vals, fst r1, None) /\
             Timestamp values = now1).
  { subst r1. clear r2. unfold OutputMetricsValues in *.
    destruct (as_MetricsPlugin p1) as [mp|]; [|cbn in Hwr; lia].
    destruct (mp_Metrics mp) as [stat [e|]]; [discriminate|].
    destruct (loadLastValuesSafe conv_overflow now1 w0) as [last err].
    case_bool_decide; [cbn in Hwr; lia|].
    destruct (format_graphs _ _ _ _ _ _ _) as [[vals c] running].
    destruct running; [|discriminate].
    destruct stat as [stat|];
      [|destruct (w_file (with_console c w0)); discriminate].
    destruct (SaveValues _ _) as [[vals' w2] [e|]] eqn:Es; [discriminate|].
    eexists _, _, _. split; [exact Es | reflexivity]. }
  destruct Hsaved as (values & w & vals & Es & Hstamp0).
  rewrite <- Hstamp0 in Hts.
  destruct (LoadLastValues_after_SaveValues conv_overflow _ _ _ _ Es Hts
              (w_console (fst r1))) as (m & Hload & Hstamp & _).
  rewrite with_console_same, Hstamp0 in *.
  subst r2. unfold OutputMetricsValues. rewrite Hmp2.
  destruct (mp_Metrics mp2) as [stat merr]. cbn [snd] in Herr2. subst merr.
  rewrite (loadLastValuesSafe_loaded _ _ _ _ Hload), Hstamp, nanos_time_Unix.
  unfold nanos, Unix, Second in *.
  destruct (Z.ltb_spec (sec now2 * 1000000000 + nsec now2
                        - sec now1 * 1000000000) 1000000000) as [Hlt|Hge].
  - rewrite bool_decide_eq_true_2 by reflexivity.
    split; [reflexivity | intros; lia].
  - rewrite bool_decide_eq_false_2 by discriminate.
    split; [intros; lia|]. intros _.
    destruct (format_graphs _ _ _ _ _ _ _) as [[vals2 c2] running].
    destruct running; [|discriminate].
    destruct stat as [stat|];
      [|destruct (w_file (with_console c2 (fst r1))); discriminate].
    pose proof (SaveValues_effects (mkPluginValues vals2 now2)
                  (with_console c2 (fst r1))) as (_ & _ & Hw).
    destruct (SaveValues (mkPluginValues vals2 now2) (with_console c2 (fst r1)))
      as [[vals' w2] [e|]]; [discriminate|].
    cbn [fst snd with_console w_writes] in *. intros _.
    rewrite Hw by reflexivity. now rewrite Hwr.
Qed.


Lemma OutputMetricsValues_recent_state_witness :
  let conv := fun _ : float64 => 0%Z in
  let parse := fun _ : string => (F64.zero, @None error) in
  let mp := mkMetricsPlugin
              (Some {[ "conns" := VUint32 7 ]}, None)
              [("", mkGraphs "Connections" "integer"
                      [mkMetrics "conns" "Connections" false metricTypeUint32
                                 false F64.zero false])] in
  let plugin := mkPlugin (mkMeta "redis" TypeMetrics (mkVersion 0 0 1) "dev"
                                 "linux" "amd64" "go1.16.5")
                         (Some mp) None None in
  let w := mkWorld (FileData (Some {[ "_lastTime" := JInt 1700000000 ]}))
                   (mkConsole [] []) 1 in
  OutputMetricsValues parse conv plugin (mkTime 1700000000 500000000) w
  = (with_console (log (LogOutputValues errStateUpdated) (w_console w)) w,
     Returned).
Proof.
  intros conv parse mp plugin w.
  apply (OutputMetricsValues_recent_state parse conv plugin mp
           {[ "_lastTime" := JInt 1700000000 ]} 1700000000).
  - reflexivity.
  - reflexivity.
  - reflexivity.
  - apply lookup_singleton_eq.
  - lia.
  - vm_compute. reflexivity.
Defined.

Lemma OutputMetricsValues_nil_map_witness :
  let conv := fun _ : float64 => 0%Z in
  let parse := fun _ : string => (F64.zero, @None error) in
  let mp := mkMetricsPlugin
              (None, None)
              [("", mkGraphs "Connections" "integer"
                      [mkMetrics "conns" "Connections" false metricTypeUint32
                                 false F64.zero false])] in
  let plugin := mkPlugin (mkMeta "redis" TypeMetrics (mkVersion 0 0 1) "dev"
                                 "linux" "amd64" "go1.16.5")
                         (Some mp) None None in
  let w := mkWorld (FileData (Some {[ "_lastTime" := JInt 1700000000 ]}))
                   (mkConsole [] []) 1 in
  let now := mkTime 1700000060 0 in
  OutputMetricsValues parse conv plugin now w = (w, Exited) \/
  OutputMetricsValues parse conv plugin now w
  = (mkWorld (FileData None) (w_console w) (S (w_writes w)), Panicked).
Proof.
  intros conv parse mp plugin w now.
  apply (OutputMetricsValues_nil_map parse conv plugin mp now w).
  - reflexivity.
  - reflexivity.
  - vm_compute. discriminate.
  - discriminate.
Defined.

Lemma metrics_cycle_throttle_witness :
  let conv := fun _ : float64 => 0%Z in
  let parse := fun _ : string => (F64.zero, @None error) in
  let mp := mkMetricsPlugin
              (Some {[ "conns" := VUint32 7 ]}, None)
              [("", mkGraphs "Connections" "integer"
                      [mkMetrics "conns" "Connections" false metricTypeUint32
                                 false F64.zero false])] in
  let plugin := mkPlugin (mkMeta "redis" TypeMetrics (mkVersion 0 0 1) "dev"
                                 "linux" "amd64" "go1.16.5")
                         (Some mp) None None in
  let w0 := mkWorld FileAbsent (mkConsole [] []) 0 in
  let r1 := OutputMetricsValues parse conv plugin
              (mkTime 1700000000 100000000) w0 in
  OutputMetricsValues parse conv plugin (mkTime 1700000000 999999999) (fst r1)
  = (with_console (log (LogOutputValues errStateUpdated)
                       (w_console (fst r1))) (fst r1), Returned).
Proof.
  intros conv parse mp plugin w0 r1.
  apply (proj1 (metrics_cycle_throttle parse conv plugin plugin mp
                  (mkTime 1700000000 100000000)
                  (mkTime 1700000000 999999999) w0
                  ltac:(vm_compute; reflexivity)
                  ltac:(vm_compute; reflexivity)
                  eq_refl eq_refl
                  ltac:(simpl; lia)
                  ltac:(unfold Second; simpl; lia))).
  simpl. lia.
Defined.

(** The example of the specification: a counter at 100, a first cycle
    without a state file, a second cycle 60 seconds later with the counter
    at 220. The first cycle prints nothing for the rate metric and saves
    the state; the second prints 120 per minute. *)
Example metrics_cycle_twice_example :
  let conv := fun _ : float64 => 0%Z in
  let parse := fun _ : string => (F64.zero, @None error) in
  let graphs := [("", mkGraphs "Requests" "integer"
                        [mkMetrics "requests" "Requests" true "" false
                                   F64.zero false])] in
  let plugin n :=
    mkPlugin (mkMeta "web" TypeMetrics (mkVersion 0 0 1) "dev" "linux"
                     "amd64" "go1.16.5")
             (Some (mkMetricsPlugin
                      (Some {[ "requests" := VFloat64 (F64.of_Z n) ]}, None)
                      graphs))
             None None in
  let w0 := mkWorld FileAbsent (mkConsole [] []) 0 in
  let r1 := OutputMetricsValues parse conv (plugin 100)
              (mkTime 1700000000 0) w0 in
  let r2 := OutputMetricsValues parse conv (plugin 220)
              (mkTime 1700000060 0) (fst r1) in
  stdout (w_console (fst r1)) = [] /\
  logs (w_console (fst r1)) = [LogNotExist "requests"] /\
  snd r1 = Returned /\ w_writes (fst r1) = 1%nat /\
  stdout (w_console (fst r2))
  = [OutLine "web.requests" (VFloat64 (F64.of_Z 120)) 1700000060] /\
  snd r2 = Returned /\ w_writes (fst r2) = 2%nat.
Proof. repeat split; vm_compute; reflexivity. Qed.

(* ===================================================================== *)
(** ** The metadata cycle: values of an integer type *)
(* ===================================================================== *)

(** Two maps that [DeepEqual] accepts have the same keys, with values
    that [value_equal] accepts. *)
Lemma DeepEqual_lookup (m1 m2 : gmap string value) (k : string) (v2 : value) :
  DeepEqual m1 m2 = true -> m2 !! k = Some v2 ->
  exists v1 : value, m1 !! k = Some v1 /\ value_equal v1 v2 = true.
Proof.
  unfold DeepEqual. intros H Hk. apply andb_true_iff in H.
  destruct H as [Hsize Hall]. apply Nat.eqb_eq in Hsize.
  rewrite forallb_forall in Hall.
  assert (Hsub : forall k1 v1, m1 !! k1 = Some v1 ->
                   exists v', m2 !! k1 = Some v' /\ value_equal v1 v' = true).
  { intros k1 v1 H1. apply elem_of_map_to_list in H1.
    apply list_elem_of_In in H1. specialize (Hall _ H1). cbn [fst snd] in Hall.
    destruct (m2 !! k1) as [v'|]; [eauto | discriminate]. }
  assert (Hdom : dom m1 = dom m2).
  { apply set_subseteq_size_eq.
    - intros k1 Hk1. apply elem_of_dom in Hk1. destruct Hk1 as [v1 H1].
      destruct (Hsub _ _ H1) as (v' & H2 & _). apply elem_of_dom. eauto.
    - rewrite !size_dom. lia. }
  assert (Hin : k ∈ dom m1) by (rewrite Hdom; apply elem_of_dom; eauto).
  apply elem_of_dom in Hin. destruct Hin as [v1 H1].
  destruct (Hsub _ _ H1) as (v' & H2 & He). rewrite Hk in H2.
  inversion H2; subst v'. eauto.
Qed.

Lemma value_equal_integer (v1 v2 : value) :
  integer_typed v1 = false -> integer_typed v2 = true ->
  value_equal v1 v2 = false.
Proof. destruct v1, v2; try discriminate; reflexivity. Qed.

Section MetadataIntegers.

Variable conv_overflow : float64 -> Z.

Lemma loaded_values_decoded (now : Time) (w : world) (k : string) (v : value) :
  Values (fst (loadLastValuesSafe conv_overflow now w)) !! k = Some v ->
  integer_typed v = false.
Proof.
  unfold loadLastValuesSafe, LoadLastValues.
  destruct (w_file w) as [| |[doc|]]; cbn [fst Values];
    try (destruct (_ <? _)%Z; cbn [fst Values]);
    try (rewrite lookup_empty; discriminate).
  all: unfold decode_map; rewrite lookup_fmap;
    destruct (doc !! k) as [j|]; [|discriminate];
    cbn; intros H; inversion H; now destruct j.
Qed.

(** X25. Metadata that holds a value of an integer type is written to the
    state file on every cycle that gets past the throttle, changed or not:
    the stored copy comes back from JSON with float64 numbers, which
    DeepEqual never takes for equal to a uint32, uint64 or int64. *)
Theorem metadata_with_integer_is_rewritten (metadata : gmap string value)
    (k : string) (v : value) (now : Time) (w : world) :
  metadata !! k = Some v -> k <> "_lastTime" -> integer_typed v = true ->
  map_Forall (fun _ x => is_Some (encode_value x)) metadata ->
  snd (loadLastValuesSafe conv_overflow now w) <> Some errStateUpdated ->
  w_file w <> FileError ->
  w_writes (fst (OutputMetadataValues conv_overflow (Some (metadata, None))
                                      now w))
  = S (w_writes w).
Proof.
  intros Hk Hne Hint Henc Hstale Hfile. unfold OutputMetadataValues.
  pose proof (loaded_values_decoded now w) as Hdec.
  destruct (loadLastValuesSafe conv_overflow now w) as [pre err].
  cbn [fst snd] in *. rewrite bool_decide_eq_false_2 by exact Hstale.
  rewrite (encode_map_Some _ Henc).
  set (metadata1 := <["_lastTime" := default VNil (Values pre !! "_lastTime")]>
                      metadata).
  assert (Hneq : DeepEqual (Values pre) metadata1 = false).
  { apply not_true_is_false. intros Heq.
    destruct (DeepEqual_lookup _ _ k v Heq) as (v1 & H1 & He).
    - unfold metadata1. rewrite lookup_insert_ne by congruence. exact Hk.
    - apply Hdec in H1. rewrite (value_equal_integer _ _ H1 Hint) in He.
      discriminate. }
  rewrite Hneq. unfold SaveValues. cbn [with_console w_file fst snd].
  destruct (w_file w); try contradiction; destruct (encode_map _); reflexivity.
Qed.

End MetadataIntegers.

Lemma metadata_with_integer_is_rewritten_witness :
  let conv := fun _ : float64 => 0%Z in
  let md : gmap string value := {[ "cores" := VInt64 8 ]} in
  let w := mkWorld (FileData (Some (<["_lastTime" := JInt 1700000000]>
                                      {[ "cores" := JInt 8 ]})))
                   (mkConsole [] []) 1 in
  w_writes (fst (OutputMetadataValues conv (Some (md, None))
                   (mkTime 1700000060 0) w)) = 2%nat.
Proof.
  intros conv md w.
  apply (metadata_with_integer_is_rewritten conv md "cores" (VInt64 8)
           (mkTime 1700000060 0) w).
  - apply lookup_singleton_eq.
  - discriminate.
  - reflexivity.
  - apply map_Forall_singleton. cbn. eauto.
  - vm_compute. discriminate.
  - discriminate.
Defined.


(** *** Metadata that survives the state file *)

Lemma F64_eqb_refl (f : float64) :
  F64.IsNaN f = false -> F64.eqb f f = true.
Proof.
  destruct f as [s|s| |s m e]; try discriminate; intros _;
    unfold F64.eqb, SFeqb, SFcompare.
  - reflexivity.
  - destruct s; reflexivity.
  - rewrite Z.compare_refl, Pos.compare_cont_refl. now destruct s.
Qed.

Lemma value_equal_refl (v : value) :
  json_stable v = true -> value_equal v v = true.
Proof.
  destruct v as [|b|s|n|n|n|f]; try discriminate; intros H; cbn.
  - reflexivity.
  - now destruct b.
  - apply String.eqb_refl.
  - apply F64_eqb_refl. cbn in H. apply negb_true_iff in H.
    now apply orb_false_iff in H.
Qed.

Lemma decode_encode_stable (v : value) :
  json_stable v = true -> decode_value <$> encode_value v = Some v.
Proof.
  destruct v as [|b|s|n|n|n|f]; try discriminate; intros H; try reflexivity.
  cbn in *. apply negb_true_iff in H. now rewrite H.
Qed.

Lemma stable_encodable (m : gmap string value) :
  map_Forall (fun _ v => json_stable v = true) m ->
  map_Forall (fun _ v => is_Some (encode_value v)) m.
Proof.
  intros H k v Hk. specialize (H k v Hk). cbn in H.
  pose proof (decode_encode_stable v H) as E.
  destruct (encode_value v); [eauto | discriminate].
Qed.

Lemma decode_encode_map (m : gmap string value) :
  map_Forall (fun _ v => json_stable v = true) m ->
  decode_map (omap encode_value m) = m.
Proof.
  intros H. apply map_eq. intros k. unfold decode_map.
  rewrite lookup_fmap, lookup_omap.
  destruct (m !! k) as [v|] eqn:Hk; [|reflexivity]. cbn.
  apply decode_encode_stable. exact (H k v Hk).
Qed.

Lemma DeepEqual_refl (m : gmap string value) :
  map_Forall (fun _ v => json_stable v = true) m -> DeepEqual m m = true.
Proof.
  intros H. unfold DeepEqual. rewrite Nat.eqb_refl. cbn [andb].
  apply forallb_forall. intros [k v] Hin. apply list_elem_of_In in Hin.
  apply elem_of_map_to_list in Hin. cbn [fst snd]. rewrite Hin.
  apply value_equal_refl. exact (H k v Hin).
Qed.

Lemma of_Z_stable (z : Z) :
  (- 2 ^ 53 < z < 2 ^ 53)%Z -> json_stable (VFloat64 (F64.of_Z z)) = true.
Proof.
  intros Hz. pose proof (trunc_of_Z z Hz) as Ht. cbn.
  destruct (F64.of_Z z); try discriminate; reflexivity.
Qed.

(** X26. Metadata made of nil, booleans, strings and finite float64
    survives the state file unchanged. When a first cycle has saved it, a
    second cycle with the same metadata, at least a second after the
    stored timestamp, prints the metadata again and leaves the file alone:
    there is exactly one write. *)
Theorem unchanged_metadata_is_not_rewritten (conv_overflow : float64 -> Z)
    (metadata : gmap string value) (now1 now2 : Time) (w0 : world) :
  let r1 := OutputMetadataValues conv_overflow (Some (metadata, None)) now1 w0 in
  let r2 := OutputMetadataValues conv_overflow (Some (metadata, None)) now2
                                 (fst r1) in
  w_writes (fst r1) = S (w_writes w0) ->
  map_Forall (fun _ v => json_stable v = true) metadata ->
  metadata !! "_lastTime" = None ->
  (- 2 ^ 53 < Unix now1 < 2 ^ 53)%Z ->
  (Second <= nanos now2 - Unix now1 * Second)%Z ->
  snd r2 = ExitOK /\
  w_writes (fst r2) = S (w_writes w0) /\
  w_file (fst r2) = w_file (fst r1) /\
  exists doc : gmap string json,
    encode_map metadata = Some doc /\
    stdout (w_console (fst r2))
    = (stdout (w_console (fst r1)) ++ [OutJSON doc])%list.
Proof.
  intros r1 r2 Hwrite Hstable Hfresh Hts Hlate.
  pose proof (encode_map_Some _ (stable_encodable _ Hstable)) as Henc.
  set (doc := omap encode_value metadata) in *.
  set (T := Unix now1) in *.
  assert (Hr1 : exists c1,
             fst r1 = mkWorld (FileData (Some (<["_lastTime" := JInt T]> doc)))
                              c1 (S (w_writes w0))).
  { clear r2. subst r1. unfold OutputMetadataValues in *.
    destruct (loadLastValuesSafe conv_overflow now1 w0) as [pre err].
    case_bool_decide; [simpl in Hwrite; lia|].
    rewrite Henc in *.
    destruct (DeepEqual _ _); [simpl in Hwrite; lia|].
    cbn [fst snd] in *. unfold SaveValues in *.
    cbn [with_console w_file w_console w_writes Values Timestamp] in *.
    rewrite insert_insert_eq in *.
    rewrite (encode_map_insert metadata doc "_lastTime" (VInt64 (Unix now1))
               (JInt (Unix now1)) Henc eq_refl) in *.
    destruct (w_file w0); cbn [fst snd] in *;
      [eexists; reflexivity | cbn in Hwrite; lia | eexists; reflexivity]. }
  destruct Hr1 as [c1 Hr1].
  assert (Hpre : decode_map (<["_lastTime" := JInt T]> doc)
                 = <["_lastTime" := VFloat64 (F64.of_Z T)]> metadata).
  { unfold decode_map. rewrite fmap_insert. cbn [decode_value]. f_equal.
    apply decode_encode_map. exact Hstable. }
  subst r2. rewrite Hr1. unfold OutputMetadataValues.
  unfold loadLastValuesSafe, LoadLastValues. cbn [w_file].
  rewrite Hpre, lookup_insert_eq, float_to_int64_of_Z by exact Hts.
  rewrite Sub_lt_Second. cbn [Timestamp]. rewrite nanos_time_Unix.
  destruct (Z.ltb_spec (nanos now2 - T * Second) Second) as [Hlt|_]; [lia|].
  rewrite bool_decide_eq_false_2 by discriminate.
  rewrite Henc. cbn [Values]. rewrite lookup_insert_eq. cbn [default].
  rewrite DeepEqual_refl.
  - cbn [fst snd with_console w_writes w_file w_console print stdout].
    repeat split. exists doc. split; reflexivity.
  - apply map_Forall_insert_2; [now apply of_Z_stable | exact Hstable].
Qed.

Lemma unchanged_metadata_is_not_rewritten_witness :
  let conv := fun _ : float64 => 0%Z in
  let md : gmap string value := {[ "name" := VString "x" ]} in
  let w0 := mkWorld FileAbsent (mkConsole [] []) 0 in
  let r1 := OutputMetadataValues conv (Some (md, None))
              (mkTime 1700000000 900000000) w0 in
  let r2 := OutputMetadataValues conv (Some (md, None))
              (mkTime 1700000001 400000000) (fst r1) in
  snd r2 = ExitOK /\
  w_writes (fst r2) = 1%nat /\
  w_file (fst r2) = w_file (fst r1) /\
  exists doc : gmap string json,
    encode_map md = Some doc /\
    stdout (w_console (fst r2))
    = (stdout (w_console (fst r1)) ++ [OutJSON doc])%list.
Proof.
  intros conv md w0 r1 r2.
  apply (unchanged_metadata_is_not_rewritten conv md
           (mkTime 1700000000 900000000) (mkTime 1700000001 400000000) w0).
  - vm_compute. reflexivity.
  - apply map_Forall_singleton. reflexivity.
  - apply lookup_singleton_ne. discriminate.
  - simpl. lia.
  - vm_compute. discriminate.
Defined.

(* ===================================================================== *)
(** ** Runtime Harness: descriptor mode *)
(* ===================================================================== *)

Lemma string_app_inv_head (p a b : string) : p +:+ a = p +:+ b -> a = b.
Proof.
  induction p as [|c p IH]; cbn [String.append]; [trivial|].
  intros H. inversion H. auto.
Qed.

Lemma string_app_not_self (p a : string) : p = p +:+ String "." a -> False.
Proof.
  intros H. apply (f_equal String.length) in H.
  rewrite string_length_app in H. cbn [String.length] in H. lia.
Qed.

(** Insertions under distinct keys do not disturb one another. *)
Lemma foldl_insert_other {A B : Type} (kf : A -> string) (vf : A -> B)
    (l : list A) :
  forall (acc : gmap string B) (k : string),
    k ∉ kf <$> l ->
    foldl (fun m e => <[kf e := vf e]> m) acc l !! k = acc !! k.
Proof.
  induction l as [|e l IH]; intros acc k Hk; [reflexivity|].
  cbn [foldl]. rewrite fmap_cons in Hk. apply not_elem_of_cons in Hk.
  destruct Hk as [Hne Hk]. rewrite IH by assumption.
  now rewrite lookup_insert_ne by congruence.
Qed.

Lemma foldl_insert_lookup {A B : Type} (kf : A -> string) (vf : A -> B)
    (l : list A) :
  forall (acc : gmap string B) (x : A),
    NoDup (kf <$> l) -> x ∈ l ->
    foldl (fun m e => <[kf e := vf e]> m) acc l !! kf x = Some (vf x).
Proof.
  induction l as [|e l IH]; intros acc x Hnd Hx; [inversion Hx|].
  rewrite fmap_cons in Hnd. apply NoDup_cons in Hnd. destruct Hnd as [Hne Hnd].
  cbn [foldl]. apply elem_of_cons in Hx. destruct Hx as [-> | Hx].
  - rewrite foldl_insert_other by assumption. apply lookup_insert_eq.
  - now apply IH.
Qed.

Lemma foldl_insert_inv {A B : Type} (kf : A -> string) (vf : A -> B)
    (l : list A) :
  forall (acc : gmap string B) (k : string) (v : B),
    foldl (fun m e => <[kf e := vf e]> m) acc l !! k = Some v ->
    acc !! k = Some v \/ exists x : A, x ∈ l /\ k = kf x /\ v = vf x.
Proof.
  induction l as [|e l IH]; intros acc k v H; [now left|].
  cbn [foldl] in H. apply IH in H. destruct H as [H | (x & Hx & -> & ->)].
  - apply lookup_insert_Some in H. destruct H as [[<- <-] | [_ H]]; [|now left].
    right. exists e. split; [apply elem_of_cons; now left | auto].
  - right. exists x. split; [apply elem_of_cons; now right | auto].
Qed.

Section DescriptorMode.

Variable strings_Title : string -> string.
Variable json_Marshal : gmap string Graphs -> string.
Variable plugin : Plugin.

Lemma published_key_inj (a b : string * Graphs) :
  fst (OutputMeta_graph strings_Title plugin a)
  = fst (OutputMeta_graph strings_Title plugin b) -> fst a = fst b.
Proof.
  unfold OutputMeta_graph. cbn [fst].
  destruct (String.eqb_spec (fst a) "") as [Ea|Ea];
    destruct (String.eqb_spec (fst b) "") as [Eb|Eb]; intros H.
  - congruence.
  - exfalso. eapply string_app_not_self. exact H.
  - exfalso. eapply string_app_not_self. symmetry. exact H.
  - apply string_app_inv_head in H. now inversion H.
Qed.

Lemma published_keys_NoDup (l : list (string * Graphs)) :
  NoDup (fst <$> l) ->
  NoDup ((fun e => fst (OutputMeta_graph strings_Title plugin e)) <$> l).
Proof.
  induction l as [|e l IH]; intros H; [constructor|].
  rewrite fmap_cons in *. apply NoDup_cons in H. destruct H as [Hne Hnd].
  apply NoDup_cons. split; [|now apply IH].
  intros Hin. apply Hne. apply list_elem_of_fmap in Hin.
  destruct Hin as (e' & He & Hin). apply published_key_inj in He.
  apply list_elem_of_fmap. exists e'. auto.
Qed.

(** X27. In descriptor mode every graph of the plugin is published, and
    nothing else: a graph with the key [k] appears under the plugin's key
    when [k] is empty and under [<plugin key>.k] otherwise, with its unit
    and the names of its metrics unchanged, and with every label that was
    set left as it was. *)
Theorem OutputMeta_graphs_published (mp : MetricsPlugin) :
  NoDup (fst <$> mp_GraphDefinition mp) ->
  (forall (k : string) (g : Graphs),
     (k, g) ∈ mp_GraphDefinition mp ->
     exists g' : Graphs,
       OutputMeta_graphs strings_Title plugin mp
         !! (if String.eqb k "" then Key (plugin_Meta plugin)
             else Key (plugin_Meta plugin) +:+ "." +:+ k) = Some g' /\
       Graphs_Unit g' = Graphs_Unit g /\
       (Graphs_Label g <> "" -> Graphs_Label g' = Graphs_Label g) /\
       Name <$> Graphs_Metrics g' = Name <$> Graphs_Metrics g /\
       Forall2 (fun v v' => Label v <> "" -> v' = v)
               (Graphs_Metrics g) (Graphs_Metrics g')) /\
  (forall (k' : string) (g' : Graphs),
     OutputMeta_graphs strings_Title plugin mp !! k' = Some g' ->
     exists (k : string) (g : Graphs),
       (k, g) ∈ mp_GraphDefinition mp /\
       k' = (if String.eqb k "" then Key (plugin_Meta plugin)
             else Key (plugin_Meta plugin) +:+ "." +:+ k)).
Proof.
  intros Hnd. split.
  - intros k g Hin. eexists. split; [|split; [|split; [|split]]].
    + unfold OutputMeta_graphs.
      apply (foldl_insert_lookup
               (fun e => fst (OutputMeta_graph strings_Title plugin e))
               (fun e => snd (OutputMeta_graph strings_Title plugin e))
               _ ∅ (k, g)); [now apply published_keys_NoDup | exact Hin].
    + reflexivity.
    + cbn. intros Hl. destruct (String.eqb_spec (Graphs_Label g) ""); congruence.
    + cbn [OutputMeta_graph snd Graphs_Metrics].
      induction (Graphs_Metrics g) as [|v l IH]; [reflexivity|].
      cbn [map]. rewrite !fmap_cons, IH. f_equal.
      destruct (String.eqb (Label v) ""); reflexivity.
    + cbn [OutputMeta_graph snd Graphs_Metrics].
      induction (Graphs_Metrics g) as [|v l IH]; [constructor|].
      cbn [map]. constructor; [|exact IH].
      intros Hl. destruct (String.eqb_spec (Label v) ""); congruence.
  - intros k' g' H. unfold OutputMeta_graphs in H.
    apply foldl_insert_inv in H.
    destruct H as [H | ([k g] & Hin & -> & _)];
      [rewrite lookup_empty in H; discriminate|].
    exists k, g. split; [exact Hin | reflexivity].
Qed.

Variable ParseFloat : string -> float64 * option error.
Variable conv_overflow : float64 -> Z.

(** X28. Run chooses by the environment variable IDPC_PLUGIN_META. When
    it is set, Run only writes the descriptor text, and ParseVersionCommand
    reads the plugin's Meta back from that text, whatever graph
    definitions follow the version line (for a Meta of the shape the
    pattern accepts); the state is not touched. When it is empty or unset,
    Run is OutputValues. *)
Theorem Run_modes (getenv : string -> string) (now : Time) (w : world) :
  Meta_parsable (plugin_Meta plugin) ->
  match Run ParseFloat conv_overflow strings_Title json_Marshal plugin
            getenv now w with
  | inl text =>
      getenv "IDPC_PLUGIN_META" <> "" /\
      text = OutputMeta strings_Title json_Marshal plugin /\
      ParseVersionCommand text = plugin_Meta plugin
  | inr r =>
      getenv "IDPC_PLUGIN_META" = "" /\
      r = OutputValues ParseFloat conv_overflow plugin now w
  end.
Proof.
  intros H. unfold Run.
  change PLUGIN_META_ENV_VAR with "IDPC_PLUGIN_META".
  destruct (getenv "IDPC_PLUGIN_META") as [|c s] eqn:Henv; cbn [nonempty];
    [split; reflexivity|].
  split; [discriminate|]. split; [reflexivity|].
  unfold OutputMeta.
  set (js := match as_MetricsPlugin plugin with
             | Some mp => json_Marshal (OutputMeta_graphs strings_Title plugin mp)
             | None => ""
             end).
  set (m := plugin_Meta plugin) in *. clearbody m js.
  rewrite !string_app_assoc.
  change (Meta_String m +:+ String "010"%char "" +:+ js +:+ String "010"%char "")
    with ("" +:+ Meta_String m +:+ String "010"%char (js +:+ String "010"%char "")).
  destruct (version_line_submatch_within m ""
              (String "010"%char (js +:+ String "010"%char ""))
              H eq_refl eq_refl) as [d0 E].
  unfold ParseVersionCommand. rewrite E.
  destruct H as (_ & _ & (Ha & Hb & Hc) & _).
  destruct m as [key ty [ma mi pa] rev os arch gov]. cbn in *.
  unfold Version_String. cbn [Major Minor Patch].
  rewrite ParseVersion_digits by (unfold is_uint32; lia).
  reflexivity.
Qed.

End DescriptorMode.


Lemma OutputMeta_graphs_published_witness :
  let title := fun s : string => s in
  let cpu := mkGraphs "" "percentage"
               [mkMetrics "user" "" false "" true F64.zero false;
                mkMetrics "system" "System" false "" true F64.zero false] in
  let mp := mkMetricsPlugin (Some ∅, None)
              [("", mkGraphs "Load" "float" []); ("cpu", cpu)] in
  let plugin := mkPlugin (mkMeta "host" TypeMetrics (mkVersion 0 0 1) "dev"
                                 "linux" "amd64" "go1.16.5")
                         (Some mp) None None in
  exists g' : Graphs,
    OutputMeta_graphs title plugin mp !! "host.cpu" = Some g' /\
    Graphs_Unit g' = "percentage" /\
    (Graphs_Label cpu <> "" -> Graphs_Label g' = Graphs_Label cpu) /\
    Name <$> Graphs_Metrics g' = ["user"; "system"] /\
    Forall2 (fun v v' => Label v <> "" -> v' = v)
            (Graphs_Metrics cpu) (Graphs_Metrics g').
Proof.
  intros title cpu mp plugin.
  refine (proj1 (OutputMeta_graphs_published title plugin mp _) "cpu" cpu _).
  - cbn. apply NoDup_cons. split; [|apply NoDup_singleton].
    intros H. apply list_elem_of_singleton in H. discriminate H.
  - cbn. apply elem_of_cons. right. apply list_elem_of_singleton. reflexivity.
Defined.

Lemma Run_modes_witness :
  let conv := fun _ : float64 => 0%Z in
  let parse := fun _ : string => (F64.zero, @None error) in
  let title := fun s : string => s in
  let marshal := fun _ : gmap string Graphs => "{}" in
  let plugin := mkPlugin (mkMeta "host" TypeMetrics (mkVersion 0 71 2)
                                 "923088e2" "linux" "amd64" "go1.16.5")
                         None None None in
  let getenv := fun name : string =>
                  if String.eqb name "IDPC_PLUGIN_META" then "1" else "" in
  let w := mkWorld FileAbsent (mkConsole [] []) 0 in
  match Run parse conv title marshal plugin getenv (mkTime 1700000000 0) w with
  | inl text =>
      getenv "IDPC_PLUGIN_META" <> "" /\
      text = OutputMeta title marshal plugin /\
      ParseVersionCommand text = plugin_Meta plugin
  | inr r =>
      getenv "IDPC_PLUGIN_META" = "" /\
      r = OutputValues parse conv plugin (mkTime 1700000000 0) w
  end.
Proof.
  intros conv parse title marshal plugin getenv w.
  apply (Run_modes title marshal plugin parse conv getenv
           (mkTime 1700000000 0) w).
  unfold Meta_parsable; simpl.
  repeat split; try reflexivity; try lia.
  right; left; reflexivity.
Defined.

(* ===================================================================== *)
(** ** The example plugin: reading the reply of the server *)
(* ===================================================================== *)

Section MemcachedProperties.

Variable ParseFloat : string -> float64 * option error.

Lemma memcached_scan_step (s : string) (rest : list string)
    (scan_err : option error) (stat : gmap string value)
    (logged : list error) :
  s <> "END" -> stat_line_ok s = true ->
  exists (stat' : gmap string value) (logged' : list error),
    memcached_scan ParseFloat (s :: rest) scan_err stat logged
    = memcached_scan ParseFloat rest scan_err stat' logged' /\
    (forall k : string,
       is_Some (stat' !! k) <->
       is_Some (stat !! k) \/ stat_line_name s = Some k) /\
    (map_Forall (fun _ v => exists f, v = VFloat64 f) stat ->
     map_Forall (fun _ v => exists f, v = VFloat64 f) stat').
Proof.
  intros Hend Hok. cbn [memcached_scan].
  destruct (String.eqb_spec s "END") as [|_]; [contradiction|].
  unfold stat_line_ok, stat_line_name in *.
  destruct (Split_byte " " s) as [|res0 res_tail]; [discriminate|].
  destruct (String.eqb res0 "STAT").
  - cbn [negb orb] in Hok.
    destruct res_tail as [|res1 [|res2 more]]; try discriminate.
    destruct (ParseFloat res2) as [f err].
    eexists _, _. split; [reflexivity|]. split.
    + intros k. rewrite lookup_insert_is_Some. split.
      * intros [<- | [_ H]]; [right; reflexivity | now left].
      * intros [H | H].
        -- destruct (decide (res1 = k)); [now left | right; auto].
        -- inversion H. now left.
    + intros Hall. apply map_Forall_insert_2; [eauto | exact Hall].
  - eexists _, _. split; [reflexivity|]. split; [|trivial].
    intros k. split; [now left|].
    intros [H | H]; [exact H|].
    destruct res_tail as [|? [|? ?]]; discriminate.
Qed.

(** X29. A reply that ends without the line END and without a read error
    makes Metrics() return a nil map and a nil error, whatever statistics
    it has read by then (no line being a STAT line with fewer than three
    fields). The caller cannot tell this from success; a metrics cycle
    that receives the pair does not return (see the nil-map property). *)
Theorem memcached_Metrics_unterminated (lines : list string) :
  Forall (fun s => s <> "END" /\ stat_line_ok s = true) lines ->
  fst (memcached_Metrics ParseFloat (Connected lines None))
  = MetricsReturn None None.
Proof.
  unfold memcached_Metrics. generalize (∅ : gmap string value).
  generalize ([] : list error).
  induction lines as [|s rest IH]; intros logged stat Hall; [reflexivity|].
  apply Forall_cons in Hall. destruct Hall as [[Hend Hok] Hall].
  destruct (memcached_scan_step s rest None stat logged Hend Hok)
    as (stat' & logged' & -> & _).
  now apply IH.
Qed.

Lemma memcached_scan_step_value (s : string) (rest : list string)
    (scan_err : option error) (stat : gmap string value)
    (logged : list error) :
  s <> "END" -> stat_line_ok s = true ->
  exists (stat' : gmap string value) (logged' : list error),
    memcached_scan ParseFloat (s :: rest) scan_err stat logged
    = memcached_scan ParseFloat rest scan_err stat' logged' /\
    ((stat_line_name s = None /\ stat' = stat) \/
     exists k v : string,
       stat_line_name s = Some k /\ stat_line_value s = Some v /\
       stat' = <[k := VFloat64 (fst (ParseFloat v))]> stat).
Proof.
  intros Hend Hok. cbn [memcached_scan].
  destruct (String.eqb_spec s "END") as [|_]; [contradiction|].
  unfold stat_line_ok, stat_line_name, stat_line_value in *.
  destruct (Split_byte " " s) as [|res0 res_tail]; [discriminate|].
  destruct (String.eqb res0 "STAT").
  - cbn [negb orb] in Hok.
    destruct res_tail as [|res1 [|res2 more]]; try discriminate.
    destruct (ParseFloat res2) as [f err] eqn:Ef.
    eexists _, _. split; [reflexivity|]. right.
    exists res1, res2. rewrite Ef. auto.
  - eexists _, _. split; [reflexivity|]. left. split; [|reflexivity].
    destruct res_tail as [|? [|? ?]]; reflexivity.
Qed.

Lemma last_stat_line_nil (k v : string) : ~ last_stat_line [] k v.
Proof.
  intros (before & s & after & H & _). destruct before; discriminate H.
Qed.

(** The last line that sets [k] in [s :: rest] is the last one in [rest],
    or [s] itself when no line of [rest] sets [k]. *)
Lemma last_stat_line_cons (s : string) (rest : list string) (k v : string) :
  last_stat_line (s :: rest) k v <->
  last_stat_line rest k v \/
  (stat_line_name s = Some k /\ stat_line_value s = Some v /\
   Forall (fun s' => stat_line_name s' <> Some k) rest).
Proof.
  split.
  - intros (before & s0 & after & H & Hn & Hv & Hafter).
    destruct before as [|b before]; cbn [app] in H; inversion H; subst.
    + right. auto.
    + left. exists before, s0, after. auto.
  - intros [(before & s0 & after & -> & Hn & Hv & Hafter) | (Hn & Hv & Hrest)].
    + exists (s :: before), s0, after. auto.
    + exists [], s, rest. auto.
Qed.

(** X30. A reply with the line END, no line before END being a STAT line
    with fewer than three fields, comes back as a map, without error.
    Whatever follows END is not read. The map holds, for a name [k], the
    float64 that ParseFloat returned for the third field of the last STAT
    line before END with the name [k], also when ParseFloat returned an
    error with it; it holds nothing for a name that no STAT line before
    END sets. *)
Theorem memcached_Metrics_terminated (pre post : list string)
    (scan_err : option error) :
  Forall (fun s => s <> "END" /\ stat_line_ok s = true) pre ->
  exists stat : gmap string value,
    fst (memcached_Metrics ParseFloat (Connected (pre ++ "END" :: post) scan_err))
    = MetricsReturn (Some stat) None /\
    forall (k : string) (x : value),
      stat !! k = Some x <->
      exists v : string,
        last_stat_line pre k v /\ x = VFloat64 (fst (ParseFloat v)).
Proof.
  unfold memcached_Metrics.
  enough (Hgen : forall (stat0 : gmap string value) (logged : list error),
            Forall (fun s => s <> "END" /\ stat_line_ok s = true) pre ->
            exists stat : gmap string value,
              fst (memcached_scan ParseFloat (pre ++ "END" :: post) scan_err
                                  stat0 logged)
              = MetricsReturn (Some stat) None /\
              forall (k : string) (x : value),
                stat !! k = Some x <->
                (exists v : string,
                   last_stat_line pre k v /\
                   x = VFloat64 (fst (ParseFloat v))) \/
                (Forall (fun s' => stat_line_name s' <> Some k) pre /\
                 stat0 !! k = Some x)).
  { intros Hall. destruct (Hgen ∅ [] Hall) as (stat & Hs & Hk).
    exists stat. split; [exact Hs|]. intros k x. rewrite Hk, lookup_empty.
    split; [|now left]. intros [H | [_ H]]; [exact H | discriminate]. }
  induction pre as [|s rest IH]; intros stat0 logged Hall.
  - exists stat0. cbn [app memcached_scan]. rewrite String.eqb_refl.
    split; [reflexivity|]. intros k x. split.
    + intros H. right. split; [constructor | exact H].
    + intros [(v & Hl & _) | [_ H]]; [|exact H].
      now apply last_stat_line_nil in Hl.
  - apply Forall_cons in Hall. destruct Hall as [[Hend Hok] Hall].
    rewrite <- app_comm_cons.
    destruct (memcached_scan_step_value s (rest ++ "END" :: post) scan_err
                stat0 logged Hend Hok) as (stat' & logged' & -> & Hstep).
    destruct (IH stat' logged' Hall) as (stat & Hs & Hk).
    exists stat. split; [exact Hs|]. intros k x. rewrite Hk. clear Hk Hs IH.
    setoid_rewrite last_stat_line_cons. rewrite Forall_cons.
    destruct Hstep as [[Hnone ->] | (k0 & v0 & Hn0 & Hv0 & ->)].
    + rewrite Hnone. split.
      * intros [(v & Hl & Hx) | [Hrest H0]]; [left; eauto|].
        right. split; [split; [discriminate | exact Hrest] | exact H0].
      * intros [(v & [Hl | (Hn & _)] & Hx) | [[_ Hrest] H0]];
          [left; eauto | discriminate | right; auto].
    + rewrite Hn0, Hv0. destruct (decide (k0 = k)) as [->|Hne].
      * rewrite lookup_insert_eq. split.
        -- intros [(v & Hl & Hx) | [Hrest H0]]; [left; eauto|].
           inversion H0; subst x. left. exists v0. auto.
        -- intros [(v & [Hl | (_ & Hv & Hrest)] & Hx) | [[Hcontra _] _]];
             [left; eauto | | congruence].
           inversion Hv; subst v x. right. auto.
      * rewrite lookup_insert_ne by exact Hne. split.
        -- intros [(v & Hl & Hx) | [Hrest H0]]; [left; eauto|].
           right. split; [split; [congruence | exact Hrest] | exact H0].
        -- intros [(v & [Hl | (Hn & _)] & Hx) | [[_ Hrest] H0]];
             [left; eauto | congruence | right; auto].
Qed.

End MemcachedProperties.

Lemma memcached_Metrics_unterminated_witness :
  let parse := fun _ : string => (F64.of_Z 1, @None error) in
  fst (memcached_Metrics parse
         (Connected ["STAT pid 1"; "STAT curr_connections 10"] None))
  = MetricsReturn None None.
Proof.
  intros parse.
  apply (memcached_Metrics_unterminated parse).
  repeat constructor; discriminate.
Defined.

Lemma memcached_Metrics_terminated_witness :
  let parse := fun s : string =>
                 if String.eqb s "10" then (F64.of_Z 10, @None error)
                 else (F64.zero, Some errSyntax) in
  exists stat : gmap string value,
    fst (memcached_Metrics parse
           (Connected (["STAT curr_connections 7"; "STAT pid x";
                        "STAT curr_connections 10"] ++
                       "END" :: ["STAT late 3"]) None))
    = MetricsReturn (Some stat) None /\
    stat !! "curr_connections" = Some (VFloat64 (F64.of_Z 10)) /\
    stat !! "pid" = Some (VFloat64 F64.zero) /\
    stat !! "late" = None.
Proof.
  intros parse.
  destruct (memcached_Metrics_terminated parse
              ["STAT curr_connections 7"; "STAT pid x";
               "STAT curr_connections 10"] ["STAT late 3"] None
              ltac:(repeat constructor; discriminate))
    as (stat & Hrun & Hiff).
  exists stat. split; [exact Hrun|]. split; [|split].
  - apply Hiff. exists "10". split; [|reflexivity].
    exists ["STAT curr_connections 7"; "STAT pid x"],
      "STAT curr_connections 10", [].
    repeat split; constructor.
  - apply Hiff. exists "x". split; [|reflexivity].
    exists ["STAT curr_connections 7"], "STAT pid x",
      ["STAT curr_connections 10"].
    repeat split. repeat constructor. discriminate.
  - destruct (stat !! "late") as [x|] eqn:E; [|reflexivity].
    apply Hiff in E. destruct E as (v & (before & s & after & Hpre & Hn & _) & _).
    exfalso.
    assert (Hin : s ∈ ["STAT curr_connections 7"; "STAT pid x";
                       "STAT curr_connections 10"]).
    { rewrite Hpre. apply elem_of_app. right. apply elem_of_cons. now left. }
    repeat (apply elem_of_cons in Hin; destruct Hin as [-> | Hin];
            [discriminate Hn|]).
    inversion Hin.
Defined.

(** The version text of the example plugin, ["v1.0.0"], is not one that
    ParseVersion accepts; the plugin drops the error, so its Meta always
    carries the version 0.0.0. A STAT line without a value stops
    Metrics() with a panic. *)
Example memcached_examples :
  ParseVersion "v1.0.0" = (Version_zero, Some errSyntax) /\
  fst (memcached_Metrics (fun _ => (F64.zero, None))
         (Connected ["STAT pid"; "END"] None)) = MetricsPanic.
Proof. split; reflexivity. Qed.

(* ===================================================================== *)
(** ** The examples of the specification, evaluated *)
(* ===================================================================== *)

Example LessThan_examples :
  LessThan (mkVersion 1 2 3) (mkVersion 1 3 0) = true /\
  LessThan (mkVersion 1 3 0) (mkVersion 2 0 0) = true /\
  LessThan (mkVersion 2 0 0) (mkVersion 2 0 0) = false.
Proof. repeat split. Qed.

Example ParseVersion_errors :
  snd (ParseVersion "1.2") = Some errVersionFormat /\
  snd (ParseVersion "1.x.3") = Some errSyntax /\
  snd (ParseVersion "1.2.4294967296") = Some errRange /\
  ParseVersion "1212.34.1212" = (mkVersion 1212 34 1212, None).
Proof. repeat split. Qed.

(** The line printed by the test plugin of the repository. *)
Example ParseVersionCommand_test_line :
  ParseVersionCommand
    "idpc-plugin-testapp-metadata version 0.71.2 (rev 923088e2) [linux amd64 go1.16.5]"
  = mkMeta "testapp" TypeMetadata (mkVersion 0 71 2) "923088e2" "linux"
           "amd64" "go1.16.5".
Proof. vm_compute. reflexivity. Qed.

(** From 100 to 160 in 60 seconds is 60 per minute; a decrease is a
    counter reset for the float64 variant. *)
Example calcDiff_examples :
  calcDiff (F64.of_Z 160) (time_Unix 1060) (F64.of_Z 100) (time_Unix 1000)
  = (F64.of_Z 60, None) /\
  calcDiff (F64.of_Z 90) (time_Unix 1060) (F64.of_Z 100) (time_Unix 1000)
  = (F64.zero, Some errCounterReset).
Proof. split; vm_compute; reflexivity. Qed.

(** Observed keys [cpu.user], [cpu.system], [cpu.idle] and [memory.used]
    under the pattern [cpu.*]. *)
Example expandWildcard_example :
  let metric := mkMetrics "*" "" false "" false F64.zero false in
  let vals : gmap string value :=
    <["cpu.user" := VFloat64 (F64.of_Z 1)]>
      (<["cpu.system" := VFloat64 (F64.of_Z 2)]>
         (<["cpu.idle" := VFloat64 (F64.of_Z 3)]>
            (<["memory.used" := VFloat64 (F64.of_Z 4)]> ∅))) in
  forall k : string,
    is_Some (vals !! k) ->
    (exists ms, expandWildcard "cpu" metric vals = Some ms /\
                with_name metric k ∈ ms)
    <-> k <> "memory.used".
Proof.
  intros metric vals k Hk.
  destruct (expandWildcard_members "cpu" metric vals eq_refl)
    as (ms & Hms & Hiff).
  assert (Hiff' : with_name metric k ∈ ms <->
                  is_Some (vals !! k) /\ begins_with_match "cpu.*" k)
    by (rewrite Hiff; apply and_iff_compat_l, MatchString_wildcard).
  clear Hiff.
  assert (Hkeys : k = "cpu.user" \/ k = "cpu.system" \/ k = "cpu.idle" \/
                  k = "memory.used").
  { destruct Hk as [v Hv]. unfold vals in Hv.
    apply lookup_insert_Some in Hv. destruct Hv as [[<- _]|[_ Hv]]; [auto|].
    apply lookup_insert_Some in Hv. destruct Hv as [[<- _]|[_ Hv]]; [auto|].
    apply lookup_insert_Some in Hv. destruct Hv as [[<- _]|[_ Hv]]; [auto|].
    apply lookup_insert_Some in Hv. destruct Hv as [[<- _]|[_ Hv]]; [auto|].
    rewrite lookup_empty in Hv. discriminate Hv. }
  assert (Hcpu : forall u, nonempty u = true -> all_in class_wild u = true ->
                           begins_with_match "cpu.*" ("cpu." +:+ u)).
  { intros u Hne Hall. exists ("cpu." +:+ u), "".
    split; [now rewrite string_app_nil_r|].
    do 4 (apply wild_match_byte; [reflexivity|]).
    rewrite <- (string_app_nil_r u).
    apply wild_match_wild; auto. constructor. }
  split.
  - intros (ms' & Hms' & Hin) ->. rewrite Hms in Hms'. inversion Hms'; subst ms'.
    apply Hiff' in Hin. destruct Hin as (_ & w & rest & Hw & Hm).
    apply wild_match_inv_byte in Hm; [|reflexivity].
    destruct Hm as (w' & -> & _). discriminate Hw.
  - intros Hne. exists ms. split; [exact Hms|]. apply Hiff'. split; [exact Hk|].
    destruct Hkeys as [-> | [-> | [-> | ->]]]; try congruence;
      [apply (Hcpu "user") | apply (Hcpu "system") | apply (Hcpu "idle")];
      reflexivity.
Qed.

(** A second metadata cycle half a second after the first, but past the
    next whole second: the stored timestamp is more than a second old, the
    guard lets the cycle through, the map is printed again and the
    comparison with the stored values suppresses the write. *)
Example metadata_twice_across_a_second :
  let conv := fun _ : float64 => 0%Z in
  let md : gmap string value := {[ "name" := VString "x" ]} in
  let w0 := mkWorld FileAbsent (mkConsole [] []) 0 in
  let r1 := OutputMetadataValues conv (Some (md, None))
              (mkTime 1700000000 900000000) w0 in
  let w1 := with_console (mkConsole [] []) (fst r1) in
  let r2 := OutputMetadataValues conv (Some (md, None))
              (mkTime 1700000001 400000000) w1 in
  w_writes (fst r1) = 1%nat /\ w_writes (fst r2) = 1%nat /\
  stdout (w_console (fst r2)) = stdout (w_console (fst r1)) /\
  w_file (fst r2) = w_file (fst r1).
Proof. repeat split; vm_compute; reflexivity. Qed.
